(** * pm2-gui: the monitor (lib/monitor.js)

    A shallow embedding of [lib/monitor.js]: the connection-string codec,
    the environment filter of the process list, the throttle of the
    refresh, the heartbeat of the system statistics, the registries of log
    tails and of usage timers, the broadcast gate and the client-side
    [connect].

    JavaScript values are embedded as far as the monitor uses them:
    [undefined], [null], integral numbers and strings.  Strings are
    sequences of code units below 256. *)

From Stdlib Require Import ZArith QArith_base Lia Bool List.
From Stdlib Require Import Strings.String Strings.Ascii Numbers.DecimalString.
From stdpp Require Import base option gmap strings list fin_maps.

Local Open Scope string_scope.
Local Open Scope list_scope.
Local Open Scope Z_scope.

(** String concatenation computes under [simpl]. *)
Local Arguments String.append !_ _ : simpl nomatch.

(** ** JavaScript values *)

Module JS.

Inductive value : Type :=
| Undefined
| Null
| Num (n : Z)
| Str (s : string).

#[global] Instance value_eq_dec : EqDecision value.
Proof. solve_decision. Defined.

(** [!!v]: the values that count as true in a condition. *)
Definition truthy (v : value) : bool :=
  match v with
  | Undefined | Null => false
  | Num n => negb (n =? 0)
  | Str s => negb (String.eqb s "")
  end.

(** [a || b] *)
Definition or_else (a b : value) : value := if truthy a then a else b.

(** Decimal numeral of an integer, as [String(n)] writes it. *)
Definition string_of_Z (n : Z) : string := NilZero.string_of_int (Z.to_int n).

(** The string a value turns into when it is concatenated or used as a
    property key. *)
Definition to_string (v : value) : string :=
  match v with
  | Undefined => "undefined"
  | Null => "null"
  | Num n => string_of_Z n
  | Str s => s
  end.

(** [a + b] when one side is a string: concatenation of the two texts. *)
Definition concat (a b : value) : value := Str (to_string a +:+ to_string b).

End JS.

Import JS.

(** ** Strings

    The string methods the monitor calls, on strings of code units. *)

Module Text.

Definition code (c : ascii) : Z := Z.of_nat (nat_of_ascii c).

Definition is_digit (c : ascii) : bool := (48 <=? code c) && (code c <=? 57).
Definition is_upper (c : ascii) : bool := (65 <=? code c) && (code c <=? 90).
Definition is_lower (c : ascii) : bool := (97 <=? code c) && (code c <=? 122).

Definition lower_char (c : ascii) : ascii :=
  if is_upper c then ascii_of_nat (nat_of_ascii c + 32) else c.

Fixpoint toLowerCase (s : string) : string :=
  match s with
  | EmptyString => EmptyString
  | String c s' => String (lower_char c) (toLowerCase s')
  end.

Fixpoint all_chars (p : ascii -> bool) (s : string) : bool :=
  match s with
  | EmptyString => true
  | String c s' => p c && all_chars p s'
  end.

(** Does [c] occur in [set]? *)
Fixpoint mem_char (c : ascii) (set : string) : bool :=
  match set with
  | EmptyString => false
  | String d set' => Ascii.eqb c d || mem_char c set'
  end.

(** Does [s] begin with [p]? *)
Fixpoint starts_with (p s : string) : bool :=
  match p, s with
  | EmptyString, _ => true
  | String a p', String b s' => Ascii.eqb a b && starts_with p' s'
  | String _ _, EmptyString => false
  end.

(** The longest prefix whose characters satisfy [p], and what follows. *)
Fixpoint span (p : ascii -> bool) (s : string) : string * string :=
  match s with
  | EmptyString => (EmptyString, EmptyString)
  | String c s' =>
      if p c then let '(l, r) := span p s' in (String c l, r)
      else (EmptyString, s)
  end.

(** What is left and right of the last occurrence of [c]. *)
Fixpoint split_last (c : ascii) (s : string) : option (string * string) :=
  match s with
  | EmptyString => None
  | String a s' =>
      match split_last c s' with
      | Some (l, r) => Some (String a l, r)
      | None => if Ascii.eqb a c then Some (EmptyString, s') else None
      end
  end.

(** [s.indexOf(needle)], [-1] when there is no occurrence. *)
Definition indexOf (s needle : string) : Z :=
  match String.index 0 needle s with
  | Some i => Z.of_nat i
  | None => -1
  end.

(** [s.lastIndexOf(c)] for a single character [c]. *)
Definition lastIndexOf (s : string) (c : ascii) : Z :=
  match split_last c s with
  | Some (l, _) => Z.of_nat (String.length l)
  | None => -1
  end.

(** [s.slice(from, to)] and [s.slice(from)] for indices that are not
    negative. *)
Definition slice (s : string) (from to : Z) : string :=
  String.substring (Z.to_nat from) (Z.to_nat to - Z.to_nat from) s.

Definition slice_from (s : string) (from : Z) : string :=
  String.substring (Z.to_nat from) (String.length s - Z.to_nat from) s.

(** [s.charCodeAt(0)]: [None] stands for [NaN], the answer on the empty
    string. *)
Definition charCodeAt0 (s : string) : option Z :=
  match s with
  | EmptyString => None
  | String c _ => Some (code c)
  end.

(** [x <= n] where [x] may be [NaN]: a comparison with [NaN] is false. *)
Definition nan_le (x : option Z) (n : Z) : bool :=
  match x with
  | Some v => v <=? n
  | None => false
  end.

(** Drops the leading characters that occur in [chars]. *)
Fixpoint drop_leading (chars s : string) : string :=
  match s with
  | EmptyString => EmptyString
  | String c s' => if mem_char c chars then drop_leading chars s' else s
  end.

End Text.

Import Text.

(** ** Collaborators of the codec: [url.parse] and [_.trimLeft] *)

Module Url.

(** The fields of the object [url.parse] returns that the monitor reads.
    An absent component is [Null]. *)
Record t : Type := mk {
  protocol : value;
  hostname : value;
  port : value;
  pathname : value;
  search : value;
  hash : value;
  path : value
}.

Definition is_proto_char (c : ascii) : bool :=
  is_lower c || is_upper c || is_digit c || mem_char c ".+-".

(** [/^([a-z0-9.+-]+:)/i]: the scheme with its colon, and the rest. *)
Definition protocolPattern (s : string) : option (string * string) :=
  match span is_proto_char s with
  | (String c p, String ":" r) => Some (String c p +:+ ":", r)
  | _ => None
  end.

Definition hostlessProtocol (proto : string) : bool :=
  String.eqb proto "javascript:".

Definition slashedProtocol (proto : string) : bool :=
  existsb (String.eqb proto) ["http:"; "https:"; "ftp:"; "gopher:"; "file:"].

(** The characters that end the host: the delimiters, the characters
    that are always escaped, and [%/?;#]. *)
Definition nonHostChars : string :=
  String "<" (String ">" (String "034" (String "`" (String " "
  (String "013" (String "010" (String "009" "{}|\^'%/?;#"))))))).

Definition hostEndingChars : string := "/?#".

(** [/^\/\/[^@\/]+@[^@\/]+/]: two slashes, user information, an at sign
    and the start of a host. *)
Definition userinfoPattern (s : string) : bool :=
  match s with
  | String "/" (String "/" r) =>
      match span (fun c => negb (mem_char c "@/")) r with
      | (String _ _, String "@" (String c _)) => negb (mem_char c "@/")
      | _ => false
      end
  | _ => false
  end.

(** [Url.prototype.parseHost]: a trailing [:digits] is the port. *)
Definition parseHost (host : string) : value * value :=
  let '(h, p) :=
    match split_last ":" host with
    | Some (l, r) => if all_chars is_digit r then (l, r) else (host, "")
    | None => (host, "")
    end in
  (if String.eqb h "" then Null else Str h,
   if String.eqb p "" then Null else Str p).

(** The host part of the parser: user information is cut off at the last
    at sign before the first of [/?#], the host ends at the first
    character that cannot be in one, a trailing port is split off and
    the host name is put in lower case.  Gives host name, port and what
    follows the host. *)
Definition split_authority (rest : string) : value * value * string :=
  let '(before, after) := span (fun c => negb (mem_char c hostEndingChars)) rest in
  let rest :=
    match split_last "@" before with
    | Some (_, r) => r +:+ after
    | None => rest
    end in
  let '(host, rest) := span (fun c => negb (mem_char c nonHostChars)) rest in
  let '(h, p) := parseHost host in
  let h := toLowerCase (to_string (or_else h (Str ""))) in
  (Str (if 255 <? Z.of_nat (String.length h) then "" else h), p, rest).

(** The tail of the parser: the fragment is chopped off first, then the
    query.  Gives path name, query and fragment. *)
Definition split_path (rest : string) : value * value * value :=
  let '(rest, hash) :=
    match span (fun c => negb (Ascii.eqb c "#")) rest with
    | (l, String c r) => (l, Str (String c r))
    | (l, EmptyString) => (l, Null)
    end in
  let '(rest, search) :=
    match span (fun c => negb (Ascii.eqb c "?")) rest with
    | (l, String c r) => (l, Str (String c r))
    | (l, EmptyString) => (l, Null)
    end in
  (if String.eqb rest "" then Null else Str rest, search, hash).

(** Model of [url.parse] of the platform (the parser is no part of this
    repository).  It follows the parser's steps: scheme, the two
    slashes, user information, host and port, fragment, query and path.
    The parser's clean-up steps are left out: trimming of white space,
    back slashes turned into slashes, hosts in square brackets, the
    validation of host labels (where the parser cuts the host short or
    rejects the address), punycode, and the escaping of delimiters in
    the path.  They change nothing on a string whose host is made of
    lower-case letters, digits, dots and hyphens and whose path has no
    white space, quote, angle bracket, brace, bar, caret, back slash or
    back quote; the model stands for the parser on such strings and on
    no other. *)
Definition parse (url : string) : t :=
  let '(proto, rest) :=
    match protocolPattern url with
    | Some (p, r) => (Some (toLowerCase p), r)
    | None => (None, url)
    end in
  let hostless := from_option hostlessProtocol false proto in
  let slashed := from_option slashedProtocol false proto in
  let slashes :=
    (bool_decide (is_Some proto) || userinfoPattern rest) && starts_with "//" rest in
  let rest := if slashes && negb hostless then slice_from rest 2 else rest in
  let '(host, port, rest) :=
    if negb hostless && (slashes || (bool_decide (is_Some proto) && negb slashed))
    then split_authority rest
    else (Null, Null, rest) in
  let '(pathname, search, hash) := split_path rest in
  let pathname :=
    if slashed && truthy host && negb (truthy pathname) then Str "/" else pathname in
  let path :=
    if truthy pathname || truthy search
    then concat (or_else pathname (Str "")) (or_else search (Str ""))
    else Null in
  {| protocol := from_option Str Null proto; hostname := host; port := port;
     pathname := pathname; search := search; hash := hash; path := path |}.

End Url.

(** [_.trimLeft(string, chars)]: [null] and [undefined] read as the empty
    string, then the leading characters in [chars] are dropped. *)
Definition trimLeft (v : value) (chars : string) : string :=
  let s := match v with Undefined | Null => "" | _ => to_string v end in
  drop_leading chars s.

(** ** The connection-string codec *)

(** A connection object: an absent field is [Undefined]. *)
Record Endpoint : Type := mkEndpoint {
  protocol : value;
  hostname : value;
  port : value;
  path : value;
  namespace : value;
  authorization : value
}.

(** [Monitor.toConnectionString] *)
Definition toConnectionString (connection : Endpoint) : string :=
  let uri :=
    to_string (or_else (protocol connection) (Str "http:")) +:+ "//" +:+
    to_string (or_else (hostname connection) (Str "127.0.0.1")) +:+ ":" +:+
    to_string (port connection) +:+
    to_string (or_else (path connection) (Str "")) +:+
    to_string (or_else (namespace connection) (Str "")) in
  if truthy (authorization connection) then
    uri +:+ (if 0 <? indexOf uri "?" then "&" else "?") +:+ "auth=" +:+
    to_string (authorization connection)
  else uri.

(** [/^http(s)?:\/\//i.test(s)] *)
Definition http_prefixed (s : string) : bool :=
  starts_with "http://" (toLowerCase s) || starts_with "https://" (toLowerCase s).

(** [Monitor.parseConnectionString] *)
Definition parseConnectionString (connectionString : string) : Endpoint :=
  let connection :=
    {| port := Num 8088; hostname := Str "127.0.0.1"; authorization := Str "";
       protocol := Undefined; path := Undefined; namespace := Undefined |} in
  let lastAt := lastIndexOf connectionString "@" in
  let '(connection, connectionString) :=
    if 0 <=? lastAt then
      ({| authorization := Str (slice connectionString 0 lastAt);
          port := port connection; hostname := hostname connection;
          protocol := protocol connection; path := path connection;
          namespace := namespace connection |},
       slice_from connectionString (lastAt + 1))
    else (connection, connectionString) in
  let connectionString :=
    if negb (http_prefixed connectionString) then "http://" +:+ connectionString
    else connectionString in
  if truthy (Str connectionString) then
    let parsed := Url.parse connectionString in
    {| hostname := Url.hostname parsed;
       port := Url.port parsed;
       path := Str (trimLeft (Url.path parsed) "/");
       protocol := Url.protocol parsed;
       authorization := authorization connection;
       namespace := namespace connection |}
  else connection.


(** *** What the codec is measured against *)

(** The text of a field: an absent field reads as the empty text, a
    number as its decimal numeral. *)
Definition field_text (v : value) : string :=
  match v with
  | Undefined | Null => ""
  | _ => to_string v
  end.

(** Two fields mean the same when their texts agree: the port [8088] and
    the port ['8088'] do, an absent path and an empty path do. *)
Definition same_field (a b : value) : Prop := field_text a = field_text b.

(** Decoding what [e] encodes to gives back the five fields of [e]. *)
Definition round_trips (e : Endpoint) : Prop :=
  let d := parseConnectionString (toConnectionString e) in
  same_field (hostname d) (hostname e) ∧
  same_field (port d) (port e) ∧
  same_field (path d) (path e) ∧
  same_field (namespace d) (namespace e) ∧
  same_field (authorization d) (authorization e).

(** The characters of a host name in lower case. *)
Definition is_host_char (c : ascii) : bool :=
  is_lower c || is_digit c || mem_char c ".-".

(** The visible characters that neither the parser escapes nor the
    codec takes for a separator: no white space, no [#], no [@], no
    quote, angle bracket, brace, bar, caret, back slash or back quote. *)
Definition is_plain_char (c : ascii) : bool :=
  (33 <=? code c) && (code c <=? 126) &&
  negb (mem_char c (String "034" "#@<>`{}|\^'")).

(** The parts of the address [toConnectionString] writes. *)
Definition scheme_of (e : Endpoint) : string :=
  to_string (or_else (protocol e) (Str "http:")).
Definition host_of (e : Endpoint) : string :=
  to_string (or_else (hostname e) (Str "127.0.0.1")).
Definition port_of (e : Endpoint) : string := to_string (port e).
Definition tail_of (e : Endpoint) : string :=
  to_string (or_else (path e) (Str "")) +:+ to_string (or_else (namespace e) (Str "")).

(** The endpoints the codec is made for: scheme [http:] or [https:], a
    host name in lower case, a port in digits, a path and a namespace
    that start with a slash (or a query, or nothing) and an
    authorization, all in plain characters. *)
Record plain_endpoint (e : Endpoint) : Prop := {
  plain_scheme : scheme_of e = "http:" ∨ scheme_of e = "https:";
  plain_host : all_chars is_host_char (host_of e) = true;
  plain_host_length : (String.length (host_of e) ≤ 255)%nat;
  plain_port : all_chars is_digit (port_of e) = true;
  plain_port_given : port_of e ≠ "";
  plain_tail : all_chars is_plain_char (tail_of e) = true;
  plain_tail_start :
    tail_of e = "" ∨ starts_with "/" (tail_of e) = true ∨ starts_with "?" (tail_of e) = true;
  plain_authorization : all_chars is_plain_char (to_string (authorization e)) = true
}.

(** The query [toConnectionString] appends for the authorization. *)
Definition auth_query (e : Endpoint) : string :=
  if truthy (authorization e) then
    (if 0 <? indexOf (scheme_of e +:+ "//" +:+ host_of e +:+ ":" +:+ port_of e +:+ tail_of e) "?"
     then "&" else "?") +:+ "auth=" +:+ to_string (authorization e)
  else "".

(** An endpoint with an authorization, and nothing else that is not
    plain. *)
Definition endpoint_with_token : Endpoint :=
  {| protocol := Undefined; hostname := Str "example.com"; port := Num 8088;
     path := Undefined; namespace := Undefined; authorization := Str "secret" |}.

(** A plain endpoint with every field given. *)
Definition endpoint_sample : Endpoint :=
  {| protocol := Str "https:"; hostname := Str "pm2.example.com"; port := Num 9000;
     path := Str "/gui"; namespace := Str "/sys"; authorization := Str "secret" |}.

(** ** The environment filter of the process list *)

(** [array.indexOf(x)] on an array of strings. *)
Fixpoint array_indexOf (l : list string) (x : string) : Z :=
  match l with
  | [] => -1
  | y :: l' =>
      if String.eqb y x then 0
      else let i := array_indexOf l' x in if i <? 0 then -1 else i + 1
  end.

(** The test of the loop in [_refreshProcs]: is the field ignored?

    [key.slice(0, 1) == '_' || key.indexOf('axm_') == 0 ||
     !!~['versioning', 'command'].indexOf(key) || key.charCodeAt(0) <= 90] *)
Definition ignored (key : string) : bool :=
  String.eqb (slice key 0 1) "_" ||
  (indexOf key "axm_" =? 0) ||
  negb (Z.lnot (array_indexOf ["versioning"; "command"] key) =? 0) ||
  nan_le (charCodeAt0 key) 90.

(** An object with string keys, as a finite map; a field that is absent
    reads as [Undefined]. *)
Definition field (o : gmap string value) (key : string) : value :=
  default Undefined (o !! key).

(** The body of the [map] callback in [_refreshProcs], on the environment
    of one process:

    [var pm2_env = { user: proc.pm2_env.USER };
     for (var key in proc.pm2_env) {
       if (ignored) continue;
       pm2_env[key] = proc.pm2_env[key];
     }] *)
Definition filter_env (env : gmap string value) : gmap string value :=
  map_fold
    (fun key _ (pm2_env : gmap string value) =>
       if ignored key then pm2_env else <[key := field env key]> pm2_env)
    {[ "user" := field env "USER" ]}
    env.

(** A process as [pm.list] reports it: its environment may be missing;
    the other fields pass through untouched. *)
Record Proc : Type := mkProc {
  proc_info : value;
  pm2_env : option (gmap string value)
}.

(** The [map] callback of [_refreshProcs]. *)
Definition wrap_proc (proc : Proc) : Proc :=
  let env := default {[ "USER" := Str "UNKNOWN" ]} (pm2_env proc) in
  {| proc_info := proc_info proc; pm2_env := Some (filter_env env) |}.

(** The environment of the example. *)
Definition env_example : gmap string value :=
  list_to_map [("_internal", Num 1); ("axm_monitor", Num 1); ("versioning", Str "x");
               ("command", Str "y"); ("PORT", Str "80"); ("user_key", Str "v");
               ("USER", Str "alice")].

(** An environment with a field [user] of its own. *)
Definition env_with_user : gmap string value :=
  list_to_map [("USER", Str "alice"); ("user", Str "bob")].

(** *** What the filter is measured against *)

(** The first character of the key has a code above 90. *)
Definition first_code_above_90 (key : string) : Prop :=
  ∃ c rest, key = String c rest ∧ 90 < code c.

(** The keys that pass the filter: they may be empty. *)
Definition retained (key : string) : Prop :=
  starts_with "_" key = false ∧
  starts_with "axm_" key = false ∧
  key ≠ "versioning" ∧
  key ≠ "command" ∧
  (key = "" ∨ first_code_above_90 key).

(** The keys the claim lets pass: they have a first character. *)
Definition claim_keeps (key : string) : Prop :=
  starts_with "_" key = false ∧
  starts_with "axm_" key = false ∧
  key ≠ "versioning" ∧
  key ≠ "command" ∧
  first_code_above_90 key.

(** The result the claim describes: [user] copied from [USER], and
    besides it exactly the original fields whose key the claim lets
    pass. *)
Definition filter_as_claimed (env result : gmap string value) : Prop :=
  result !! "user" = Some (field env "USER") ∧
  ∀ key, key ≠ "user" →
    ∀ v, result !! key = Some v ↔ env !! key = Some v ∧ claim_keeps key.

(** ** The monitor and its surroundings *)

(** The namespaces of [conf.NSP]. *)
Inductive Nsp : Type := SYS | LOG | PROC.

#[global] Instance Nsp_eq_dec : EqDecision Nsp.
Proof. solve_decision. Defined.

(** A connected socket: the transport's identifier and the properties
    the monitor's handlers put on the socket object ([_pm_id], [_pid]). *)
Record Socket : Type := mkSocket {
  sock_id : nat;
  props : gmap string value
}.

(** [sock.name]: a property that was never set reads as [Undefined]. *)
Definition prop (sock : Socket) (name : string) : value := field (props sock) name.

(** What is thrown. *)
Inductive exn : Type :=
| TypeError (msg : string)
| ReferenceError (name : string)
| Error (msg : string).

(** The statistics of the system: the fields picked from the probe, and
    the usage of the processor. *)
Record SysStat : Type := mkSysStat {
  sys_fields : value;
  cpu : Z
}.

(** A sample of [pidusage]: processor share and resident memory. *)
Record Usage : Type := mkUsage {
  usage_cpu : Z;
  usage_memory : Q
}.

(** The data of an emitted event. *)
Inductive payload : Type :=
| Text (s : string)
| ProcList (procs : list Proc)
| SystemStat (s : SysStat)
| LogData (pm_id : value) (msg : string)
| ProcError (pid : value) (msg : string)
| ProcUsage (pid : value) (time : Z) (usage : Usage)
| ActionError (id : value) (msg : string).

(** Calls of a collaborator that answer later through a callback. *)
Inductive request : Type :=
| ReqStat (tick : value)                       (* stat.cpuUsage *)
| ReqUsage (pid : value)                       (* pidusage.stat *)
| ReqList                                      (* pm.list *)
| ReqVersion (sid : nat)                       (* pm.version *)
| ReqAction (sid : nat) (action id : value)    (* pm.action *)
| ReqTail (pm_id : value) (keepANSI : bool).   (* pm.tail *)

#[global] Instance request_eq_dec : EqDecision request.
Proof. solve_decision. Defined.

(** What the monitor does to the outside. *)
Inductive obs : Type :=
| Emit (nsp : Nsp) (event : string) (data : payload) (receivers : list nat)
| Unicast (sid : nat) (event : string) (data : payload)
| Call (r : request)
| Kill (tail : nat)
| Uncaught (e : exn).

(** The monitor object ([this]/[self]), the transport's sockets, the
    timers of the event loop, the calls that await their callback, and
    the record of what was done, each entry with its time. *)
Record World : Type := mkWorld {
  opt_refresh : value;                       (* this.options.refresh *)
  _noClient : bool;
  _status : value;
  _sysStat : option SysStat;
  _procs : option (list Proc);
  _tails : gmap string nat;
  _usages : gmap string nat;
  _throttle : option nat;
  sys_sockets : list Socket;
  log_sockets : list Socket;
  proc_sockets : list Socket;
  clock : Z;
  next_handle : nat;
  timeouts_throttle : gmap nat Z;            (* due *)
  timeouts_tick : gmap nat (Z * value);      (* due, tick *)
  intervals_usage : gmap nat (Z * value);    (* next due, pid *)
  pending : list request;
  streams : list (value * bool);
  done_log : list (Z * obs)
}.

Definition set_noClient (v : bool) (w : World) : World :=
  mkWorld (opt_refresh w) v (_status w) (_sysStat w) (_procs w) (_tails w)
    (_usages w) (_throttle w) (sys_sockets w) (log_sockets w) (proc_sockets w)
    (clock w) (next_handle w) (timeouts_throttle w) (timeouts_tick w)
    (intervals_usage w) (pending w) (streams w) (done_log w).
Definition set_status (v : value) (w : World) : World :=
  mkWorld (opt_refresh w) (_noClient w) v (_sysStat w) (_procs w) (_tails w)
    (_usages w) (_throttle w) (sys_sockets w) (log_sockets w) (proc_sockets w)
    (clock w) (next_handle w) (timeouts_throttle w) (timeouts_tick w)
    (intervals_usage w) (pending w) (streams w) (done_log w).
Definition set_sysStat (v : option SysStat) (w : World) : World :=
  mkWorld (opt_refresh w) (_noClient w) (_status w) v (_procs w) (_tails w)
    (_usages w) (_throttle w) (sys_sockets w) (log_sockets w) (proc_sockets w)
    (clock w) (next_handle w) (timeouts_throttle w) (timeouts_tick w)
    (intervals_usage w) (pending w) (streams w) (done_log w).
Definition set_procs (v : option (list Proc)) (w : World) : World :=
  mkWorld (opt_refresh w) (_noClient w) (_status w) (_sysStat w) v (_tails w)
    (_usages w) (_throttle w) (sys_sockets w) (log_sockets w) (proc_sockets w)
    (clock w) (next_handle w) (timeouts_throttle w) (timeouts_tick w)
    (intervals_usage w) (pending w) (streams w) (done_log w).
Definition set_tails (v : gmap string nat) (w : World) : World :=
  mkWorld (opt_refresh w) (_noClient w) (_status w) (_sysStat w) (_procs w) v
    (_usages w) (_throttle w) (sys_sockets w) (log_sockets w) (proc_sockets w)
    (clock w) (next_handle w) (timeouts_throttle w) (timeouts_tick w)
    (intervals_usage w) (pending w) (streams w) (done_log w).
Definition set_usages (v : gmap string nat) (w : World) : World :=
  mkWorld (opt_refresh w) (_noClient w) (_status w) (_sysStat w) (_procs w)
    (_tails w) v (_throttle w) (sys_sockets w) (log_sockets w)
    (proc_sockets w) (clock w) (next_handle w) (timeouts_throttle w)
    (timeouts_tick w) (intervals_usage w) (pending w) (streams w) (done_log w).
Definition set_throttle (v : option nat) (w : World) : World :=
  mkWorld (opt_refresh w) (_noClient w) (_status w) (_sysStat w) (_procs w)
    (_tails w) (_usages w) v (sys_sockets w) (log_sockets w) (proc_sockets w)
    (clock w) (next_handle w) (timeouts_throttle w) (timeouts_tick w)
    (intervals_usage w) (pending w) (streams w) (done_log w).
Definition set_sys_sockets (v : list Socket) (w : World) : World :=
  mkWorld (opt_refresh w) (_noClient w) (_status w) (_sysStat w) (_procs w)
    (_tails w) (_usages w) (_throttle w) v (log_sockets w) (proc_sockets w)
    (clock w) (next_handle w) (timeouts_throttle w) (timeouts_tick w)
    (intervals_usage w) (pending w) (streams w) (done_log w).
Definition set_log_sockets (v : list Socket) (w : World) : World :=
  mkWorld (opt_refresh w) (_noClient w) (_status w) (_sysStat w) (_procs w)
    (_tails w) (_usages w) (_throttle w) (sys_sockets w) v (proc_sockets w)
    (clock w) (next_handle w) (timeouts_throttle w) (timeouts_tick w)
    (intervals_usage w) (pending w) (streams w) (done_log w).
Definition set_proc_sockets (v : list Socket) (w : World) : World :=
  mkWorld (opt_refresh w) (_noClient w) (_status w) (_sysStat w) (_procs w)
    (_tails w) (_usages w) (_throttle w) (sys_sockets w) (log_sockets w) v
    (clock w) (next_handle w) (timeouts_throttle w) (timeouts_tick w)
    (intervals_usage w) (pending w) (streams w) (done_log w).
Definition set_clock (v : Z) (w : World) : World :=
  mkWorld (opt_refresh w) (_noClient w) (_status w) (_sysStat w) (_procs w)
    (_tails w) (_usages w) (_throttle w) (sys_sockets w) (log_sockets w)
    (proc_sockets w) v (next_handle w) (timeouts_throttle w) (timeouts_tick w)
    (intervals_usage w) (pending w) (streams w) (done_log w).
Definition set_next_handle (v : nat) (w : World) : World :=
  mkWorld (opt_refresh w) (_noClient w) (_status w) (_sysStat w) (_procs w)
    (_tails w) (_usages w) (_throttle w) (sys_sockets w) (log_sockets w)
    (proc_sockets w) (clock w) v (timeouts_throttle w) (timeouts_tick w)
    (intervals_usage w) (pending w) (streams w) (done_log w).
Definition set_timeouts_throttle (v : gmap nat Z) (w : World) : World :=
  mkWorld (opt_refresh w) (_noClient w) (_status w) (_sysStat w) (_procs w)
    (_tails w) (_usages w) (_throttle w) (sys_sockets w) (log_sockets w)
    (proc_sockets w) (clock w) (next_handle w) v (timeouts_tick w)
    (intervals_usage w) (pending w) (streams w) (done_log w).
Definition set_timeouts_tick (v : gmap nat (Z * value)) (w : World) : World :=
  mkWorld (opt_refresh w) (_noClient w) (_status w) (_sysStat w) (_procs w)
    (_tails w) (_usages w) (_throttle w) (sys_sockets w) (log_sockets w)
    (proc_sockets w) (clock w) (next_handle w) (timeouts_throttle w) v
    (intervals_usage w) (pending w) (streams w) (done_log w).
Definition set_intervals_usage (v : gmap nat (Z * value)) (w : World) : World :=
  mkWorld (opt_refresh w) (_noClient w) (_status w) (_sysStat w) (_procs w)
    (_tails w) (_usages w) (_throttle w) (sys_sockets w) (log_sockets w)
    (proc_sockets w) (clock w) (next_handle w) (timeouts_throttle w)
    (timeouts_tick w) v (pending w) (streams w) (done_log w).
Definition set_pending (v : list request) (w : World) : World :=
  mkWorld (opt_refresh w) (_noClient w) (_status w) (_sysStat w) (_procs w)
    (_tails w) (_usages w) (_throttle w) (sys_sockets w) (log_sockets w)
    (proc_sockets w) (clock w) (next_handle w) (timeouts_throttle w)
    (timeouts_tick w) (intervals_usage w) v (streams w) (done_log w).
Definition set_streams (v : list (value * bool)) (w : World) : World :=
  mkWorld (opt_refresh w) (_noClient w) (_status w) (_sysStat w) (_procs w)
    (_tails w) (_usages w) (_throttle w) (sys_sockets w) (log_sockets w)
    (proc_sockets w) (clock w) (next_handle w) (timeouts_throttle w)
    (timeouts_tick w) (intervals_usage w) (pending w) v (done_log w).
Definition set_done_log (v : list (Z * obs)) (w : World) : World :=
  mkWorld (opt_refresh w) (_noClient w) (_status w) (_sysStat w) (_procs w)
    (_tails w) (_usages w) (_throttle w) (sys_sockets w) (log_sockets w)
    (proc_sockets w) (clock w) (next_handle w) (timeouts_throttle w)
    (timeouts_tick w) (intervals_usage w) (pending w) (streams w) v.

(** [this._sockio.of(nsp).sockets] *)
Definition sockets (nsp : Nsp) (w : World) : list Socket :=
  match nsp with
  | SYS => sys_sockets w
  | LOG => log_sockets w
  | PROC => proc_sockets w
  end.

Definition set_sockets (nsp : Nsp) (l : list Socket) (w : World) : World :=
  match nsp with
  | SYS => set_sys_sockets l w
  | LOG => set_log_sockets l w
  | PROC => set_proc_sockets l w
  end.

(** ** Handlers as computations over the world

    A handler runs to completion: it returns normally or throws, and
    what it changed before it threw stays changed. *)

Inductive Res (A : Type) : Type :=
| Ok (a : A) (w : World)
| Throw (e : exn) (w : World).
Arguments Ok {A} a w.
Arguments Throw {A} e w.

Definition M (A : Type) : Type := World -> Res A.

Definition ret {A} (a : A) : M A := fun w => Ok a w.

Definition bind {A B} (m : M A) (f : A -> M B) : M B := fun w =>
  match m w with
  | Ok a w' => f a w'
  | Throw e w' => Throw e w'
  end.

Declare Scope M_scope.
Delimit Scope M_scope with M.
Bind Scope M_scope with M.
Notation "x ← y ; z" := (bind y (fun x => z))
  (at level 20, y at level 100, z at level 200, only parsing) : M_scope.
Notation "x ;; z" := (bind x (fun _ => z))
  (at level 100, z at level 200, only parsing, right associativity) : M_scope.
Local Open Scope M_scope.

Definition world_of {A} (r : Res A) : World :=
  match r with
  | Ok _ w => w
  | Throw _ w => w
  end.

Definition get {A} (f : World -> A) : M A := fun w => Ok (f w) w.
Definition modify (f : World -> World) : M unit := fun w => Ok tt (f w).
Definition throw {A} (e : exn) : M A := fun w => Throw e w.

(** Reading a variable that no enclosing scope declares. *)
Definition unbound {A} (name : string) : M A := throw (ReferenceError name).

(** Appends to the record of what was done. *)
Definition note (o : obs) : M unit :=
  modify (fun w => set_done_log (done_log w ++ [(clock w, o)]) w).

(** Calls a collaborator: the call is noted and awaits its callback. *)
Definition call (r : request) : M unit :=
  note (Call r);; modify (fun w => set_pending (pending w ++ [r]) w).

(** [v.toString()]: throws on [undefined] and [null]. *)
Definition toString (v : value) : M string :=
  match v with
  | Undefined => throw (TypeError "Cannot read property 'toString' of undefined")
  | Null => throw (TypeError "Cannot read property 'toString' of null")
  | _ => ret (to_string v)
  end.

(** A number as far as the embedding holds it: a whole number, [NaN],
    or a number it does not hold, the value of a literal that denotes a
    fraction, a magnitude above 2^53 or an infinity. *)
Inductive number : Type :=
| Whole (n : Z)
| NaN
| Unheld.

(** The white space [Number] strips from a string, among the code units
    below 256. *)
Definition StrWhiteSpaceChar (c : ascii) : bool :=
  existsb (Z.eqb (code c)) [9; 10; 11; 12; 13; 32; 160].

Fixpoint trim_start (s : string) : string :=
  match s with
  | EmptyString => EmptyString
  | String c s' => if StrWhiteSpaceChar c then trim_start s' else s
  end.

Fixpoint trim_end (s : string) : string :=
  match s with
  | EmptyString => EmptyString
  | String c s' =>
      let r := trim_end s' in
      if StrWhiteSpaceChar c && String.eqb r "" then "" else String c r
  end.

(** The value of a digit in a radix up to 16. *)
Definition digit_value (c : ascii) : option Z :=
  if is_digit c then Some (code c - 48)
  else if (97 <=? code c) && (code c <=? 102) then Some (code c - 87)
  else if (65 <=? code c) && (code c <=? 70) then Some (code c - 55)
  else None.

(** The value of a run of digits of the radix; [None] when a character
    is no digit of it. *)
Fixpoint digits_value (radix : Z) (s : string) (acc : Z) : option Z :=
  match s with
  | EmptyString => Some acc
  | String c s' =>
      match digit_value c with
      | Some d => if d <? radix then digits_value radix s' (acc * radix + d) else None
      | None => None
      end
  end.

(** A magnitude the embedding holds. *)
Definition held (negative : bool) (n : Z) : number :=
  if n <=? 2 ^ 53 then Whole (if negative then - n else n) else Unheld.

(** The number [m * 10^e], where [m] is written with [len] digits. *)
Definition scaled (negative : bool) (m e : Z) (len : nat) : number :=
  if m =? 0 then Whole 0
  else if 0 <=? e then
    (if 16 <? e then Unheld else held negative (m * 10 ^ e))
  else if Z.of_nat len <? - e then Unheld
  else if m mod 10 ^ (- e) =? 0 then held negative (m / 10 ^ (- e))
  else Unheld.

(** [0x], [0o] and [0b] literals, as ECMAScript 2015 reads them: no
    sign, at least one digit. *)
Definition radix_literal (s : string) : option number :=
  match s with
  | String "0" (String c digits) =>
      let radix :=
        if mem_char c "xX" then Some 16
        else if mem_char c "oO" then Some 8
        else if mem_char c "bB" then Some 2
        else None in
      match radix with
      | Some r =>
          Some (if String.eqb digits "" then NaN
                else match digits_value r digits 0 with
                     | Some n => held false n
                     | None => NaN
                     end)
      | None => None
      end
  | _ => None
  end.

(** The exponent part: [e] or [E], a sign or none, digits; [None] when
    it is malformed, [0] when there is none. *)
Definition exponent_part (s : string) : option Z :=
  match s with
  | EmptyString => Some 0
  | String c r =>
      if mem_char c "eE" then
        let '(negative, digits) :=
          match r with
          | String "-" d => (true, d)
          | String "+" d => (false, d)
          | _ => (false, r)
          end in
        if String.eqb digits "" then None
        else (fun n : Z => if negative then - n else n) <$> digits_value 10 digits 0
      else None
  end.

(** A decimal literal: a sign or none, then [Infinity] or digits with a
    point and an exponent or without. *)
Definition decimal_literal (s : string) : number :=
  let '(negative, body) :=
    match s with
    | String "-" r => (true, r)
    | String "+" r => (false, r)
    | _ => (false, s)
    end in
  if String.eqb body "Infinity" then Unheld
  else
    let '(whole, r1) := span is_digit body in
    let '(fraction, r2) :=
      match r1 with
      | String "." r => span is_digit r
      | _ => (EmptyString, r1)
      end in
    if String.eqb whole "" && String.eqb fraction "" then NaN
    else
      match exponent_part r2, digits_value 10 (whole +:+ fraction) 0 with
      | Some e, Some m =>
          scaled negative m (e - Z.of_nat (String.length fraction))
            (String.length (whole +:+ fraction))
      | _, _ => NaN
      end.

(** [Number(s)] for a string: white space is stripped, the empty string
    is [0], and the rest is read as a numeric literal. *)
Definition StringToNumber (s : string) : number :=
  let s := trim_end (trim_start s) in
  if String.eqb s "" then Whole 0
  else match radix_literal s with
       | Some n => n
       | None => decimal_literal s
       end.

(** [Number(v)] for the values of the embedding. *)
Definition to_number (v : value) : number :=
  match v with
  | Undefined => NaN
  | Null => Whole 0
  | Num n => Whole n
  | Str s => StringToNumber s
  end.

Definition isNaN (v : value) : bool :=
  match to_number v with
  | NaN => true
  | _ => false
  end.

(** *** Objects used as registries

    [this._tails], [this._usages] and the [canNotBeDeleted] of a sweep are
    plain objects: a key that is not their own is looked up in
    [Object.prototype]. *)
Definition object_prototype_keys : list string :=
  ["constructor"; "toString"; "toLocaleString"; "valueOf"; "hasOwnProperty";
   "isPrototypeOf"; "propertyIsEnumerable"; "__defineGetter__";
   "__defineSetter__"; "__lookupGetter__"; "__lookupSetter__"; "__proto__"].

Inductive slot (A : Type) : Type :=
| Own (a : A)
| Inherited
| Absent.
Arguments Own {A} a.
Arguments Inherited {A}.
Arguments Absent {A}.

(** [object[key]] *)
Definition read {A} (object : gmap string A) (key : string) : slot A :=
  match object !! key with
  | Some a => Own a
  | None => if bool_decide (key ∈ object_prototype_keys) then Inherited else Absent
  end.

(** [!!set[key]] where the own values of [set] are all [1]. *)
Definition marked (set : gset string) (key : string) : bool :=
  bool_decide (key ∈ set) || bool_decide (key ∈ object_prototype_keys).

(** *** Timers

    The handle of a timer is the number the event loop gave it; the
    three uses of timers have a table each. *)
Definition TIMEOUT_MAX : Z := 2147483647.

(** The delay a timer is armed with, in milliseconds: [1] for a delay
    that is no number or out of range; [None] for a number the
    embedding does not hold. *)
Definition delay_ms (v : value) : option Z :=
  match to_number v with
  | Whole n => Some (if (1 <=? n) && (n <=? TIMEOUT_MAX) then n else 1)
  | NaN => Some 1
  | Unheld => None
  end.

(** The time before which a timer armed at [now] does not fire: the
    delay is 1ms at least, so that is the bound where the embedding
    does not hold the delay. *)
Definition due_time (now : Z) (v : value) : Z := now + default 1 (delay_ms v).

Definition fresh_handle : M nat :=
  fun w => Ok (next_handle w) (set_next_handle (S (next_handle w)) w).

Definition setTimeout_throttle (delay : Z) : M nat :=
  h ← fresh_handle;
  modify (fun w =>
    set_timeouts_throttle (<[h := due_time (clock w) (Num delay)]> (timeouts_throttle w)) w);;
  ret h.

Definition clearTimeout_throttle (h : nat) : M unit :=
  modify (fun w => set_timeouts_throttle (delete h (timeouts_throttle w)) w).

Definition setTimeout_tick (tick : value) : M nat :=
  h ← fresh_handle;
  modify (fun w =>
    set_timeouts_tick (<[h := (due_time (clock w) tick, tick)]> (timeouts_tick w)) w);;
  ret h.

Definition setInterval_usage (pid : value) (delay : Z) : M nat :=
  h ← fresh_handle;
  modify (fun w =>
    set_intervals_usage (<[h := (due_time (clock w) (Num delay), pid)]> (intervals_usage w)) w);;
  ret h.

Definition clearInterval_usage (h : nat) : M unit :=
  modify (fun w => set_intervals_usage (delete h (intervals_usage w)) w).

(** *** Broadcast *)

(** [Monitor.prototype._broadcast] *)
Definition _broadcast (event : string) (data : payload) (nsp : option Nsp) : M unit :=
  let nsp := default SYS nsp in
  noClient ← get _noClient;
  if noClient then
    ret tt
  else
    socks ← get (sockets nsp);
    note (Emit nsp event data (sock_id <$> socks)).

(** *** Refresh of the process list and its throttle *)

(** [Monitor.prototype._refreshProcs], up to the call of [pm.list]. *)
Definition _refreshProcs : M unit := call ReqList.

(** The callback [_refreshProcs] hands to [pm.list]. *)
Definition list_done (r : string + list Proc) : M unit :=
  match r with
  | inl message =>
      _broadcast "info" (Text ("Can not connect to pm2 daemon, " +:+ message)) None
  | inr procs =>
      let wrapped := wrap_proc <$> procs in
      modify (set_procs (Some wrapped));;
      _broadcast "procs" (ProcList wrapped) None
  end.

(** [Monitor.prototype._throttleRefresh] *)
Definition _throttleRefresh : M unit :=
  throttle ← get _throttle;
  match throttle with
  | Some h => clearTimeout_throttle h
  | None => ret tt
  end;;
  h ← setTimeout_throttle 500;
  modify (set_throttle (Some h)).

(** The function [_throttleRefresh] arms the timer with. *)
Definition throttle_fired : M unit :=
  modify (set_throttle None);;
  _refreshProcs.

(** *** Heartbeat *)

(** [Monitor.prototype._systemStat], up to the call of [stat.cpuUsage];
    [tick] is what the continuation of [_nextTick] closes over. *)
Definition _systemStat (tick : value) : M unit := call (ReqStat tick).

(** [Monitor.prototype._nextTick] *)
Definition _nextTick (tick : value) (continuously : bool) : M unit :=
  status ← get _status;
  if bool_decide (status = Str "R") && negb continuously then
    ret tt
  else
    modify (set_status (Str "R"));;
    _systemStat tick.

(** The continuation [_nextTick] hands to [_systemStat]. *)
Definition nextTick_cb (tick : value) : M unit :=
  noClient ← get _noClient;
  if negb noClient then
    setTimeout_tick tick;; ret tt
  else
    modify (set_status Undefined).

(** The callback [_systemStat] hands to [stat.cpuUsage]. *)
Definition systemStat_done (tick : value) (r : string + value * Z) : M unit :=
  match r with
  | inl _ => ret tt
  | inr (fields, cpu_usage) =>
      let s := {| sys_fields := fields; cpu := cpu_usage |} in
      modify (set_sysStat (Some s));;
      _broadcast "system_stat" (SystemStat s) None
  end;;
  nextTick_cb tick.

(** *** Loops and socket properties *)

Fixpoint for_each {A} (l : list A) (body : A -> M unit) : M unit :=
  match l with
  | [] => ret tt
  | x :: l' => body x;; for_each l' body
  end.

Fixpoint fold_each {A B} (l : list A) (acc : B) (body : B -> A -> M B) : M B :=
  match l with
  | [] => ret acc
  | x :: l' => acc' ← body acc x; fold_each l' acc' body
  end.

(** The own keys of an object, as [for (var key in object)] visits
    them (the order of the visit is the map's, not the engine's). *)
Definition keys {A} (object : gmap string A) : list string :=
  fst <$> map_to_list object.

Definition with_prop (name : string) (v : value) (sock : Socket) : Socket :=
  {| sock_id := sock_id sock; props := <[name := v]> (props sock) |}.

(** [socket.name = v] for the socket [sid] of a namespace. *)
Definition set_prop (nsp : Nsp) (sid : nat) (name : string) (v : value) : M unit :=
  modify (fun w =>
    set_sockets nsp
      ((fun sock => if decide (sock_id sock = sid) then with_prop name v sock else sock)
         <$> sockets nsp w) w).

(** *** Texts *)

Definition dquote : string := String "034" "".
Definition newline : string := String "010" "".
Definition escape : string := String "027" "".

Definition error_span (message : string) : string :=
  "<span style=" +:+ dquote +:+ "color: #ff0000" +:+ dquote +:+ ">Error: " +:+
  message +:+ "</span>".

(** [chalk.red] *)
Definition chalk_red (s : string) : string :=
  escape +:+ "[31m" +:+ s +:+ escape +:+ "[39m".

Definition is_space (c : ascii) : bool :=
  existsb (Z.eqb (code c)) [9; 10; 11; 12; 13; 32; 160].

(** [line.replace(/\s/, '&nbsp;')]: the first white space only. *)
Fixpoint replace_first_space (line : string) : string :=
  match line with
  | EmptyString => EmptyString
  | String c rest =>
      if is_space c then "&nbsp;" +:+ rest else String c (replace_first_space rest)
  end.

Fixpoint join (sep : string) (l : list string) : string :=
  match l with
  | [] => ""
  | [x] => x
  | x :: l' => x +:+ sep +:+ join sep l'
  end.

Section Handlers.

(** [ansi-html] and [os.totalmem()] *)
Variable ansiHTML : string -> string.
Variable totalmem : Z.

(** *** The system namespace *)

(** [sendProcs] of [_connectSysSock] *)
Definition sendProcs (sid : nat) : M unit :=
  procs ← get _procs;
  match procs with
  | Some l => note (Unicast sid "procs" (ProcList l))
  | None => ret tt
  end.

(** [Monitor.prototype._pm2Ver], up to the call of [pm.version]. *)
Definition _pm2Ver (sid : nat) : M unit := call (ReqVersion sid).

(** The callback [_pm2Ver] hands to [pm.version]. *)
Definition version_done (sid : nat) (err : bool) (version : value) : M unit :=
  note (Unicast sid "pm2_ver"
          (Text (if err || negb (truthy version) then "0.0.0" else to_string version))).

(** [Monitor.prototype._connectSysSock], the body run at the connection. *)
Definition _connectSysSock (sid : nat) : M unit :=
  modify (set_noClient false);;
  sendProcs sid;;
  _pm2Ver sid;;
  sysStat ← get _sysStat;
  match sysStat with
  | Some s => _broadcast "system_stat" (SystemStat s) None
  | None => ret tt
  end;;
  status ← get _status;
  if negb (bool_decide (status = Str "R")) then
    refresh ← get opt_refresh;
    _nextTick (or_else refresh (Num 5000)) false
  else ret tt.

(** The [disconnect] handler of [_connectSysSock]. *)
Definition sys_disconnect : M unit :=
  modify (fun w => set_noClient (Z.of_nat (length (sockets SYS w)) =? 0) w).

(** The [action] handler of [_connectSysSock], up to the call of
    [pm.action]. *)
Definition sys_action (sid : nat) (action id : value) : M unit :=
  call (ReqAction sid action id).

(** The callback the [action] handler hands to [pm.action]. *)
Definition action_done (sid : nat) (id : value) (r : string + bool) : M unit :=
  match r with
  | inl message => note (Unicast sid "action" (ActionError id message))
  | inr forceRefresh => if forceRefresh then _throttleRefresh else ret tt
  end.

(** *** The log namespace *)

(** [emitError] of [_connectLogSock] *)
Definition emitError_log (message : string) (pm_id : value) (keepANSI : bool) : M unit :=
  _broadcast "log"
    (LogData pm_id (if keepANSI then chalk_red message else error_span message))
    (Some LOG).

(** [startTailProcess] of [_connectLogSock], up to the call of [pm.tail]. *)
Definition startTailProcess (sid : nat) (pm_id : value) (keepANSI : bool) : M unit :=
  set_prop LOG sid "_pm_id" pm_id;;
  tails ← get _tails;
  match read tails (to_string pm_id) with
  | Absent => call (ReqTail pm_id keepANSI)
  | _ => ret tt
  end.

(** The first callback [startTailProcess] hands to [pm.tail]: lines. *)
Definition tail_lines (pm_id : value) (keepANSI : bool) (r : string + list string) : M unit :=
  match r with
  | inl message => emitError_log message pm_id keepANSI
  | inr lines =>
      let msg :=
        join (if keepANSI then newline else "")
          ((fun line =>
              if negb keepANSI then "<span>" +:+ ansiHTML (replace_first_space line) +:+ "</span>"
              else line) <$> lines) in
      _broadcast "log" (LogData pm_id msg) (Some LOG)
  end.

(** The second callback [startTailProcess] hands to [pm.tail]: the tail. *)
Definition tail_opened (pm_id : value) (keepANSI : bool) (r : string + option nat) : M unit :=
  match r with
  | inl message => emitError_log message pm_id keepANSI
  | inr None => emitError_log "No log can be found." pm_id keepANSI
  | inr (Some tail) =>
      modify (fun w => set_tails (<[to_string pm_id := tail]> (_tails w)) w)
  end.

(** [killTail] of [_killTailProcess]: what [tail.kill] throws is caught. *)
Definition killTail (id : string) : M unit :=
  tails ← get _tails;
  match read tails id with
  | Absent => ret tt
  | found =>
      match found with
      | Own tail => note (Kill tail)
      | _ => ret tt
      end;;
      modify (fun w => set_tails (delete id (_tails w)) w)
  end.

(** [Monitor.prototype._killTailProcess] *)
Definition _killTailProcess (pm_id : value) : M unit :=
  if negb (isNaN pm_id) then
    killTail (to_string pm_id)
  else
    socks ← get (sockets LOG);
    let canNotBeDeleted : gset string :=
      if 0 <? Z.of_nat (length socks)
      then list_to_set ((fun sock => to_string (prop sock "_pm_id")) <$> socks)
      else ∅ in
    tails ← get _tails;
    for_each (keys tails) (fun pm_id =>
      if negb (marked canNotBeDeleted pm_id) then killTail pm_id else ret tt).

(** *** The process namespace *)

(** [emitError] of [_connectProcSock] *)
Definition emitError_proc (message : string) (pid : value) : M unit :=
  _broadcast "proc" (ProcError pid (error_span message)) (Some PROC).

(** [killObserver] of [_connectProcSock] *)
Definition killObserver : M unit :=
  socks ← get (sockets PROC);
  canNotBeDeleted ←
    (if 0 <? Z.of_nat (length socks) then
       fold_each socks (∅ : gset string) (fun acc sock =>
         key ← toString (prop sock "pid");
         ret ({[key]} ∪ acc))
     else ret ∅);
  usages ← get _usages;
  for_each (keys usages) (fun pid =>
    usages ← get _usages;
    if negb (marked canNotBeDeleted pid) then
      match read usages pid with
      | Own timer =>
          clearInterval_usage timer;;
          modify (fun w => set_usages (delete pid (_usages w)) w)
      | Inherited => modify (fun w => set_usages (delete pid (_usages w)) w)
      | Absent => ret tt
      end
    else ret tt).

(** [runTimer] of [runObserver], up to the call of [pidusage.stat]. *)
Definition runTimer (pid : value) : M unit := call (ReqUsage pid).

(** The callback [runTimer] hands to [pidusage.stat]; [pidStr] is the
    variable of [runObserver] it closes over.  No scope around it
    declares [ctx]. *)
Definition usage_done (pid : value) (r : string + Z * Z) : M unit :=
  match r with
  | inl message =>
      let pidStr := to_string pid in
      ctx_usages ← (unbound "ctx" : M (gmap string nat));
      match read ctx_usages pidStr with
      | Own timer => clearInterval_usage timer
      | _ => ret tt
      end;;
      modify (set_usages (delete pidStr ctx_usages));;
      emitError_proc message pid
  | inr (cpu_share, memory) =>
      let usage :=
        {| usage_cpu := cpu_share;
           usage_memory := Qdiv (Qmult (inject_Z memory) (inject_Z 100)) (inject_Z totalmem) |} in
      now ← get clock;
      _broadcast "proc" (ProcUsage pid now usage) (Some PROC)
  end.

(** [runObserver] of [_connectProcSock] *)
Definition runObserver (sid : nat) (pid : value) : M unit :=
  set_prop PROC sid "_pid" pid;;
  pidStr ← toString pid;
  usages ← get _usages;
  match read usages pidStr with
  | Absent =>
      timer ← setInterval_usage pid 3000;
      modify (fun w => set_usages (<[pidStr := timer]> (_usages w)) w);;
      runTimer pid
  | _ => ret tt
  end.

(** *** [run] *)

(** [Monitor.prototype._observePM2]: the subscription to the daemon is
    what makes [Pm2Event] occur; a refresh is forced at once. *)
Definition _observePM2 : M unit := _throttleRefresh.

(** [Monitor.prototype.run] *)
Definition run : M unit :=
  modify (set_noClient true);;
  modify (set_tails ∅);;
  modify (set_usages ∅);;
  _observePM2.

End Handlers.

(** ** The event loop

    What reaches the monitor, one event at a time: connections and
    messages of clients, timers that fire, callbacks of collaborators
    and events of the daemon.  Every handler runs to its end before the
    next event is taken.

    The surroundings are those the monitor is written for:
    - the transport keeps the sockets of a namespace in an array; a
      socket is in the array when the [connection] handler runs and out
      of it when its [disconnect] handlers run, and [disconnect] comes
      with the reason as a string;
    - a timer fires at a time that is not before the time it is due;
    - a collaborator calls back only for a call that awaits it, and the
      line callback of [pm.tail] only for a tail that has opened. *)

Inductive event : Type :=
| Connect (nsp : Nsp) (sid : nat)
| Disconnect (nsp : Nsp) (sid : nat) (reason : string)
| OnAction (sid : nat) (action id : value)
| OnProcs (sid : nat)
| OnTail (sid : nat) (pm_id : value) (keepANSI : bool)
| OnTailKill (sid : nat) (pm_id : value)
| OnProc (sid : nat) (pid : value)
| Pm2Event
| ThrottleTimeout (h : nat)
| TickTimeout (h : nat)
| UsageInterval (h : nat)
| StatDone (tick : value) (r : string + value * Z)
| UsageDone (pid : value) (r : string + Z * Z)
| ListDone (r : string + list Proc)
| VersionDone (sid : nat) (err : bool) (version : value)
| ActionDone (sid : nat) (action id : value) (r : string + bool)
| TailOpened (pm_id : value) (keepANSI : bool) (r : string + option nat)
| TailLines (pm_id : value) (keepANSI : bool) (r : string + list string).

Definition connected (nsp : Nsp) (sid : nat) (w : World) : bool :=
  bool_decide (sid ∈ sock_id <$> sockets nsp w).

Fixpoint remove_first (r : request) (l : list request) : list request :=
  match l with
  | [] => []
  | r' :: l' => if decide (r = r') then l' else r' :: remove_first r l'
  end.

(** The callback of an awaited call: the call awaits no longer. *)
Definition answered (r : request) (w : World) (h : M unit) : option (World * M unit) :=
  if bool_decide (r ∈ pending w)
  then Some (set_pending (remove_first r (pending w)) w, h)
  else None.

Section Loop.

Variable ansiHTML : string -> string.
Variable totalmem : Z.

(** Is the event possible at time [t], and if so: the world as the
    transport and the timers leave it, and the handler that runs.
    [Monitor.prototype._listeningSocketIO] binds the handlers
    [_connectSysSock], [_connectLogSock] and [_connectProcSock] to the
    namespaces; of the last two only their listeners do anything. *)
Definition dispatch (t : Z) (ev : event) (w : World) : option (World * M unit) :=
  match ev with
  | Connect nsp sid =>
      if connected nsp sid w then None
      else Some (set_sockets nsp (sockets nsp w ++ [mkSocket sid ∅]) w,
                 match nsp with
                 | SYS => _connectSysSock sid
                 | _ => ret tt
                 end)
  | Disconnect nsp sid reason =>
      if connected nsp sid w then
        Some (set_sockets nsp
                (filter (fun sock => sock_id sock ≠ sid) (sockets nsp w)) w,
              match nsp with
              | SYS => sys_disconnect
              | LOG => _killTailProcess (Str reason)
              | PROC => killObserver
              end)
      else None
  | OnAction sid action id =>
      if connected SYS sid w then Some (w, sys_action sid action id) else None
  | OnProcs sid =>
      if connected SYS sid w then Some (w, sendProcs sid) else None
  | OnTail sid pm_id keepANSI =>
      if connected LOG sid w then Some (w, startTailProcess sid pm_id keepANSI) else None
  | OnTailKill sid pm_id =>
      if connected LOG sid w then Some (w, _killTailProcess pm_id) else None
  | OnProc sid pid =>
      if connected PROC sid w then Some (w, runObserver sid pid) else None
  | Pm2Event => Some (w, _throttleRefresh)
  | ThrottleTimeout h =>
      match timeouts_throttle w !! h with
      | Some due =>
          if due <=? t
          then Some (set_timeouts_throttle (delete h (timeouts_throttle w)) w, throttle_fired)
          else None
      | None => None
      end
  | TickTimeout h =>
      match timeouts_tick w !! h with
      | Some (due, tick) =>
          if due <=? t
          then Some (set_timeouts_tick (delete h (timeouts_tick w)) w, _nextTick tick true)
          else None
      | None => None
      end
  | UsageInterval h =>
      match intervals_usage w !! h with
      | Some (due, pid) =>
          if due <=? t
          then Some (set_intervals_usage (<[h := (t + 3000, pid)]> (intervals_usage w)) w,
                     runTimer pid)
          else None
      | None => None
      end
  | StatDone tick r => answered (ReqStat tick) w (systemStat_done tick r)
  | UsageDone pid r => answered (ReqUsage pid) w (usage_done totalmem pid r)
  | ListDone r => answered ReqList w (list_done r)
  | VersionDone sid err version => answered (ReqVersion sid) w (version_done sid err version)
  | ActionDone sid action id r => answered (ReqAction sid action id) w (action_done sid id r)
  | TailOpened pm_id keepANSI r =>
      answered (ReqTail pm_id keepANSI)
        (match r with
         | inr (Some _) => set_streams (streams w ++ [(pm_id, keepANSI)]) w
         | _ => w
         end)
        (tail_opened pm_id keepANSI r)
  | TailLines pm_id keepANSI r =>
      if bool_decide ((pm_id, keepANSI) ∈ streams w)
      then Some (w, tail_lines ansiHTML pm_id keepANSI r)
      else None
  end.

(** Runs a handler to its end; what it throws is caught by nobody. *)
Definition complete (h : M unit) (w : World) : World :=
  match h w with
  | Ok _ w' => w'
  | Throw e w' => world_of (note (Uncaught e) w')
  end.

(** One turn of the event loop at time [t]; time does not go back. *)
Definition step (t : Z) (ev : event) (w : World) : option World :=
  if clock w <=? t then
    match dispatch t ev (set_clock t w) with
    | Some (w', h) => Some (complete h w')
    | None => None
    end
  else None.

Fixpoint steps (trace : list (Z * event)) (w : World) : option World :=
  match trace with
  | [] => Some w
  | (t, ev) :: trace' =>
      match step t ev w with
      | Some w' => steps trace' w'
      | None => None
      end
  end.

End Loop.

(** The world before [run]: nothing connected, no timer, nothing done. *)
Definition fresh_world (refresh : value) (t0 : Z) : World :=
  {| opt_refresh := refresh; _noClient := false; _status := Undefined;
     _sysStat := None; _procs := None; _tails := ∅; _usages := ∅;
     _throttle := None; sys_sockets := []; log_sockets := []; proc_sockets := [];
     clock := t0; next_handle := 0; timeouts_throttle := ∅; timeouts_tick := ∅;
     intervals_usage := ∅; pending := []; streams := []; done_log := [] |}.

(** The world when [run] returns. *)
Definition started (refresh : value) (t0 : Z) : World :=
  complete run (fresh_world refresh t0).

(** ** What the properties are stated with *)

(** A computation keeps the relation [R] when the world it ends in,
    returning or throwing, is related by [R] to the world it started
    in. *)
Definition keeps (R : World -> World -> Prop) {A} (m : M A) : Prop :=
  forall w, R w (world_of (m w)).

(** The presence flag and the sockets of the system namespace are the
    same in both worlds. *)
Definition same_presence (w w' : World) : Prop :=
  _noClient w' = _noClient w ∧ sys_sockets w' = sys_sockets w.

(** The flag [_noClient] says whether the system namespace is empty. *)
Definition presence_tracked (w : World) : Prop :=
  _noClient w = bool_decide (sys_sockets w = []).

(** The entries of the record that are emissions to a namespace. *)
Definition is_emit (o : obs) : bool :=
  match o with
  | Emit _ _ _ _ => true
  | _ => false
  end.

Definition emissions (w : World) : list (Z * obs) :=
  List.filter (fun e => is_emit e.2) (done_log w).

(** While the flag is up, it stays up and nothing more is emitted. *)
Definition quiet (w w' : World) : Prop :=
  _noClient w = true → _noClient w' = true ∧ emissions w' = emissions w.

(** No socket of the process namespace has a property [pid]. *)
Definition no_pid (w : World) : Prop :=
  ∀ sock, sock ∈ proc_sockets w → props sock !! "pid" = None.

(** A change that gives no socket of the process namespace a [pid]. *)
Definition pid_free (w w' : World) : Prop := no_pid w → no_pid w'.

(** *** The throttle *)

(** The calls of [pm.list] are the refreshes. *)
Definition is_refresh (o : obs) : bool :=
  match o with
  | Call ReqList => true
  | _ => false
  end.

(** The times at which the refresh was invoked. *)
Definition refreshes (w : World) : list Z :=
  fst <$> List.filter (fun e => is_refresh e.2) (done_log w).

(** The events whose handler calls [_throttleRefresh]: an event of the
    daemon, and the callback of an action that asks for a refresh. *)
Definition is_trigger (ev : event) : bool :=
  match ev with
  | Pm2Event => true
  | ActionDone _ _ _ (inr true) => true
  | _ => false
  end.

(** The times of the triggers of a trace. *)
Definition trigger_times (trace : list (Z * event)) : list Z :=
  fst <$> List.filter (fun e => is_trigger e.2) trace.

(** Every call comes less than 500ms after the one before. *)
Fixpoint burst (ts : list Z) : Prop :=
  match ts with
  | t1 :: ((t2 :: _) as rest) => t2 - t1 < 500 ∧ burst rest
  | _ => True
  end.

(** The last element of a list, [d] when it is empty. *)
Fixpoint last_of (l : list Z) (d : Z) : Z :=
  match l with
  | [] => d
  | x :: l' => last_of l' x
  end.

(** The throttle, its timers and the refreshes are the same in both
    worlds. *)
Definition same_throttle (w w' : World) : Prop :=
  _throttle w' = _throttle w ∧
  timeouts_throttle w' = timeouts_throttle w ∧
  refreshes w' = refreshes w.

(** The clock is the same in both worlds. *)
Definition same_clock (w w' : World) : Prop := clock w' = clock w.

(** The throttle is armed: its one timer is due 500ms after [last]. *)
Definition armed (w : World) (last : Z) : Prop :=
  ∃ h, _throttle w = Some h ∧ timeouts_throttle w = {[ h := last + 500 ]}.

(** The throttle is idle: no timer of it is pending. *)
Definition idle (w : World) : Prop :=
  _throttle w = None ∧ timeouts_throttle w = ∅.

(** Where the throttle stands after a burst whose last call was at
    [last]: still armed and no refresh yet, or idle again after exactly
    one refresh, invoked no earlier than 500ms after [last]. *)
Definition throttle_outcome (w0 w' : World) (last : Z) : Prop :=
  (armed w' last ∧ refreshes w' = refreshes w0) ∨
  (idle w' ∧ last + 500 ≤ clock w' ∧
   ∃ t, refreshes w' = refreshes w0 ++ [t] ∧ last + 500 ≤ t).

(** *** The heartbeat *)

Definition is_stat_request (r : request) : bool :=
  match r with
  | ReqStat _ => true
  | _ => false
  end.

(** The calls of [stat.cpuUsage] are the ticks of the heartbeat. *)
Definition is_tick (o : obs) : bool :=
  match o with
  | Call r => is_stat_request r
  | _ => false
  end.

(** The ticks so far, each with its time. *)
Definition ticks (w : World) : list (Z * obs) :=
  List.filter (fun e => is_tick e.2) (done_log w).

(** The statistics calls that await their callback. *)
Definition stat_pending (w : World) : list request :=
  List.filter is_stat_request (pending w).

(** The heartbeat is the same in both worlds: its state, its timers,
    its ticks and the calls it awaits. *)
Definition same_heartbeat (w w' : World) : Prop :=
  _status w' = _status w ∧
  timeouts_tick w' = timeouts_tick w ∧
  ticks w' = ticks w ∧
  stat_pending w' = stat_pending w.


Definition is_system_connect (ev : event) : bool :=
  match ev with
  | Connect SYS _ => true
  | _ => false
  end.


(** The option [refresh] is the same in both worlds. *)
Definition same_options (w w' : World) : Prop := opt_refresh w' = opt_refresh w.

(** *** Scenarios *)

(** A client of the system namespace and one of the process namespace;
    the latter asks for the usage of process 4242. *)
Definition usage_requested : list (Z * event) :=
  [(10, Connect SYS 1); (20, Connect PROC 2); (30, OnProc 2 (Num 4242))].

(** Two clients of the process namespace ask for the usage of the
    processes 11 and 22; the first client leaves. *)
Definition one_of_two_leaves : list (Z * event) :=
  [(10, Connect PROC 1); (20, Connect PROC 2);
   (30, OnProc 1 (Num 11)); (40, OnProc 2 (Num 22));
   (50, Disconnect PROC 1 "transport close")].

(** The same with the log namespace: two clients tail the processes 11
    and 22, the tails open, the first client leaves. *)
Definition one_of_two_tails_leaves : list (Z * event) :=
  [(10, Connect LOG 1); (20, Connect LOG 2);
   (30, OnTail 1 (Num 11) false); (40, OnTail 2 (Num 22) false);
   (50, TailOpened (Num 11) false (inr (Some 100%nat)));
   (60, TailOpened (Num 22) false (inr (Some 200%nat)));
   (70, Disconnect LOG 1 "transport close")].

(** The world at the end of a trace that starts when [run] returns at
    time 0, with the options left unset. *)
Definition world_after (trace : list (Z * event)) : option World :=
  steps (fun s => s) 1024 trace (started Undefined 0).

(** The entries of the record that are uncaught exceptions. *)
Definition uncaught (w : World) : list exn :=
  omap (fun e => match e.2 with Uncaught x => Some x | _ => None end) (done_log w).

(** ** The client side: [connect] *)

Module Client.

(** What the client does to the outside: it opens a socket on an
    address, and it invokes the callbacks it was given. *)
Inductive action : Type :=
| Open (serverUri : string)
| Success
| Failure (err : string).

(** The two callbacks with the [_called] mark [connect] keeps on each
    function object, and the record of what was done. *)
Record State : Type := mkState {
  success_called : bool;
  failure_called : bool;
  did : list action
}.

(** What the socket of [socket.io-client] emits. *)
Inductive socket_event : Type :=
| connect_event
| error_event (err : string)
| connect_error_event (err : string).

(** [Monitor.prototype.connect], up to the registration of the three
    listeners; the callbacks are taken to return when invoked. *)
Definition connect (options : Endpoint) (st : State) : exn + State :=
  if negb (truthy (port options)) then
    inl (Error "Port is required!")
  else
    let serverUri := toConnectionString options in
    inr {| success_called := success_called st;
           failure_called := failure_called st;
           did := did st ++ [Open serverUri] |}.

(** The listener of [connect]:
    [!success._called && success(socket); success._called = true]. *)
Definition on_connect (st : State) : State :=
  {| success_called := true;
     failure_called := failure_called st;
     did := if negb (success_called st) then did st ++ [Success] else did st |}.

(** The listener of [error] and of [connect_error]:
    [!failure._called && failure(err, socket); failure._called = true]. *)
Definition on_failure (err : string) (st : State) : State :=
  {| success_called := success_called st;
     failure_called := true;
     did := if negb (failure_called st) then did st ++ [Failure err] else did st |}.

Definition listen (ev : socket_event) (st : State) : State :=
  match ev with
  | connect_event => on_connect st
  | error_event err => on_failure err st
  | connect_error_event err => on_failure err st
  end.

(** The events of the socket, in the order it emits them. *)
Definition listen_all (evs : list socket_event) (st : State) : State :=
  fold_left (fun st ev => listen ev st) evs st.

Definition is_success (a : action) : bool :=
  match a with Success => true | _ => false end.
Definition is_failure (a : action) : bool :=
  match a with Failure _ => true | _ => false end.
Definition is_open (a : action) : bool :=
  match a with Open _ => true | _ => false end.

Definition count (p : action -> bool) (l : list action) : nat :=
  length (List.filter p l).

(** A call of [connect] followed by the events of its socket: the state
    at the end, or what [connect] threw. *)
Definition session (options : Endpoint) (evs : list socket_event) (st : State)
  : exn + State :=
  match connect options st with
  | inl e => inl e
  | inr st' => inr (listen_all evs st')
  end.

(** Before the first event: neither callback was called, nothing done. *)
Definition fresh_callbacks : State :=
  {| success_called := false; failure_called := false; did := [] |}.

(** Options without a port. *)
Definition endpoint_without_port : Endpoint :=
  {| protocol := Undefined; hostname := Str "localhost"; port := Undefined;
     path := Undefined; namespace := Undefined; authorization := Undefined |}.

End Client.


(** ** The list of monitors: [Monitor.available] *)

Module Available.

(** [options.agent]: a field that is absent is [Undefined]. *)
Record Agent : Type := mkAgent {
  offline : value;
  authorization : value
}.

(** The options [Monitor.available] reads.  [remotes] is the object of the
    remote monitors, as its fields in the order [for ... in] enumerates
    them; [None] is an absent [agent] or [remotes]. *)
Record Options : Type := mkOptions {
  agent : option Agent;
  remotes : option (list (string * value));
  port : value;
  blank : value
}.

(** One entry of the list: the connection string, the short name and,
    once it is set, the line to display. *)
Record Choice : Type := mkChoice {
  c_value : value;
  short : string;
  name : option string
}.

(** The question handed to the prompt. *)
Record Question : Type := mkQuestion {
  q_name : string;
  q_message : string;
  q_type : string;
  choices : list Choice
}.

Definition question (choices : list Choice) : Question :=
  {| q_name := "socket_server";
     q_message := "Which socket server would you wanna connect to";
     q_type := "list";
     choices := choices |}.

(** [Array(n).join(sep)]: [n] empty slots joined. *)
Definition Array_join (n : Z) (sep : string) : string :=
  join sep (repeat "" (Z.to_nat n)).

Definition length_of (s : string) : Z := Z.of_nat (String.length s).

(** [wrapLocal], on the options with [agent] and [port] filled in. *)
Definition wrapLocal (agent : Agent) (port : value) : Choice :=
  {| c_value :=
       Str ((if truthy (authorization agent)
             then to_string (authorization agent) +:+ "@" else "") +:+
            "127.0.0.1:" +:+ to_string port);
     short := "localhost";
     name := None |}.

(** The line of a choice:
    ['[' + c.short + Array(max - c.short.length + 1).join(blank || ' ') + '] ' + c.value] *)
Definition with_name (maxShortLength : Z) (blank : value) (c : Choice) : Choice :=
  {| c_value := c_value c;
     short := short c;
     name := Some ("[" +:+ short c +:+
                   Array_join (maxShortLength - length_of (short c) + 1)
                     (to_string (or_else blank (Str " "))) +:+
                   "] " +:+ to_string (c_value c)) |}.

(** [Monitor.available]: the options as the call leaves them ([agent] and
    [port] are written back to the caller's object), and the question or
    [None] for [null]. *)
Definition available (options : Options) : Options * option Question :=
  let agent_ := default {| offline := Undefined; authorization := Undefined |} (agent options) in
  let options :=
    {| agent := Some agent_; remotes := remotes options;
       port := port options; blank := blank options |} in
  let remotable :=
    match remotes options with
    | Some r => 0 <? Z.of_nat (length r)
    | None => false
    end in
  if truthy (offline agent_) && negb remotable then (options, None) else
  let options :=
    {| agent := agent options; remotes := remotes options;
       port := or_else (port options) (Num 8088); blank := blank options |} in
  if negb remotable then (options, Some (question [wrapLocal agent_ (port options)])) else
  let '(choices, maxShortLength) :=
    fold_left
      (fun '(choices, maxShortLength) '(remote, connectionString) =>
         (choices ++ [{| c_value := connectionString; short := remote; name := None |}],
          Z.max maxShortLength (length_of remote)))
      (default [] (remotes options)) ([], 0) in
  let '(choices, maxShortLength) :=
    if negb (truthy (offline agent_)) then
      let conn := wrapLocal agent_ (port options) in
      (choices ++ [conn], Z.max maxShortLength (length_of (short conn)))
    else (choices, maxShortLength) in
  let choices :=
    if 1 <? Z.of_nat (length choices)
    then with_name maxShortLength (blank options) <$> choices
    else choices in
  (options, Some (question choices)).

(** The choices of the answer; [null] offers none. *)
Definition offered (options : Options) : list Choice :=
  from_option choices [] (available options).2.

(** The agent the call works with. *)
Definition agent_of (options : Options) : Agent :=
  default {| offline := Undefined; authorization := Undefined |} (agent options).

(** The remote monitors of the options. *)
Definition remotes_of (options : Options) : list (string * value) :=
  default [] (remotes options).

(** The address of the local monitor as [wrapLocal] writes it. *)
Definition local_address (options : Options) : string :=
  (if truthy (authorization (agent_of options))
   then to_string (authorization (agent_of options)) +:+ "@" else "") +:+
  "127.0.0.1:" +:+ to_string (or_else (port options) (Num 8088)).

(** The width of the widest short name. *)
Definition widest (l : list Choice) : nat :=
  foldr Nat.max 0%nat ((fun c => String.length (short c)) <$> l).

(** [n] times the text [sep]. *)
Fixpoint padding (n : nat) (sep : string) : string :=
  match n with
  | O => ""
  | S n' => sep +:+ padding n' sep
  end.

(** The text between the brackets of a line of width [width]. *)
Definition bracketed (width : nat) (sep : string) (c : Choice) : string :=
  short c +:+ padding (width - String.length (short c)) sep.

(** The text that pads the short names. *)
Definition blank_of (options : Options) : string :=
  to_string (or_else (blank options) (Str " ")).

(** Options with two remote monitors and an authorization. *)
Definition options_sample : Options :=
  {| agent := Some {| offline := Undefined; authorization := Str "secret" |};
     remotes := Some [("office", Str "token@10.0.0.7:8088"); ("lab", Str "10.0.0.12:9000")];
     port := Undefined;
     blank := Undefined |}.

End Available.

(** *** The two parts of a connection string *)

(** The connection string without what precedes its last at sign, and
    the part cut off. *)
Definition credentials (s : string) : string :=
  match split_last "@" s with
  | Some (l, _) => l
  | None => ""
  end.

Definition address (s : string) : string :=
  match split_last "@" s with
  | Some (_, r) => r
  | None => s
  end.

(** The address with the scheme in front that [parseConnectionString]
    puts there when there is none. *)
Definition with_scheme (s : string) : string :=
  if negb (http_prefixed s) then "http://" +:+ s else s.

(** An at sign nowhere in the string. *)
Definition no_at (s : string) : bool :=
  all_chars (fun a => negb (Ascii.eqb a "@")) s.

(** *** The chain of the heartbeat *)

(** The interval the heartbeat is configured with. *)
Definition interval_of (w : World) : value := or_else (opt_refresh w) (Num 5000).

(** The heartbeat is stopped: nothing of it is under way. *)
Definition beat_stopped (w : World) : Prop :=
  _status w = Undefined ∧ stat_pending w = [] ∧ timeouts_tick w = ∅.

(** The heartbeat awaits the statistics of its one tick. *)
Definition beat_sampling (w : World) : Prop :=
  _status w = Str "R" ∧ stat_pending w = [ReqStat (interval_of w)] ∧ timeouts_tick w = ∅.

(** The heartbeat waits for its one timer, armed with the interval. *)
Definition beat_waiting (w : World) : Prop :=
  _status w = Str "R" ∧ stat_pending w = [] ∧
  ∃ h due, timeouts_tick w = {[ h := (due, interval_of w) ]}.

(** One chain of ticks at most, and one whenever a client is connected
    to the system namespace. *)
Definition heartbeat_chain (w : World) : Prop :=
  (beat_stopped w ∨ beat_sampling w ∨ beat_waiting w) ∧
  (sys_sockets w ≠ [] → _status w = Str "R").

(** The events that move the heartbeat or the clients it follows. *)
Definition drives_heartbeat (ev : event) : bool :=
  match ev with
  | Connect SYS _ | Disconnect SYS _ _ | TickTimeout _ | StatDone _ _ => true
  | _ => false
  end.

(** The heartbeat and what it follows are the same in both worlds. *)
Definition same_beat (w w' : World) : Prop :=
  same_heartbeat w w' ∧ same_presence w w' ∧ same_options w w'.

(** *** The throttle on any trace *)

(** Where the throttle stands when [triggers] calls of [_throttleRefresh]
    followed [run], the last of them at [last]: idle, or armed with its
    one timer due 500ms after [last]; and the refreshes so far are no
    more than the calls that are not still awaited. *)
Definition throttle_bounded (w : World) (last : Z) (triggers : nat) : Prop :=
  (idle w ∧ (length (refreshes w) ≤ 1 + triggers)%nat) ∨
  (armed w last ∧ (length (refreshes w) ≤ triggers)%nat).

(** *** The cache of the process list *)

(** A process as the monitor hands it to its clients: the environment
    has a field [user] and no field the filter ignores. *)
Definition presentable (p : Proc) : Prop :=
  ∃ env, pm2_env p = Some env ∧ is_Some (env !! "user") ∧
         ∀ key, is_Some (env !! key) → ignored key = false.

(** The process lists in the record of what was sent. *)
Definition sent_lists (w : World) : list (list Proc) :=
  omap (fun e =>
          match e.2 with
          | Emit _ _ (ProcList l) _ => Some l
          | Unicast _ _ (ProcList l) => Some l
          | _ => None
          end) (done_log w).

(** The cache and every list sent hold presentable processes only. *)
Definition lists_presentable (w : World) : Prop :=
  (∀ l, _procs w = Some l → Forall presentable l) ∧
  Forall (Forall presentable) (sent_lists w).

(** The cache and the lists sent are the same in both worlds. *)
Definition same_lists (w w' : World) : Prop :=
  _procs w' = _procs w ∧ sent_lists w' = sent_lists w.

(** The events whose handler sends or replaces the process list. *)
Definition sends_lists (ev : event) : bool :=
  match ev with
  | Connect SYS _ | OnProcs _ | ListDone _ => true
  | _ => false
  end.

(** *** The sweeps *)

(** The keys the sockets of the log namespace claim: the [_pm_id] of
    each, as a key. *)
Definition claimed_tails (socks : list Socket) : gset string :=
  list_to_set ((fun sock => to_string (prop sock "_pm_id")) <$> socks).

(** The sockets that stay when [sid] leaves. *)
Definition others (sid : nat) (socks : list Socket) : list Socket :=
  filter (fun sock => sock_id sock ≠ sid) socks.

(** The entries of the record that are kills of a tail. *)
Definition is_kill (o : obs) : bool :=
  match o with
  | Kill _ => true
  | _ => false
  end.

(** All that was recorded between the two worlds are kills of tails. *)
Definition only_kills (w w' : World) : Prop :=
  ∃ l, done_log w' = done_log w ++ l ∧ Forall (fun e => is_kill e.2 = true) l.

(** A client tails process 11, another one sends [tail_kill] for it. *)
Definition tail_killed_by_other : list (Z * event) :=
  [(10, Connect LOG 1); (20, Connect LOG 2);
   (30, OnTail 1 (Num 11) false);
   (40, TailOpened (Num 11) false (inr (Some 100%nat)));
   (50, OnTailKill 2 (Num 11))].

(** A client asks for the usage of process 4242. *)
Definition one_watcher : list (Z * event) :=
  [(20, Connect PROC 2); (30, OnProc 2 (Num 4242))].

(** *** The registry of usage timers and the timers *)

(** The registry and the timers agree: every entry of the registry is
    under the key of a process and holds the handle of an armed timer
    that samples that process; every armed timer is the one registered
    for the process it samples; and the handles in use were all given
    out. *)
Definition usage_consistent (w : World) : Prop :=
  (∀ k h, _usages w !! k = Some h →
          (k ∉ object_prototype_keys) ∧
          ∃ due pid, intervals_usage w !! h = Some (due, pid) ∧ to_string pid = k) ∧
  (∀ h due pid, intervals_usage w !! h = Some (due, pid) →
                _usages w !! to_string pid = Some h) ∧
  (∀ h, is_Some (intervals_usage w !! h) → (h < next_handle w)%nat).

(** The registry and the timers are the same in both worlds, and no
    handle was taken back. *)
Definition same_usage (w w' : World) : Prop :=
  _usages w' = _usages w ∧
  intervals_usage w' = intervals_usage w ∧
  (next_handle w ≤ next_handle w')%nat.

(** The events whose handler may change the registry or the timers. *)
Definition moves_usage (ev : event) : bool :=
  match ev with
  | OnProc _ _ | Disconnect PROC _ _ | UsageInterval _ => true
  | _ => false
  end.

(** *** The heartbeat after the clients have left *)




(** *** Two requests for the tail of one process *)

(** The tails that were killed, in the order of the record. *)
Definition kills (w : World) : list nat :=
  omap (fun e => match e.2 with Kill tail => Some tail | _ => None end) (done_log w).

(** The processes [pm.tail] was asked to tail, in the order of the
    record. *)
Definition tail_requests (w : World) : list value :=
  omap (fun e => match e.2 with Call (ReqTail pm_id _) => Some pm_id | _ => None end)
    (done_log w).

(** Two clients of the log namespace ask for the tail of process 42,
    the second before [pm.tail] has answered the first; both tails
    open; both clients leave. *)
Definition tails_started_twice : list (Z * event) :=
  [(10, Connect LOG 1); (20, Connect LOG 2);
   (30, OnTail 1 (Num 42) false); (31, OnTail 2 (Num 42) false);
   (40, TailOpened (Num 42) false (inr (Some 100%nat)));
   (41, TailOpened (Num 42) false (inr (Some 200%nat)));
   (50, Disconnect LOG 1 "transport close");
   (60, Disconnect LOG 2 "transport close")].

(** A client asks for the tail of a process whose id is the name of a
    property every object inherits. *)
Definition tail_of_constructor : list (Z * event) :=
  [(10, Connect LOG 1); (30, OnTail 1 (Str "constructor") false)].
(** * Properties *)

(** ** [connect] *)

Section Connect.
Import Client.

Lemma count_app (p : action -> bool) (l1 l2 : list action) :
  count p (l1 ++ l2) = (count p l1 + count p l2)%nat.
Proof. unfold count. by rewrite List.filter_app, length_app. Qed.

(** The events of a socket add to the record at most one [Success] and
    at most one [Failure], and none once the mark is set. *)
Lemma listen_all_did (evs : list socket_event) (st : State) :
  ∃ rest,
    did (listen_all evs st) = did st ++ rest ∧
    (count is_success rest ≤ if success_called st then 0 else 1)%nat ∧
    (count is_failure rest ≤ if failure_called st then 0 else 1)%nat ∧
    count is_open rest = 0%nat.
Proof.
  revert st. induction evs as [|ev evs IH]; intros st.
  - exists []. simpl. rewrite app_nil_r.
    split_and!; try done; destruct (success_called st), (failure_called st);
      unfold count; simpl; lia.
  - destruct (IH (listen ev st)) as (rest & Hdid & Hs & Hf & Ho).
    change (listen_all (ev :: evs) st) with (listen_all evs (listen ev st)).
    rewrite Hdid. clear Hdid IH.
    assert (Hcons : ∀ p a, count p (a :: rest) = ((if p a then 1 else 0) + count p rest)%nat).
    { intros p a. unfold count. simpl. by destruct (p a). }
    destruct ev as [|err|err]; simpl in *.
    + destruct (success_called st) eqn:Hc; simpl.
      * exists rest. split_and!; try done; lia.
      * exists (Success :: rest). rewrite <- app_assoc, !Hcons. simpl.
        split_and!; try done; lia.
    + destruct (failure_called st) eqn:Hc; simpl.
      * exists rest. split_and!; try done; lia.
      * exists (Failure err :: rest). rewrite <- app_assoc, !Hcons. simpl.
        split_and!; try done; lia.
    + destruct (failure_called st) eqn:Hc; simpl.
      * exists rest. split_and!; try done; lia.
      * exists (Failure err :: rest). rewrite <- app_assoc, !Hcons. simpl.
        split_and!; try done; lia.
Qed.

(** C10. A call of [connect] invokes the success callback at most once
    and the failure callback at most once, whatever events the socket
    emits and however often; it opens one socket; and with options that
    lack a port (or whose port is [null], [0] or the empty string) it
    throws before it opens any. *)
Theorem connect_callbacks_at_most_once
    (options : Endpoint) (evs : list socket_event) (st : State) :
  (truthy (port options) = false →
     session options evs st = inl (Error "Port is required!")) ∧
  (∀ st', session options evs st = inr st' →
     ∃ rest,
       did st' = did st ++ Open (toConnectionString options) :: rest ∧
       (count is_success rest ≤ 1)%nat ∧
       (count is_failure rest ≤ 1)%nat ∧
       count is_open rest = 0%nat).
Proof.
  unfold session, connect. split.
  - intros ->. reflexivity.
  - intros st'. destruct (truthy (port options)); simpl; [|discriminate].
    intros [= <-].
    match goal with |- context [listen_all evs ?s] =>
      destruct (listen_all_did evs s) as (rest & Hdid & Hs & Hf & Ho) end.
    simpl in *. exists rest. rewrite Hdid, <- app_assoc. simpl.
    repeat split; try done.
    + destruct (success_called st); lia.
    + destruct (failure_called st); lia.
Qed.

Lemma connect_callbacks_at_most_once_witness :
  session endpoint_without_port [connect_event; connect_event] fresh_callbacks
    = inl (Error "Port is required!") ∧
  ∃ rest,
    did (listen_all [connect_event; error_event "x"; connect_event; connect_error_event "y"]
           {| success_called := false; failure_called := false;
              did := [Open (toConnectionString endpoint_sample)] |})
      = [] ++ Open (toConnectionString endpoint_sample) :: rest ∧
    (count is_success rest ≤ 1)%nat ∧
    (count is_failure rest ≤ 1)%nat ∧
    count is_open rest = 0%nat.
Proof.
  split.
  - exact (proj1 (connect_callbacks_at_most_once endpoint_without_port
                    [connect_event; connect_event] fresh_callbacks) eq_refl).
  - exact (proj2 (connect_callbacks_at_most_once endpoint_sample
                    [connect_event; error_event "x"; connect_event; connect_error_event "y"]
                    fresh_callbacks) _ eq_refl).
Defined.

End Connect.
(** ** The connection-string codec *)

Section Strings.

Lemma substring_full (s : string) : String.substring 0 (String.length s) s = s.
Proof. induction s as [|c s IH]; simpl; [done | by rewrite IH]. Qed.

Lemma append_empty_r (s : string) : s +:+ "" = s.
Proof. induction s as [|c s IH]; simpl; [done | by rewrite IH]. Qed.

Lemma append_assoc (a b c : string) : (a +:+ b) +:+ c = a +:+ (b +:+ c).
Proof. induction a as [|x a IH]; simpl; [done | by rewrite IH]. Qed.

Lemma all_chars_app (p : ascii → bool) (a b : string) :
  all_chars p (a +:+ b) = all_chars p a && all_chars p b.
Proof.
  induction a as [|c a IH]; simpl; [done|].
  rewrite IH. by destruct (p c).
Qed.

Lemma all_chars_impl (p q : ascii → bool) (s : string) :
  (∀ c, p c = true → q c = true) →
  all_chars p s = true → all_chars q s = true.
Proof.
  intros Hpq. induction s as [|c s IH]; simpl; [done|].
  intros [Hc Hs]%andb_true_iff. rewrite (Hpq c Hc), (IH Hs). done.
Qed.

(** A run of characters that satisfy [p], stopped by one that does not
    or by the end. *)
Lemma span_app_stop (p : ascii → bool) (a r : string) :
  all_chars p a = true →
  (∀ c r', r = String c r' → p c = false) →
  span p (a +:+ r) = (a, r).
Proof.
  intros Ha Hr. induction a as [|x a IH]; simpl in *.
  - destruct r as [|c r']; simpl; [done|]. by rewrite (Hr c r' eq_refl).
  - apply andb_true_iff in Ha as [Hx Ha]. rewrite Hx, (IH Ha). done.
Qed.

Lemma span_all (p : ascii → bool) (s : string) :
  all_chars p s = true → span p s = (s, "").
Proof.
  intros Hs. rewrite <- (append_empty_r s) at 1.
  apply span_app_stop; [done | discriminate].
Qed.

Lemma span_join (p : ascii → bool) (s : string) :
  (span p s).1 +:+ (span p s).2 = s.
Proof.
  induction s as [|c s IH]; simpl; [done|].
  destruct (p c); [|done]. destruct (span p s) as [l r]. simpl in *. by rewrite IH.
Qed.

Lemma span_fst_all (p q : ascii → bool) (s : string) :
  all_chars q s = true → all_chars q (span p s).1 = true.
Proof.
  induction s as [|c s IH]; simpl; [done|].
  intros [Hc Hs]%andb_true_iff. destruct (p c); [|done].
  specialize (IH Hs). destruct (span p s) as [l r]. simpl in *. by rewrite Hc, IH.
Qed.

Lemma split_last_none (c : ascii) (s : string) :
  all_chars (fun a => negb (Ascii.eqb a c)) s = true → split_last c s = None.
Proof.
  induction s as [|a s IH]; simpl; [done|].
  intros [Ha Hs]%andb_true_iff. rewrite (IH Hs).
  apply negb_true_iff in Ha. by rewrite Ha.
Qed.

Lemma split_last_app (c : ascii) (l r : string) :
  all_chars (fun a => negb (Ascii.eqb a c)) r = true →
  split_last c (l +:+ String c r) = Some (l, r).
Proof.
  intros Hr. induction l as [|a l IH]; simpl.
  - rewrite (split_last_none c r Hr). by rewrite Ascii.eqb_refl.
  - by rewrite IH.
Qed.

Lemma lastIndexOf_none (c : ascii) (s : string) :
  all_chars (fun a => negb (Ascii.eqb a c)) s = true → lastIndexOf s c = -1.
Proof. intros Hs. unfold lastIndexOf. by rewrite split_last_none. Qed.

Lemma toLowerCase_id (s : string) :
  all_chars (fun c => negb (is_upper c)) s = true → toLowerCase s = s.
Proof.
  induction s as [|c s IH]; simpl; [done|].
  intros [Hc Hs]%andb_true_iff. unfold lower_char.
  apply negb_true_iff in Hc. by rewrite Hc, (IH Hs).
Qed.

Lemma drop_leading_slash_after (l r : string) :
  drop_leading "/" ((if String.eqb l "" then "/" else l) +:+ r) = drop_leading "/" (l +:+ r).
Proof. destruct l as [|c l]; simpl; done. Qed.

End Strings.

(** Facts about single characters, by running through the code units. *)
Local Ltac by_cases_on_char c :=
  destruct c as [[] [] [] [] [] [] [] []]; vm_compute; (done || (intros; discriminate)).

Lemma host_char_no_upper c : is_host_char c = true → negb (is_upper c) = true.
Proof. by_cases_on_char c. Qed.
Lemma plain_char_not_at c : is_plain_char c = true → negb (Ascii.eqb c "@") = true.
Proof. by_cases_on_char c. Qed.
Lemma plain_char_not_hash c : is_plain_char c = true → negb (Ascii.eqb c "#") = true.
Proof. by_cases_on_char c. Qed.
Lemma host_char_not_at c : is_host_char c = true → negb (Ascii.eqb c "@") = true.
Proof. by_cases_on_char c. Qed.
Lemma host_char_plain c : is_host_char c = true → is_plain_char c = true.
Proof. by_cases_on_char c. Qed.
Lemma digit_plain c : is_digit c = true → is_plain_char c = true.
Proof. by_cases_on_char c. Qed.
Lemma digit_not_colon c : is_digit c = true → negb (Ascii.eqb c ":") = true.
Proof. by_cases_on_char c. Qed.
Lemma host_char_in_host c :
  is_host_char c = true → negb (mem_char c Url.nonHostChars) = true.
Proof. by_cases_on_char c. Qed.
Lemma digit_in_host c : is_digit c = true → negb (mem_char c Url.nonHostChars) = true.
Proof. by_cases_on_char c. Qed.

Lemma eqb_empty (s : string) : String.eqb s "" = bool_decide (s = "").
Proof. destruct s; simpl; by rewrite ?bool_decide_eq_true_2, ?bool_decide_eq_false_2. Qed.

Lemma starts_with_head (c : ascii) (s : string) :
  starts_with (String c "") s = true → ∃ r, s = String c r.
Proof.
  destruct s as [|a s]; cbn [starts_with]; [done|].
  rewrite andb_true_r. intros ->%Ascii.eqb_eq. eauto.
Qed.

(** The host part of [host:port] followed by a path or a query. *)
Lemma split_authority_plain (host portS rest : string) :
  all_chars is_host_char host = true →
  host ≠ "" →
  (String.length host ≤ 255)%nat →
  all_chars is_digit portS = true →
  portS ≠ "" →
  all_chars is_plain_char rest = true →
  rest = "" ∨ starts_with "/" rest = true ∨ starts_with "?" rest = true →
  Url.split_authority (host +:+ ":" +:+ portS +:+ rest) = (Str host, Str portS, rest).
Proof.
  intros Hhost Hne Hlen Hport Hpne Hrest Hstart. unfold Url.split_authority.
  set (url := host +:+ ":" +:+ portS +:+ rest).
  assert (Hat : all_chars (fun c => negb (Ascii.eqb c "@")) url = true).
  { unfold url. rewrite !all_chars_app.
    rewrite (all_chars_impl _ _ _ host_char_not_at Hhost).
    rewrite (all_chars_impl _ _ _ (fun c H => plain_char_not_at c (digit_plain c H)) Hport).
    rewrite (all_chars_impl _ _ _ plain_char_not_at Hrest). reflexivity. }
  pose proof (span_fst_all (fun c => negb (mem_char c Url.hostEndingChars)) _ url Hat) as Hb.
  destruct (span (fun c => negb (mem_char c Url.hostEndingChars)) url) as [before after].
  simpl in Hb. rewrite (split_last_none _ _ Hb).
  assert (Hspan : span (fun c => negb (mem_char c Url.nonHostChars)) url
                  = (host +:+ ":" +:+ portS, rest)).
  { replace url with ((host +:+ ":" +:+ portS) +:+ rest)
      by (unfold url; by rewrite !append_assoc).
    apply span_app_stop.
    - rewrite !all_chars_app.
      rewrite (all_chars_impl _ _ _ host_char_in_host Hhost).
      rewrite (all_chars_impl _ _ _ digit_in_host Hport). reflexivity.
    - intros c r' ->. destruct Hstart as [? | [H | H]]; [done | |];
        apply starts_with_head in H as [r [= -> _]]; reflexivity. }
  rewrite Hspan. unfold Url.parseHost.
  change (host +:+ ":" +:+ portS) with (host +:+ String ":" portS).
  rewrite (split_last_app ":" host portS (all_chars_impl _ _ _ digit_not_colon Hport)).
  rewrite Hport. rewrite !eqb_empty, !bool_decide_eq_false_2 by done.
  unfold or_else. simpl. rewrite eqb_empty, bool_decide_eq_false_2 by done. simpl.
  rewrite (toLowerCase_id host (all_chars_impl _ _ _ host_char_no_upper Hhost)).
  destruct (Z.ltb_spec 255 (Z.of_nat (String.length host))); [lia | done].
Qed.

(** The tail of an address without fragment. *)
Lemma split_path_plain (rest : string) :
  all_chars is_plain_char rest = true →
  ∃ l r, l +:+ r = rest ∧
    Url.split_path rest =
      (if String.eqb l "" then Null else Str l, if String.eqb r "" then Null else Str r, Null).
Proof.
  intros Hrest. unfold Url.split_path.
  rewrite (span_all _ rest (all_chars_impl _ _ _ plain_char_not_hash Hrest)).
  pose proof (span_join (fun c => negb (Ascii.eqb c "?")) rest) as Hj.
  destruct (span (fun c => negb (Ascii.eqb c "?")) rest) as [l r]. simpl in Hj.
  exists l, r. split; [done|]. by destruct r.
Qed.

(** What the parser model makes of [scheme//host:port] followed by a
    path or a query, all in plain characters. *)
Lemma parse_plain (proto host portS rest : string) :
  proto = "http:" ∨ proto = "https:" →
  all_chars is_host_char host = true →
  host ≠ "" →
  (String.length host ≤ 255)%nat →
  all_chars is_digit portS = true →
  portS ≠ "" →
  all_chars is_plain_char rest = true →
  rest = "" ∨ starts_with "/" rest = true ∨ starts_with "?" rest = true →
  let u := Url.parse (proto +:+ "//" +:+ host +:+ ":" +:+ portS +:+ rest) in
  Url.protocol u = Str proto ∧ Url.hostname u = Str host ∧ Url.port u = Str portS ∧
  trimLeft (Url.path u) "/" = drop_leading "/" rest.
Proof.
  intros Hproto Hhost Hne Hlen Hport Hpne Hrest Hstart u.
  assert (Hp : Url.protocolPattern (proto +:+ "//" +:+ host +:+ ":" +:+ portS +:+ rest)
               = Some (proto, "//" +:+ host +:+ ":" +:+ portS +:+ rest)).
  { destruct Hproto as [-> | ->]; reflexivity. }
  assert (Hlow : toLowerCase proto = proto) by (destruct Hproto as [-> | ->]; reflexivity).
  assert (Hhl : Url.hostlessProtocol proto = false) by (destruct Hproto as [-> | ->]; reflexivity).
  assert (Hsl : Url.slashedProtocol proto = true) by (destruct Hproto as [-> | ->]; reflexivity).
  assert (Hslice : ∀ x, slice_from ("//" +:+ x) 2 = x).
  { intros x. unfold slice_from. simpl. rewrite Nat.sub_0_r. apply substring_full. }
  destruct (split_path_plain rest Hrest) as (l & r & Hlr & Hsplit).
  subst u. unfold Url.parse. rewrite Hp, Hlow. cbn [from_option]. rewrite Hhl, Hsl.
  rewrite bool_decide_eq_true_2 by eauto.
  change (starts_with "//" ("//" +:+ ?x)) with true.
  cbn [orb andb negb]. rewrite Hslice.
  rewrite (split_authority_plain host portS rest) by done.
  rewrite Hsplit. cbn [Url.protocol Url.hostname Url.port Url.path].
  split_and!; try done.
  assert (Hth : truthy (Str host) = true).
  { simpl. by rewrite eqb_empty, bool_decide_eq_false_2. }
  rewrite Hth. cbn [andb]. rewrite <- Hlr, <- drop_leading_slash_after.
  destruct l as [|c l], r as [|d r]; reflexivity.
Qed.

Lemma host_char_not_query c : is_host_char c = true → negb (Ascii.eqb c "?") = true.
Proof. by_cases_on_char c. Qed.
Lemma digit_not_query c : is_digit c = true → negb (Ascii.eqb c "?") = true.
Proof. by_cases_on_char c. Qed.

(** Decoding an address [scheme//host:port] followed by a path or a
    query, all in plain characters. *)
Lemma decode_plain (proto host portS rest : string) :
  proto = "http:" ∨ proto = "https:" →
  all_chars is_host_char host = true →
  host ≠ "" →
  (String.length host ≤ 255)%nat →
  all_chars is_digit portS = true →
  portS ≠ "" →
  all_chars is_plain_char rest = true →
  rest = "" ∨ starts_with "/" rest = true ∨ starts_with "?" rest = true →
  parseConnectionString (proto +:+ "//" +:+ host +:+ ":" +:+ portS +:+ rest) =
  {| protocol := Str proto; hostname := Str host; port := Str portS;
     path := Str (drop_leading "/" rest); namespace := Undefined;
     authorization := Str "" |}.
Proof.
  intros Hproto Hhost Hne Hlen Hport Hpne Hrest Hstart.
  pose proof (parse_plain proto host portS rest Hproto Hhost Hne Hlen Hport Hpne Hrest Hstart)
    as (Hu1 & Hu2 & Hu3 & Hu4).
  set (uri := proto +:+ "//" +:+ host +:+ ":" +:+ portS +:+ rest) in *.
  assert (Hat : all_chars (fun c => negb (Ascii.eqb c "@")) uri = true).
  { unfold uri. rewrite !all_chars_app.
    rewrite (all_chars_impl _ _ _ host_char_not_at Hhost).
    rewrite (all_chars_impl _ _ _ (fun c H => plain_char_not_at c (digit_plain c H)) Hport).
    rewrite (all_chars_impl _ _ _ plain_char_not_at Hrest).
    destruct Hproto as [-> | ->]; reflexivity. }
  assert (Hhttp : http_prefixed uri = true).
  { unfold uri. destruct Hproto as [-> | ->]; reflexivity. }
  assert (Htruthy : truthy (Str uri) = true).
  { unfold uri. destruct Hproto as [-> | ->]; reflexivity. }
  unfold parseConnectionString.
  rewrite (lastIndexOf_none _ _ Hat). cbn [Z.leb Z.compare Z.opp].
  change (0 <=? -1) with false. cbv iota. rewrite Hhttp. cbn [negb]. rewrite Htruthy.
  cbv zeta. rewrite Hu1, Hu2, Hu3, Hu4. reflexivity.
Qed.

Lemma string_of_Z_nonempty (n : Z) : string_of_Z n ≠ "".
Proof.
  unfold string_of_Z. destruct (Z.to_int n) as [d|d]; simpl.
  - destruct d; simpl; discriminate.
  - discriminate.
Qed.

Lemma truthy_to_string (v : value) : truthy v = true → to_string v ≠ "".
Proof.
  destruct v as [| |n|s]; simpl; try done.
  - intros _. apply string_of_Z_nonempty.
  - rewrite eqb_empty. intros H%negb_true_iff%bool_decide_eq_false. done.
Qed.

Lemma or_else_truthy (a b : value) : truthy b = true → truthy (or_else a b) = true.
Proof. intros Hb. unfold or_else. by destruct (truthy a) eqn:Ha. Qed.

(** No question mark, no index of one. *)
Lemma indexOf_query_none (s : string) :
  all_chars (fun c => negb (Ascii.eqb c "?")) s = true → indexOf s "?" = -1.
Proof.
  unfold indexOf. intros Hs.
  assert (H : String.index 0 "?" s = None); [|by rewrite H].
  induction s as [|c s IH]; [done|].
  cbn [all_chars] in Hs. apply andb_true_iff in Hs as [Hc Hs].
  cbn [String.index String.prefix]. rewrite (IH Hs).
  destruct (Ascii.ascii_dec "?" c) as [<-|]; [|done].
  by rewrite Ascii.eqb_refl in Hc.
Qed.

(** The address [toConnectionString] writes, part by part. *)
Lemma toConnectionString_parts (e : Endpoint) :
  toConnectionString e =
  scheme_of e +:+ "//" +:+ host_of e +:+ ":" +:+ port_of e +:+ (tail_of e +:+ auth_query e).
Proof.
  unfold toConnectionString, auth_query, scheme_of, host_of, port_of, tail_of.
  destruct (truthy (authorization e)).
  - rewrite !append_assoc. reflexivity.
  - rewrite append_empty_r. reflexivity.
Qed.

Lemma plain_port_is_text (e : Endpoint) :
  plain_endpoint e → field_text (port e) = port_of e.
Proof.
  intros [_ _ _ Hport _ _ _ _]. unfold port_of in *.
  destruct (port e); try done; vm_compute in Hport; discriminate.
Qed.

(** C1, the counterexample.  The endpoint [example.com:8088] with the
    authorization [secret] is encoded as
    [http://example.com:8088?auth=secret]; decoding that finds no
    prefix before an at sign, so the authorization comes back empty. *)
Lemma encode_decode_drops_authorization : ¬ round_trips endpoint_with_token.
Proof.
  unfold round_trips. intros (_ & _ & _ & _ & H).
  vm_compute in H. discriminate H.
Qed.

(** C1, as amended.  For every plain endpoint [e], decoding the encoding
    of [e] yields an endpoint with the host name of [e] (the loop-back
    address when [e] has none) and the port of [e] as a decimal string;
    its authorization is empty and it has no namespace: the path,
    the namespace and the authorization of [e] all come back inside the
    decoded path, which is [e]'s path followed by its namespace and the
    [auth] query, without leading slashes. *)
Theorem decode_encode_plain (e : Endpoint) :
  plain_endpoint e →
  parseConnectionString (toConnectionString e) =
    {| protocol := Str (scheme_of e);
       hostname := Str (host_of e);
       port := Str (port_of e);
       path := Str (drop_leading "/" (tail_of e +:+ auth_query e));
       namespace := Undefined;
       authorization := Str "" |} ∧
  same_field (port (parseConnectionString (toConnectionString e))) (port e) ∧
  (truthy (hostname e) = true →
   same_field (hostname (parseConnectionString (toConnectionString e))) (hostname e)).
Proof.
  intros He. pose proof (plain_port_is_text e He) as Hpt.
  destruct He as [Hscheme Hhost Hlen Hport Hpne Htail Hstart Hauth].
  assert (Hhne : host_of e ≠ "").
  { apply truthy_to_string, or_else_truthy. reflexivity. }
  assert (Hq : all_chars is_plain_char (auth_query e) = true).
  { unfold auth_query. destruct (truthy (authorization e)); [|done].
    rewrite !all_chars_app, Hauth. by destruct (0 <? _). }
  assert (Hrest : all_chars is_plain_char (tail_of e +:+ auth_query e) = true).
  { by rewrite all_chars_app, Htail, Hq. }
  assert (Hrs : tail_of e +:+ auth_query e = "" ∨
                starts_with "/" (tail_of e +:+ auth_query e) = true ∨
                starts_with "?" (tail_of e +:+ auth_query e) = true).
  { destruct Hstart as [Ht | [Ht | Ht]].
    - rewrite Ht. cbn [String.append]. unfold auth_query.
      destruct (truthy (authorization e)); [|by left]. right; right.
      rewrite Ht, append_empty_r, indexOf_query_none; [done|].
      rewrite !all_chars_app.
      rewrite (all_chars_impl _ _ _ host_char_not_query Hhost).
      rewrite (all_chars_impl _ _ _ digit_not_query Hport).
      destruct Hscheme as [-> | ->]; reflexivity.
    - right; left. apply starts_with_head in Ht as [r ->]. reflexivity.
    - right; right. apply starts_with_head in Ht as [r ->]. reflexivity. }
  assert (Hd := decode_plain (scheme_of e) (host_of e) (port_of e)
                  (tail_of e +:+ auth_query e)
                  Hscheme Hhost Hhne Hlen Hport Hpne Hrest Hrs).
  rewrite toConnectionString_parts, Hd. cbn [port hostname].
  split_and!; [done | |].
  - unfold same_field. by rewrite Hpt.
  - intros Ht. unfold same_field, host_of, or_else. rewrite Ht.
    destruct (hostname e); done.
Qed.

Lemma decode_encode_plain_witness :
  plain_endpoint endpoint_sample ∧
  parseConnectionString (toConnectionString endpoint_sample) =
    {| protocol := Str "https:"; hostname := Str "pm2.example.com"; port := Str "9000";
       path := Str "gui/sys?auth=secret"; namespace := Undefined;
       authorization := Str "" |}.
Proof.
  assert (H : plain_endpoint endpoint_sample).
  { constructor; vm_compute; first [reflexivity | lia | discriminate | by right | by left
                                   | right; left; reflexivity]. }
  split; [exact H|].
  exact (proj1 (decode_encode_plain endpoint_sample H)).
Defined.

(** ** The defaults of [parseConnectionString] *)

Lemma parseHost_port (host : string) :
  (Url.parseHost host).2 = Null ∨ ∃ p, (Url.parseHost host).2 = Str p.
Proof.
  unfold Url.parseHost. repeat case_match; simpl; eauto.
Qed.

Lemma split_authority_port (rest : string) :
  (Url.split_authority rest).1.2 = Null ∨ ∃ p, (Url.split_authority rest).1.2 = Str p.
Proof.
  unfold Url.split_authority.
  destruct (span _ rest) as [before after].
  match goal with |- context [span ?p ?x] => destruct (span p x) as [host rest'] end.
  pose proof (parseHost_port host) as H.
  destruct (Url.parseHost host) as [h p]. exact H.
Qed.

Lemma parse_port (url : string) :
  Url.port (Url.parse url) = Null ∨ ∃ p, Url.port (Url.parse url) = Str p.
Proof.
  unfold Url.parse.
  destruct (match Url.protocolPattern url with
            | Some (p, r) => (Some (toLowerCase p), r)
            | None => (None, url)
            end) as [proto rest].
  match goal with |- context [if ?b then Url.split_authority ?x else _] =>
    pose proof (split_authority_port x) as H;
    destruct b; [destruct (Url.split_authority x) as [[h p] r] | ]
  end.
  - simpl in H. destruct (Url.split_path r) as [[? ?] ?]. exact H.
  - match goal with |- context [Url.split_path ?x] =>
      destruct (Url.split_path x) as [[? ?] ?] end.
    by left.
Qed.

(** The string handed to the parser is never empty, so the branch that
    overwrites the defaults always runs: the decoded port is what the
    parser found, [null] or a string, and never the number [8088]. *)
Lemma parse_port_never_default (s : string) :
  port (parseConnectionString s) ≠ Num 8088.
Proof.
  unfold parseConnectionString.
  assert (H : ∀ cs auth,
    port (if truthy (Str (if negb (http_prefixed cs) then "http://" +:+ cs else cs))
          then
            {| hostname := Url.hostname (Url.parse (if negb (http_prefixed cs) then "http://" +:+ cs else cs));
               port := Url.port (Url.parse (if negb (http_prefixed cs) then "http://" +:+ cs else cs));
               path := Str (trimLeft (Url.path (Url.parse (if negb (http_prefixed cs) then "http://" +:+ cs else cs))) "/");
               protocol := Url.protocol (Url.parse (if negb (http_prefixed cs) then "http://" +:+ cs else cs));
               authorization := auth; namespace := Undefined |}
          else {| port := Num 8088; hostname := Str "127.0.0.1"; authorization := auth;
                  protocol := Undefined; path := Undefined; namespace := Undefined |})
    ≠ Num 8088).
  { intros cs auth.
    assert (Ht : truthy (Str (if negb (http_prefixed cs) then "http://" +:+ cs else cs)) = true).
    { destruct (http_prefixed cs) eqn:Hp; cbn [negb]; [|reflexivity].
      destruct cs; [discriminate | reflexivity]. }
    rewrite Ht. cbn [port].
    destruct (parse_port (if negb (http_prefixed cs) then "http://" +:+ cs else cs))
      as [-> | [p ->]]; discriminate. }
  destruct (0 <=? lastIndexOf s "@"); apply H.
Qed.

(** Without an at sign the authorization stays empty. *)
Lemma parse_authorization_default (s : string) :
  all_chars (fun c => negb (Ascii.eqb c "@")) s = true →
  authorization (parseConnectionString s) = Str "".
Proof.
  intros Hs. unfold parseConnectionString.
  rewrite (lastIndexOf_none _ _ Hs). change (0 <=? -1) with false. cbv iota.
  by destruct (truthy _).
Qed.

(** C7.  The code at the inputs where it departs from the claim: the
    string [localhost] gives no port, and decoding it yields the port
    [null], not [8088]; the string [:8088] gives no host name, and
    decoding it yields the empty host name, not the loop-back address;
    the empty string gives neither, and decoding it yields [null] and the
    empty host name.  None of them has an at sign, and the
    authorization is empty. *)
Theorem parse_defaults_overwritten :
  port (parseConnectionString "localhost") = Null ∧
  hostname (parseConnectionString ":8088") = Str "" ∧
  port (parseConnectionString "") = Null ∧
  hostname (parseConnectionString "") = Str "" ∧
  authorization (parseConnectionString "localhost") = Str "" ∧
  authorization (parseConnectionString ":8088") = Str "" ∧
  authorization (parseConnectionString "") = Str "".
Proof. vm_compute. by split_and!. Qed.
(** ** The environment filter *)

Lemma prefix_starts_with (p s : string) : String.prefix p s = starts_with p s.
Proof.
  revert s. induction p as [|a p IH]; intros [|b s]; simpl; try done.
  rewrite <- IH. destruct (Ascii.ascii_dec a b) as [->|Hne].
  - by rewrite Ascii.eqb_refl.
  - apply Ascii.eqb_neq in Hne. by rewrite Hne.
Qed.

Lemma slice_first_underscore (key : string) :
  String.eqb (slice key 0 1) "_" = starts_with "_" key.
Proof.
  destruct key as [|c [|d r]]; try reflexivity;
    unfold slice; cbn [Z.to_nat Nat.sub String.substring starts_with];
    rewrite andb_true_r; cbn [String.eqb]; rewrite Ascii.eqb_sym;
    by destruct (Ascii.eqb _ _).
Qed.

Lemma indexOf_axm (key : string) :
  (indexOf key "axm_" =? 0) = starts_with "axm_" key.
Proof.
  unfold indexOf. destruct key as [|c r]; [reflexivity|].
  cbn [String.index]. rewrite prefix_starts_with.
  destruct (starts_with "axm_" (String c r)); [reflexivity|].
  destruct (String.index 0 "axm_" r); [|reflexivity].
  apply Z.eqb_neq. lia.
Qed.

Lemma denylisted (key : string) :
  negb (Z.lnot (array_indexOf ["versioning"; "command"] key) =? 0) = false ↔
  key ≠ "versioning" ∧ key ≠ "command".
Proof.
  cbn [array_indexOf].
  destruct (String.eqb_spec "versioning" key) as [<-|H1];
    [split; [discriminate | intros [[] _]; done]|].
  destruct (String.eqb_spec "command" key) as [<-|H2];
    [split; [discriminate | intros [_ []]; done]|].
  split; [intros _; split; congruence | reflexivity].
Qed.

Lemma first_code (key : string) :
  nan_le (charCodeAt0 key) 90 = false ↔ key = "" ∨ first_code_above_90 key.
Proof.
  unfold first_code_above_90. destruct key as [|c r]; simpl.
  - split; [by left | done].
  - rewrite Z.leb_gt. split.
    + intros H. right. eauto.
    + intros [? | (c' & r' & [= <- <-] & H)]; done.
Qed.

(** The test of the loop, as a condition on the key. *)
Lemma ignored_false_iff (key : string) : ignored key = false ↔ retained key.
Proof.
  unfold ignored, retained.
  rewrite !orb_false_iff, slice_first_underscore, indexOf_axm, denylisted, first_code.
  tauto.
Qed.

(** The loop over a list of fields of [env] whose keys differ. *)
Lemma filter_loop (env base : gmap string value) (l : list (string * value)) (key : string) :
  (∀ k x, (k, x) ∈ l → env !! k = Some x) →
  foldr (fun '(k, _) (acc : gmap string value) =>
           if ignored k then acc else <[k := field env k]> acc) base l !! key =
  if bool_decide (key ∈ l.*1) && negb (ignored key) then env !! key else base !! key.
Proof.
  intros Hl. induction l as [|[k x] l IH]; [done|].
  cbn [foldr fmap list_fmap].
  assert (Hk : env !! k = Some x) by (apply Hl; by left).
  assert (IH' := IH (fun k' x' H => Hl k' x' (list_elem_of_further _ _ _ H))). clear IH.
  destruct (decide (key = k)) as [->|Hne].
  - rewrite (bool_decide_eq_true_2 (k ∈ _ :: _)) by (simpl; left).
    destruct (ignored k) eqn:Hi; cbn [negb andb].
    + rewrite IH'. by rewrite ?Hi, ?andb_false_r.
    + rewrite lookup_insert_eq. unfold field. by rewrite Hk.
  - assert (Hin : bool_decide (key ∈ (k :: l.*1)) = bool_decide (key ∈ l.*1)).
    { apply bool_decide_ext. rewrite elem_of_cons. split; [intros [?|?]; done | by right]. }
    cbn [fst]. rewrite Hin.
    destruct (ignored k); [done|]. by rewrite lookup_insert_ne.
Qed.

(** Every field of the filtered environment. *)
Lemma filter_env_lookup (env : gmap string value) (key : string) :
  filter_env env !! key =
  if bool_decide (is_Some (env !! key)) && negb (ignored key) then env !! key
  else ({[ "user" := field env "USER" ]} : gmap string value) !! key.
Proof.
  unfold filter_env. rewrite map_fold_foldr.
  rewrite (filter_loop env _ (map_to_list env) key).
  - assert (H : bool_decide (key ∈ (map_to_list env).*1) = bool_decide (is_Some (env !! key))).
    { apply bool_decide_ext. rewrite list_elem_of_fmap. split.
      - intros [[k x] [-> H%elem_of_map_to_list]]. eauto.
      - intros [x Hx]. exists (key, x). split; [done|]. by apply elem_of_map_to_list. }
    by rewrite H.
  - intros k x H. by apply elem_of_map_to_list.
Qed.

(** C3, the counterexample.  With [{USER: 'alice', user: 'bob'}] the
    loop copies the field [user] of the environment over the one that was
    copied from [USER]: the result is [{user: 'bob'}]. *)
Lemma filter_env_user_overwritten :
  ¬ filter_as_claimed env_with_user (filter_env env_with_user).
Proof.
  intros [H _]. vm_compute in H. discriminate H.
Qed.

(** C3, as amended.  The filtered environment contains exactly: every
    original field whose key does not start with [_] or [axm_], is not
    [versioning] or [command], and is empty or starts with a character
    whose code is above 90, each with its original value; and, when the
    environment has no field [user] of its own, the field [user] copied
    from [USER].  The environment of the example is filtered to
    [{user: 'alice', user_key: 'v'}]. *)
Theorem filter_env_contents (env : gmap string value) (key : string) :
  (∀ v, env !! key = Some v → retained key → filter_env env !! key = Some v) ∧
  (env !! "user" = None → filter_env env !! "user" = Some (field env "USER")) ∧
  (key ≠ "user" → env !! key = None ∨ ¬ retained key → filter_env env !! key = None) ∧
  filter_env env_example = {[ "user" := Str "alice"; "user_key" := Str "v" ]}.
Proof.
  split_and!.
  - intros v Hv Hr%ignored_false_iff. rewrite filter_env_lookup, Hv, Hr.
    by rewrite bool_decide_eq_true_2 by eauto.
  - intros Hu. rewrite filter_env_lookup, Hu.
    rewrite bool_decide_eq_false_2 by (by intros [? ?]). simpl.
    by rewrite lookup_singleton_eq.
  - intros Hne H. rewrite filter_env_lookup.
    assert (Hb : bool_decide (is_Some (env !! key)) && negb (ignored key) = false).
    { destruct H as [-> | H].
      - by rewrite bool_decide_eq_false_2 by (by intros [? ?]).
      - destruct (ignored key) eqn:Hi; [by rewrite andb_false_r|].
        by apply ignored_false_iff in Hi. }
    rewrite Hb. by rewrite lookup_singleton_ne.
  - by vm_compute.
Qed.

Lemma filter_env_contents_witness :
  (retained "user_key" ∧ filter_env env_example !! "user_key" = Some (Str "v")) ∧
  filter_env env_example !! "user" = Some (Str "alice") ∧
  (¬ retained "PORT" ∧ filter_env env_example !! "PORT" = None).
Proof.
  assert (Hr : retained "user_key").
  { apply ignored_false_iff. reflexivity. }
  assert (Hp : ¬ retained "PORT").
  { intros H%ignored_false_iff. vm_compute in H. discriminate H. }
  split; [split; [exact Hr|] | split; [|split; [exact Hp|]]].
  - apply (proj1 (filter_env_contents env_example "user_key") (Str "v")); [reflexivity | exact Hr].
  - apply (proj1 (proj2 (filter_env_contents env_example "user"))). reflexivity.
  - apply (proj1 (proj2 (proj2 (filter_env_contents env_example "PORT")))); [done | by right].
Defined.
(** ** What a handler leaves alone *)

Section Frame.

(** [R w w']: what the change from [w] to [w'] leaves alone. *)
Variable R : World → World → Prop.
Hypothesis R_refl : ∀ w, R w w.
Hypothesis R_trans : ∀ w1 w2 w3, R w1 w2 → R w2 w3 → R w1 w3.

Local Abbreviation keeps := (keeps R).

Lemma keeps_ret {A} (a : A) : keeps (ret a).
Proof. intros w. apply R_refl. Qed.

Lemma keeps_throw {A} (e : exn) : keeps (throw e : M A).
Proof. intros w. apply R_refl. Qed.

Lemma keeps_unbound {A} (name : string) : keeps (unbound name : M A).
Proof. intros w. apply R_refl. Qed.

Lemma keeps_get {A} (f : World → A) : keeps (get f).
Proof. intros w. apply R_refl. Qed.

Lemma keeps_modify (f : World → World) : (∀ w, R w (f w)) → keeps (modify f).
Proof. intros Hf w. apply Hf. Qed.

Lemma keeps_bind {A B} (m : M A) (f : A → M B) :
  keeps m → (∀ a, keeps (f a)) → keeps (bind m f).
Proof.
  intros Hm Hf w. unfold bind. specialize (Hm w).
  destruct (m w) as [a w'|e w']; simpl in *; [|done].
  eapply R_trans; [exact Hm | apply Hf].
Qed.

Lemma keeps_for_each {A} (l : list A) (body : A → M unit) :
  (∀ x, keeps (body x)) → keeps (for_each l body).
Proof.
  intros Hb. induction l as [|x l IH]; simpl.
  - apply keeps_ret.
  - apply keeps_bind; [apply Hb | intros _; apply IH].
Qed.

Lemma keeps_fold_each {A B} (l : list A) (acc : B) (body : B → A → M B) :
  (∀ b x, keeps (body b x)) → keeps (fold_each l acc body).
Proof.
  intros Hb. revert acc. induction l as [|x l IH]; intros acc; simpl.
  - apply keeps_ret.
  - apply keeps_bind; [apply Hb | intros b; apply IH].
Qed.

Lemma keeps_toString (v : value) : keeps (toString v).
Proof. destruct v; simpl; first [apply keeps_throw | apply keeps_ret]. Qed.

(** A handler run to its end keeps [R] when noting what it throws
    does. *)
Lemma keeps_complete (h : M unit) (w : World) :
  keeps h → (∀ e, keeps (note (Uncaught e))) → R w (complete h w).
Proof.
  intros Hh Hn. unfold complete. specialize (Hh w).
  destruct (h w) as [[] w'|e w']; simpl in *; [done|].
  eapply R_trans; [exact Hh | apply (Hn e)].
Qed.

End Frame.

(** Splits a handler into the primitives it is made of; [leaf] shows
    that a primitive keeps the relation, [refl] and [trans] that the
    relation is reflexive and transitive, and [known] closes the parts
    that a lemma covers. *)
Ltac keeps_with refl trans leaf known :=
  repeat first
    [ progress intros
    | solve [known]
    | apply keeps_ret; exact refl
    | apply keeps_throw; exact refl
    | apply keeps_unbound; exact refl
    | apply keeps_get; exact refl
    | apply keeps_toString; exact refl
    | apply keeps_bind; [exact trans | |]
    | apply keeps_for_each; [exact refl | exact trans |]
    | apply keeps_fold_each; [exact refl | exact trans |]
    | apply keeps_modify; solve [leaf]
    | match goal with
      | |- keeps _ (match ?x with _ => _ end) => destruct x
      | |- keeps _ (let _ := _ in _) => cbv zeta
      end ].
(** ** The broadcast gate *)

Section Presence.

Variable ansiHTML : string → string.
Variable totalmem : Z.

Lemma same_presence_refl (w : World) : same_presence w w.
Proof. split; reflexivity. Qed.

Lemma same_presence_trans (w1 w2 w3 : World) :
  same_presence w1 w2 → same_presence w2 w3 → same_presence w1 w3.
Proof. intros [? ?] [? ?]. split; congruence. Qed.

Local Ltac presence_leaf :=
  intros; split; cbn; try reflexivity;
  repeat match goal with |- context [match ?x with _ => _ end] => destruct x end;
  reflexivity.

Local Ltac presence :=
  keeps_with same_presence_refl same_presence_trans presence_leaf fail.

Lemma note_presence (o : obs) : keeps same_presence (note o).
Proof. unfold note. presence. Qed.

Lemma call_presence (r : request) : keeps same_presence (call r).
Proof. unfold call, note. presence. Qed.

Lemma broadcast_presence event data nsp : keeps same_presence (_broadcast event data nsp).
Proof. unfold _broadcast, note. presence. Qed.

Lemma throttleRefresh_presence : keeps same_presence _throttleRefresh.
Proof.
  unfold _throttleRefresh, clearTimeout_throttle, setTimeout_throttle, fresh_handle.
  presence.
Qed.

Lemma nextTick_presence tick continuously :
  keeps same_presence (_nextTick tick continuously).
Proof. unfold _nextTick, _systemStat. presence; apply call_presence. Qed.

Lemma killTail_presence id : keeps same_presence (killTail id).
Proof. unfold killTail. presence; apply note_presence. Qed.

(** Every handler but the two of the system namespace's connections
    keeps the presence flag and the system sockets. *)
Lemma handlers_presence :
  (∀ sid, keeps same_presence (sendProcs sid)) ∧
  (∀ sid action id, keeps same_presence (sys_action sid action id)) ∧
  (∀ sid pm_id keepANSI, keeps same_presence (startTailProcess sid pm_id keepANSI)) ∧
  (∀ pm_id, keeps same_presence (_killTailProcess pm_id)) ∧
  keeps same_presence killObserver ∧
  (∀ sid pid, keeps same_presence (runObserver sid pid)) ∧
  keeps same_presence throttle_fired ∧
  (∀ pid, keeps same_presence (runTimer pid)) ∧
  (∀ tick r, keeps same_presence (systemStat_done tick r)) ∧
  (∀ pid r, keeps same_presence (usage_done totalmem pid r)) ∧
  (∀ r, keeps same_presence (list_done r)) ∧
  (∀ sid err version, keeps same_presence (version_done sid err version)) ∧
  (∀ sid id r, keeps same_presence (action_done sid id r)) ∧
  (∀ pm_id keepANSI r, keeps same_presence (tail_opened pm_id keepANSI r)) ∧
  (∀ pm_id keepANSI r, keeps same_presence (tail_lines ansiHTML pm_id keepANSI r)).
Proof.
  split_and!; intros;
    unfold sendProcs, sys_action, startTailProcess, _killTailProcess, killObserver,
      runObserver, throttle_fired, runTimer, systemStat_done, usage_done, list_done,
      version_done, action_done, tail_opened, tail_lines, emitError_log, emitError_proc,
      nextTick_cb, _refreshProcs, set_prop, setInterval_usage, clearInterval_usage,
      setTimeout_tick, fresh_handle;
    presence;
    first [ apply note_presence | apply call_presence | apply broadcast_presence
          | apply throttleRefresh_presence | apply killTail_presence ].
Qed.

(** After the connection handler of the system namespace the flag is
    down and the system sockets are as the transport left them. *)
Lemma connectSysSock_presence (sid : nat) (w : World) :
  _noClient (complete (_connectSysSock sid) w) = false ∧
  sys_sockets (complete (_connectSysSock sid) w) = sys_sockets w.
Proof.
  unfold _connectSysSock.
  match goal with |- context [complete (bind (modify ?f) ?k) ?w] =>
    change (complete (bind (modify f) k) w) with (complete (k tt) (f w));
    assert (Hk : keeps same_presence (k tt))
  end.
  { destruct handlers_presence as (Hsend & _).
    unfold _pm2Ver. presence;
      first [ apply Hsend | apply call_presence | apply broadcast_presence
            | apply nextTick_presence ]. }
  destruct (keeps_complete same_presence same_presence_trans
              _ (set_noClient false w) Hk (fun e => note_presence (Uncaught e))) as [H1 H2].
  split; [by rewrite H1 | by rewrite H2].
Qed.

(** A turn of the event loop keeps the flag in step with the system
    sockets. *)
Lemma step_presence (t : Z) (ev : event) (w w' : World) :
  presence_tracked w →
  step ansiHTML totalmem t ev w = Some w' →
  presence_tracked w'.
Proof.
  unfold step. intros Hw. destruct (clock w <=? t); [|done].
  assert (Hc : presence_tracked (set_clock t w)) by exact Hw.
  revert Hc. generalize (set_clock t w). clear Hw w. intros w Hw.
  destruct (dispatch ansiHTML totalmem t ev w) as [[w1 h]|] eqn:Hd; [|done].
  intros [= <-].
  destruct handlers_presence as
    (H1 & H2 & H3 & H4 & H5 & H6 & H7 & H8 & H9 & H10 & H11 & H12 & H13 & H14 & H15).
  assert (Hframe : ∀ w1 h, same_presence w w1 → keeps same_presence h →
                           presence_tracked (complete h w1)).
  { intros w2 h2 [Ha Hb] Hh.
    destruct (keeps_complete same_presence same_presence_trans
                h2 w2 Hh (fun e => note_presence (Uncaught e))) as [Hc Hd'].
    unfold presence_tracked in *. by rewrite Hc, Hd', Ha, Hb. }
  destruct ev; cbn [dispatch] in Hd; unfold answered in Hd;
    repeat match type of Hd with
           | context [match ?x with _ => _ end] => destruct x eqn:?; try discriminate Hd
           end;
    injection Hd as <- <-;
    try (apply Hframe;
         [ by (split; cbn; repeat case_match)
         | by (unfold emitError_log;
               auto using throttleRefresh_presence, nextTick_presence, broadcast_presence,
                 keeps_ret, same_presence_refl) ]).
  - (* a connection to the system namespace *)
    destruct (connectSysSock_presence sid
                (set_sys_sockets (sys_sockets w ++ [{| sock_id := sid; props := ∅ |}]) w))
      as [Hn Hs].
    unfold presence_tracked. rewrite Hn, Hs. cbn.
    rewrite bool_decide_eq_false_2; [done|]. by destruct (sys_sockets w).
  - (* a disconnection from the system namespace *)
    unfold presence_tracked, complete, sys_disconnect, modify. cbn.
    by destruct (filter _ (sys_sockets w)).
Qed.

(** [run] leaves the flag up and the system namespace empty. *)
Lemma started_presence (refresh : value) (t0 : Z) :
  presence_tracked (started refresh t0).
Proof. reflexivity. Qed.

(** In every world the monitor can be in, the flag [_noClient] is up
    exactly when no socket is connected to the system namespace. *)
Lemma steps_presence (trace : list (Z * event)) (w w' : World) :
  presence_tracked w →
  steps ansiHTML totalmem trace w = Some w' →
  presence_tracked w'.
Proof.
  revert w. induction trace as [|[t ev] trace IH]; intros w Hw; simpl.
  - by intros [= <-].
  - destruct (step ansiHTML totalmem t ev w) as [w1|] eqn:Hs; [|done].
    apply IH. by eapply step_presence.
Qed.

Lemma quiet_refl (w : World) : quiet w w.
Proof. by intros ?. Qed.

Lemma quiet_trans (w1 w2 w3 : World) : quiet w1 w2 → quiet w2 w3 → quiet w1 w3.
Proof.
  intros H12 H23 H1. destruct (H12 H1) as [H2 He]. destruct (H23 H2) as [H3 He'].
  split; [done | congruence].
Qed.

Local Ltac quiet_leaf :=
  intros; intros ?; split; [by cbn|]; unfold emissions; cbn;
  repeat match goal with |- context [match ?x with _ => _ end] => destruct x end;
  rewrite ?List.filter_app; cbn; rewrite ?app_nil_r; reflexivity.

Local Ltac quietly known := keeps_with quiet_refl quiet_trans quiet_leaf known.

Lemma note_quiet (o : obs) : is_emit o = false → keeps quiet (note o).
Proof.
  intros Ho. unfold note. apply keeps_modify. intros w Hn. split; [done|].
  unfold emissions. cbn. rewrite List.filter_app. cbn. rewrite Ho. by rewrite app_nil_r.
Qed.

(** The gate: with the flag up, [_broadcast] emits nothing. *)
Lemma broadcast_quiet event data nsp : keeps quiet (_broadcast event data nsp).
Proof.
  intros w Hn. unfold _broadcast, bind, get. rewrite Hn. by split.
Qed.

Lemma throttleRefresh_quiet : keeps quiet _throttleRefresh.
Proof.
  unfold _throttleRefresh, clearTimeout_throttle, setTimeout_throttle, fresh_handle.
  quietly fail.
Qed.

Lemma nextTick_quiet tick continuously : keeps quiet (_nextTick tick continuously).
Proof. unfold _nextTick, _systemStat, call, note. quietly fail. Qed.

Lemma killTail_quiet id : keeps quiet (killTail id).
Proof. unfold killTail, note. quietly fail. Qed.

(** While the system namespace is empty, a turn that does not connect a
    client to it emits nothing and leaves it empty. *)
Lemma step_quiet (t : Z) (ev : event) (w w' : World) :
  presence_tracked w →
  sys_sockets w = [] →
  is_system_connect ev = false →
  step ansiHTML totalmem t ev w = Some w' →
  emissions w' = emissions w ∧ sys_sockets w' = [].
Proof.
  unfold step. intros Hw Hsys Hev. destruct (clock w <=? t); [|done].
  assert (Hn : _noClient (set_clock t w) = true).
  { unfold presence_tracked in Hw. cbn. by rewrite Hw, Hsys. }
  assert (He : emissions (set_clock t w) = emissions w) by reflexivity.
  assert (Hs : sys_sockets (set_clock t w) = []) by exact Hsys.
  revert Hn He Hs. generalize (set_clock t w). intros w0 Hn He Hs.
  destruct (dispatch ansiHTML totalmem t ev w0) as [[w1 h]|] eqn:Hd; [|done].
  intros [= <-].
  destruct handlers_presence as
    (H1 & H2 & H3 & H4 & H5 & H6 & H7 & H8 & H9 & H10 & H11 & H12 & H13 & H14 & H15).
  assert (Hframe : ∀ w1 h,
            _noClient w1 = true → emissions w1 = emissions w0 → sys_sockets w1 = [] →
            keeps quiet h → keeps same_presence h →
            emissions (complete h w1) = emissions w ∧ sys_sockets (complete h w1) = []).
  { intros w2 h2 Hn2 He2 Hs2 Hq Hp.
    destruct (keeps_complete quiet quiet_trans h2 w2 Hq
                (fun e => note_quiet (Uncaught e) eq_refl) Hn2) as [_ Hq'].
    destruct (keeps_complete same_presence same_presence_trans h2 w2 Hp
                (fun e => note_presence (Uncaught e))) as [_ Hp'].
    split; congruence. }
  destruct ev; cbn [dispatch is_system_connect] in Hd, Hev; unfold answered in Hd;
    repeat match type of Hd with
           | context [match ?x with _ => _ end] => destruct x eqn:?; try discriminate Hd
           end;
    try discriminate Hev;
    injection Hd as <- <-;
    try (apply Hframe;
         [ by (cbn; repeat case_match) | by (cbn; repeat case_match)
         | by (cbn; repeat case_match)
         | unfold sendProcs, sys_action, startTailProcess, _killTailProcess,
             killObserver, runObserver, throttle_fired, runTimer, systemStat_done,
             usage_done, list_done, version_done, action_done, tail_opened, tail_lines,
             emitError_log, emitError_proc, nextTick_cb, _refreshProcs, set_prop,
             setInterval_usage, clearInterval_usage, setTimeout_tick, fresh_handle,
             call, note;
           quietly ltac:(first [ apply broadcast_quiet | apply throttleRefresh_quiet
                               | apply killTail_quiet | apply nextTick_quiet ])
         | by (unfold emitError_log;
               auto using throttleRefresh_presence, nextTick_presence, broadcast_presence,
                 keeps_ret, same_presence_refl) ]).
  (* a disconnection from the system namespace: nobody is connected *)
  match goal with H : connected SYS _ w0 = true |- _ =>
    unfold connected in H; cbn in H; rewrite Hs in H; discriminate H end.
Qed.

(** C2.  In every world the running monitor can be in, while no socket
    is connected to the system namespace: a call of [_broadcast] emits
    nothing, whatever the event, the data and the target namespace, and
    whoever is connected to the log and the process namespaces (it
    returns and the world is as before); and no turn of the event loop
    other than a client connecting to the system namespace emits
    anything to any namespace. *)
Theorem broadcast_needs_system_client
    (refresh : value) (t0 : Z) (trace : list (Z * event)) (w : World) :
  steps ansiHTML totalmem trace (started refresh t0) = Some w →
  sys_sockets w = [] →
  (∀ (event : string) (data : payload) (nsp : option Nsp),
     _broadcast event data nsp w = Ok tt w) ∧
  (∀ (t : Z) (ev : event) (w' : World),
     is_system_connect ev = false →
     step ansiHTML totalmem t ev w = Some w' →
     emissions w' = emissions w ∧ sys_sockets w' = []).
Proof.
  intros Hsteps Hsys.
  pose proof (steps_presence trace _ w (started_presence refresh t0) Hsteps) as Hp.
  split.
  - intros event data nsp. unfold presence_tracked in Hp. rewrite Hsys in Hp.
    unfold _broadcast, bind, get. by rewrite Hp.
  - intros t ev w' Hev Hs. by eapply step_quiet.
Qed.

End Presence.

(** Two clients, one on the log namespace and one on the process
    namespace, none on the system namespace. *)
Lemma broadcast_needs_system_client_witness :
  match steps (fun s => s) 1024 [(10, Connect LOG 7); (20, Connect PROC 8)]
          (started Undefined 0) with
  | Some w =>
      sys_sockets w = [] ∧ log_sockets w ≠ [] ∧ proc_sockets w ≠ [] ∧
      _broadcast "log" (LogData (Num 42) "hello") (Some LOG) w = Ok tt w
  | None => False
  end.
Proof.
  pose proof (broadcast_needs_system_client (fun s => s) 1024 Undefined 0
                [(10, Connect LOG 7); (20, Connect PROC 8)]) as T.
  cbv beta in T.
  destruct (steps _ _ _ _) as [w|] eqn:Hs; [|vm_compute in Hs; discriminate Hs].
  assert (Hw : sys_sockets w = [] ∧ log_sockets w ≠ [] ∧ proc_sockets w ≠ []).
  { vm_compute in Hs. injection Hs as <-. split_and!; [reflexivity | discriminate | discriminate]. }
  destruct Hw as (H1 & H2 & H3). split_and!; [exact H1 | exact H2 | exact H3 |].
  exact (proj1 (T w eq_refl H1) "log" (LogData (Num 42) "hello") (Some LOG)).
Defined.
(** ** The throttle *)

Section Throttle.

Variable ansiHTML : string → string.
Variable totalmem : Z.

Lemma same_clock_refl (w : World) : same_clock w w.
Proof. reflexivity. Qed.

Lemma same_clock_trans (w1 w2 w3 : World) :
  same_clock w1 w2 → same_clock w2 w3 → same_clock w1 w3.
Proof. unfold same_clock. congruence. Qed.

Local Ltac clock_leaf :=
  intros; unfold same_clock; cbn; try reflexivity;
  repeat match goal with |- context [match ?x with _ => _ end] => destruct x end;
  reflexivity.

Local Ltac clock := keeps_with same_clock_refl same_clock_trans clock_leaf fail.

Local Ltac unfold_handlers :=
  unfold _connectSysSock, sys_disconnect, sendProcs, sys_action, startTailProcess,
    _killTailProcess, killTail, killObserver, runObserver, throttle_fired, runTimer,
    systemStat_done, usage_done, list_done, version_done, action_done, tail_opened,
    tail_lines, emitError_log, emitError_proc, nextTick_cb, _refreshProcs, _pm2Ver,
    _nextTick, _systemStat, _throttleRefresh, _broadcast, set_prop, setInterval_usage,
    clearInterval_usage, setTimeout_tick, setTimeout_throttle, clearTimeout_throttle,
    fresh_handle, call, note.

(** No handler touches the clock. *)
Lemma handler_clock (t : Z) (ev : event) (w w' : World) (h : M unit) :
  dispatch ansiHTML totalmem t ev w = Some (w', h) →
  clock w' = clock w ∧ keeps same_clock h.
Proof.
  intros Hd.
  destruct ev; cbn [dispatch] in Hd; unfold answered in Hd;
    repeat match type of Hd with
           | context [match ?x with _ => _ end] => destruct x eqn:?; try discriminate Hd
           end;
    injection Hd as <- <-;
    (split; [by (cbn; repeat case_match) | unfold_handlers; clock]).
Qed.

Lemma note_clock (o : obs) : keeps same_clock (note o).
Proof. unfold note. clock. Qed.

(** After a turn at time [t] the clock shows [t]. *)
Lemma step_clock (t : Z) (ev : event) (w w' : World) :
  step ansiHTML totalmem t ev w = Some w' → clock w ≤ t ∧ clock w' = t.
Proof.
  unfold step. destruct (Z.leb_spec (clock w) t) as [Hle|]; [|done].
  destruct (dispatch _ _ t ev (set_clock t w)) as [[w1 h]|] eqn:Hd; [|done].
  intros [= <-]. split; [done|].
  destruct (handler_clock _ _ _ _ _ Hd) as [Hc Hh].
  pose proof (keeps_complete same_clock same_clock_trans h w1 Hh
                (fun e => note_clock (Uncaught e))) as Hk.
  unfold same_clock in Hk. rewrite Hk, Hc. reflexivity.
Qed.

Lemma same_throttle_refl (w : World) : same_throttle w w.
Proof. by split_and!. Qed.

Lemma same_throttle_trans (w1 w2 w3 : World) :
  same_throttle w1 w2 → same_throttle w2 w3 → same_throttle w1 w3.
Proof. intros (? & ? & ?) (? & ? & ?). split_and!; congruence. Qed.

Local Ltac throttle_leaf :=
  intros; split_and!; unfold refreshes; cbn;
  repeat match goal with |- context [match ?x with _ => _ end] => destruct x end;
  rewrite ?List.filter_app; cbn; rewrite ?app_nil_r; reflexivity.

Local Ltac throttle := keeps_with same_throttle_refl same_throttle_trans throttle_leaf fail.

Lemma note_throttle (o : obs) : is_refresh o = false → keeps same_throttle (note o).
Proof.
  intros Ho. unfold note. apply keeps_modify. intros w. split_and!; try done.
  unfold refreshes. cbn. rewrite List.filter_app. cbn. rewrite Ho. by rewrite app_nil_r.
Qed.

(** [_throttleRefresh] clears the pending timer of the throttle, if
    any, and arms a new one, due 500ms from now. *)
Lemma throttleRefresh_effect (w : World) :
  _throttle (complete _throttleRefresh w) = Some (next_handle w) ∧
  timeouts_throttle (complete _throttleRefresh w) =
    <[next_handle w := clock w + 500]>
      (match _throttle w with
       | Some h => delete h (timeouts_throttle w)
       | None => timeouts_throttle w
       end) ∧
  refreshes (complete _throttleRefresh w) = refreshes w.
Proof.
  unfold complete, _throttleRefresh, clearTimeout_throttle, setTimeout_throttle,
    fresh_handle, bind, get, modify, ret.
  destruct (_throttle w); cbn; split_and!; reflexivity.
Qed.

(** The function the throttle armed its timer with forgets the timer
    and invokes the refresh. *)
Lemma throttle_fired_effect (w : World) :
  _throttle (complete throttle_fired w) = None ∧
  timeouts_throttle (complete throttle_fired w) = timeouts_throttle w ∧
  refreshes (complete throttle_fired w) = refreshes w ++ [clock w].
Proof.
  unfold complete, throttle_fired, _refreshProcs, call, note, bind, get, modify, ret.
  cbn. split_and!; try reflexivity.
  unfold refreshes. cbn. rewrite List.filter_app. cbn. by rewrite fmap_app.
Qed.

(** What a turn of the event loop does to the throttle: the timer of the
    throttle fires, or the handler calls [_throttleRefresh], or the
    throttle is left alone. *)
Lemma step_throttle (t : Z) (ev : event) (w w' : World) :
  step ansiHTML totalmem t ev w = Some w' →
  match ev with
  | ThrottleTimeout h =>
      ∃ due, timeouts_throttle w !! h = Some due ∧ due ≤ t ∧
             _throttle w' = None ∧
             timeouts_throttle w' = delete h (timeouts_throttle w) ∧
             refreshes w' = refreshes w ++ [t]
  | _ =>
      if is_trigger ev then
        ∃ h', _throttle w' = Some h' ∧
              timeouts_throttle w' =
                <[h' := t + 500]> (match _throttle w with
                                   | Some h => delete h (timeouts_throttle w)
                                   | None => timeouts_throttle w
                                   end) ∧
              refreshes w' = refreshes w
      else same_throttle w w'
  end.
Proof.
  unfold step. destruct (clock w <=? t); [|done].
  destruct (dispatch _ _ t ev (set_clock t w)) as [[w1 h]|] eqn:Hd; [|done].
  intros [= <-].
  assert (Hframe : ∀ w1 h, same_throttle w w1 → keeps same_throttle h →
                           same_throttle w (complete h w1)).
  { intros w2 h2 Hw Hh. eapply same_throttle_trans; [exact Hw|].
    apply (keeps_complete same_throttle same_throttle_trans h2 w2 Hh).
    intros e. by apply note_throttle. }
  destruct ev; cbn [dispatch is_trigger] in Hd |- *; unfold answered in Hd;
    repeat match type of Hd with
           | context [match ?x with _ => _ end] => destruct x eqn:?; try discriminate Hd
           end;
    injection Hd as <- <-;
    try (apply Hframe; [by (split_and!; cbn; repeat case_match) | unfold_handlers; throttle]).
  - (* an event of the daemon *)
    destruct (throttleRefresh_effect (set_clock t w)) as (H1 & H2 & H3).
    eexists. split_and!; [exact H1 | exact H2 | exact H3].
  - (* the timer of the throttle *)
    match goal with H : _ !! _ = Some ?d |- _ => exists d; cbn in H end.
    match goal with |- context [complete throttle_fired ?x] =>
      destruct (throttle_fired_effect x) as (H1 & H2 & H3) end.
    split_and!; [done | by apply Z.leb_le | exact H1 | exact H2 | exact H3].
  - (* the callback of an action *)
    destruct r as [message|[|]]; cbn [action_done].
    + apply Hframe; [by split_and! | apply note_throttle; reflexivity].
    + match goal with |- context [complete _throttleRefresh ?x] =>
        destruct (throttleRefresh_effect x) as (H1 & H2 & H3) end.
      eexists. split_and!; [exact H1 | exact H2 | exact H3].
    + apply Hframe; [by split_and! | apply keeps_ret, same_throttle_refl].
Qed.

(** The three kinds of turn, as far as the throttle goes. *)
Lemma step_throttle_cases (t : Z) (ev : event) (w w' : World) :
  step ansiHTML totalmem t ev w = Some w' →
  (is_trigger ev = false ∧
   ∃ h due, timeouts_throttle w !! h = Some due ∧ due ≤ t ∧
            _throttle w' = None ∧
            timeouts_throttle w' = delete h (timeouts_throttle w) ∧
            refreshes w' = refreshes w ++ [t]) ∨
  (is_trigger ev = true ∧
   ∃ h', _throttle w' = Some h' ∧
         timeouts_throttle w' =
           <[h' := t + 500]> (match _throttle w with
                              | Some h => delete h (timeouts_throttle w)
                              | None => timeouts_throttle w
                              end) ∧
         refreshes w' = refreshes w) ∨
  (is_trigger ev = false ∧ same_throttle w w').
Proof.
  intros Hs. pose proof (step_throttle t ev w w' Hs) as H.
  destruct ev; cbn [is_trigger] in *;
    try (right; right; split; [reflexivity | exact H]);
    try (right; left; split; [reflexivity | exact H]).
  - left. split; [reflexivity|]. destruct H as (due & H). eauto.
  - destruct r as [?|[|]].
    + right; right. by split.
    + right; left. by split.
    + right; right. by split.
Qed.

(** Once the timer has fired and no call may follow, the throttle stays
    idle and nothing more is refreshed. *)
Lemma fired_phase (trace : list (Z * event)) (w w' : World) (last : Z) :
  idle w → last + 500 ≤ clock w →
  steps ansiHTML totalmem trace w = Some w' →
  burst (last :: trigger_times trace) →
  trigger_times trace = [] ∧ idle w' ∧ last + 500 ≤ clock w' ∧
  refreshes w' = refreshes w.
Proof.
  revert w. induction trace as [|[t ev] trace IH]; intros w Hidle Hclock; simpl.
  - intros [= <-] _. done.
  - destruct (step ansiHTML totalmem t ev w) as [w1|] eqn:Hs; [|done].
    intros Hsteps Hb.
    destruct (step_clock t ev w w1 Hs) as [Hle Ht].
    destruct Hidle as [Hth Htt].
    destruct (step_throttle_cases t ev w w1 Hs)
      as [(Hn & h & due & Hl & _) | [(Hy & _) | (Hn & H1 & H2 & H3)]].
    + rewrite Htt, lookup_empty in Hl. done.
    + unfold trigger_times in Hb. cbn in Hb. rewrite Hy in Hb. cbn in Hb.
      destruct Hb as [Hb _]. lia.
    + unfold trigger_times in *. cbn. rewrite Hn.
      cbn in Hb. rewrite Hn in Hb.
      destruct (IH w1) as (Ha & Hb' & Hc & Hd); try done.
      * split; congruence.
      * lia.
      * split_and!; try done. congruence.
Qed.

(** From an armed throttle, calls that keep coming within the window
    re-arm it; the timer fires only after the last of them. *)
Lemma armed_phase (trace : list (Z * event)) (w w' : World) (last : Z) :
  armed w last →
  steps ansiHTML totalmem trace w = Some w' →
  burst (last :: trigger_times trace) →
  throttle_outcome w w' (last_of (trigger_times trace) last).
Proof.
  revert w last. induction trace as [|[t ev] trace IH]; intros w last Harmed; simpl.
  - intros [= <-] _. by left.
  - destruct (step ansiHTML totalmem t ev w) as [w1|] eqn:Hs; [|done].
    intros Hsteps Hb.
    destruct (step_clock t ev w w1 Hs) as [Hle Ht].
    destruct Harmed as (h0 & Hth & Htt).
    destruct (step_throttle_cases t ev w w1 Hs)
      as [(Hn & h & due & Hl & Hdue & H1 & H2 & H3)
         | [(Hy & h' & H1 & H2 & H3) | (Hn & H1 & H2 & H3)]].
    + (* the timer fires *)
      unfold trigger_times in *. cbn in Hb |- *. rewrite Hn in Hb |- *.
      rewrite Htt in Hl. apply lookup_singleton_Some in Hl as [<- <-].
      rewrite Htt, delete_singleton_eq in H2.
      destruct (fired_phase trace w1 w' last) as (Ha & Hb' & Hc & Hd); try done.
      * lia.
      * unfold trigger_times in Ha. rewrite Ha. cbn. right.
        split_and!; try done. exists t. split; [congruence | done].
    + (* another call *)
      unfold trigger_times in *. cbn in Hb |- *. rewrite Hy in Hb |- *.
      cbn in Hb |- *. destruct Hb as [Hgap Hb].
      rewrite Hth, Htt, delete_singleton_eq in H2.
      assert (Ha : armed w1 t) by (exists h'; split; [done | by rewrite H2]).
      destruct (IH w1 t Ha Hsteps Hb) as [[Hx Hr] | (Hx & Hc & t' & Hr & Ht')].
      * left. split; [done | congruence].
      * right. split_and!; try done. exists t'. split; [congruence | done].
    + (* the throttle is left alone *)
      unfold trigger_times in *. cbn in Hb |- *. rewrite Hn in Hb |- *.
      assert (Ha : armed w1 last) by (exists h0; split; congruence).
      destruct (IH w1 last Ha Hsteps Hb) as [[Hx Hr] | (Hx & Hc & t' & Hr & Ht')].
      * left. split; [done | congruence].
      * right. split_and!; try done. exists t'. split; [congruence | done].
Qed.

(** From an idle throttle, the first call arms it. *)
Lemma idle_phase (trace : list (Z * event)) (w w' : World) :
  idle w →
  steps ansiHTML totalmem trace w = Some w' →
  burst (trigger_times trace) →
  trigger_times trace ≠ [] →
  throttle_outcome w w' (last_of (trigger_times trace) 0).
Proof.
  revert w. induction trace as [|[t ev] trace IH]; intros w Hidle; simpl.
  - intros _ _ H. done.
  - destruct (step ansiHTML totalmem t ev w) as [w1|] eqn:Hs; [|done].
    intros Hsteps Hb Hne.
    destruct Hidle as [Hth Htt].
    destruct (step_throttle_cases t ev w w1 Hs)
      as [(Hn & h & due & Hl & _) | [(Hy & h' & H1 & H2 & H3) | (Hn & H1 & H2 & H3)]].
    + rewrite Htt, lookup_empty in Hl. done.
    + unfold trigger_times in *. cbn in Hb, Hne |- *. rewrite Hy in Hb, Hne |- *.
      cbn in Hb |- *. rewrite Hth, Htt in H2.
      assert (Ha : armed w1 t) by (exists h'; split; [done | by rewrite H2]).
      destruct (armed_phase trace w1 w' t Ha Hsteps Hb)
        as [[Hx Hr] | (Hx & Hc & t' & Hr & Ht')].
      * left. split; [done | congruence].
      * right. split_and!; try done. exists t'. split; [congruence | done].
    + unfold trigger_times in *. cbn in Hb, Hne |- *. rewrite Hn in Hb, Hne |- *.
      assert (Hi : idle w1) by (split; congruence).
      destruct (IH w1 Hi Hsteps Hb Hne) as [[Hx Hr] | (Hx & Hc & t' & Hr & Ht')].
      * left. split; [done | congruence].
      * right. split_and!; try done. exists t'. split; [congruence | done].
Qed.

(** An armed throttle whose timer is due can fire: that turn invokes the
    refresh and leaves the throttle idle. *)
Lemma armed_can_fire (w : World) (h : nat) (last t : Z) :
  timeouts_throttle w = {[ h := last + 500 ]} →
  clock w ≤ t → last + 500 ≤ t →
  ∃ w', step ansiHTML totalmem t (ThrottleTimeout h) w = Some w' ∧
        refreshes w' = refreshes w ++ [t] ∧ timeouts_throttle w' = ∅.
Proof.
  intros Htt Hc Hd. unfold step.
  destruct (Z.leb_spec (clock w) t); [|lia].
  cbn [dispatch]. cbn [timeouts_throttle set_clock]. rewrite Htt, lookup_singleton_eq.
  destruct (Z.leb_spec (last + 500) t); [|lia].
  eexists. split; [reflexivity|].
  match goal with |- context [complete throttle_fired ?x] =>
    destruct (throttle_fired_effect x) as (H1 & H2 & H3) end.
  split; [exact H3|]. rewrite H2. cbn. by rewrite delete_singleton_eq.
Qed.

(** C4.  Take any run of the event loop that starts with the throttle
    idle and in which [_throttleRefresh] is called at least once, every
    call less than 500ms after the one before; let [last] be the time of
    the last call.  If the timer of the throttle has fired by the end of
    the run, the refresh was invoked exactly once, at a time no earlier
    than [last + 500].  If it has not, no refresh was invoked yet and
    one timer is pending, due at [last + 500]: at any later time it can
    fire, and that invokes the refresh for the first time. *)
Theorem throttle_burst_refreshes_once
    (trace : list (Z * event)) (w w' : World) :
  idle w →
  steps ansiHTML totalmem trace w = Some w' →
  trigger_times trace ≠ [] →
  burst (trigger_times trace) →
  (timeouts_throttle w' = ∅ →
     ∃ t, refreshes w' = refreshes w ++ [t] ∧
          last_of (trigger_times trace) 0 + 500 ≤ t) ∧
  (timeouts_throttle w' ≠ ∅ →
     refreshes w' = refreshes w ∧
     ∃ h, timeouts_throttle w' = {[ h := last_of (trigger_times trace) 0 + 500 ]} ∧
          ∀ t, clock w' ≤ t → last_of (trigger_times trace) 0 + 500 ≤ t →
               ∃ w'', step ansiHTML totalmem t (ThrottleTimeout h) w' = Some w'' ∧
                      refreshes w'' = refreshes w ++ [t] ∧
                      timeouts_throttle w'' = ∅).
Proof.
  intros Hidle Hsteps Hne Hb.
  destruct (idle_phase trace w w' Hidle Hsteps Hb Hne)
    as [[(h & Hth & Htt) Hr] | ((Hth & Htt) & Hc & t & Hr & Ht)].
  - split.
    + intros He. rewrite Htt in He.
      apply (f_equal (fun m => m !! h)) in He.
      by rewrite lookup_singleton_eq, lookup_empty in He.
    + intros _. split; [done|]. exists h. split; [done|].
      intros t Hc Hd.
      destruct (armed_can_fire w' h _ t Htt Hc Hd) as (w'' & H1 & H2 & H3).
      exists w''. split_and!; [done | congruence | done].
  - split.
    + intros _. eauto.
    + intros He. done.
Qed.

(** [run] itself calls [_throttleRefresh]: when the events of the daemon
    that follow keep within the window, the call of [run] and theirs
    make one burst. *)
Lemma throttle_after_run
    (refresh : value) (t0 : Z) (trace : list (Z * event)) (w' : World) :
  steps ansiHTML totalmem trace (started refresh t0) = Some w' →
  burst (t0 :: trigger_times trace) →
  throttle_outcome (started refresh t0) w' (last_of (trigger_times trace) t0).
Proof.
  intros Hsteps Hb. apply (armed_phase trace _ w' t0); [|done|done].
  exists 0%nat. by split.
Qed.

End Throttle.

(** Three events of the daemon, 100ms apart, then the timer. *)
Lemma throttle_burst_refreshes_once_witness :
  match steps (fun s => s) 1024
          [(1000, Pm2Event); (1100, Pm2Event); (1200, Pm2Event); (1700, ThrottleTimeout 2)]
          (fresh_world Undefined 0) with
  | Some w' =>
      timeouts_throttle w' = ∅ ∧
      ∃ t, refreshes w' = refreshes (fresh_world Undefined 0) ++ [t] ∧ 1200 + 500 ≤ t
  | None => False
  end.
Proof.
  pose proof (throttle_burst_refreshes_once (fun s => s) 1024
                [(1000, Pm2Event); (1100, Pm2Event); (1200, Pm2Event);
                 (1700, ThrottleTimeout 2)]
                (fresh_world Undefined 0)) as T.
  destruct (steps _ _ _ _) as [w'|] eqn:Hs; [|vm_compute in Hs; discriminate Hs].
  assert (He : timeouts_throttle w' = ∅).
  { vm_compute in Hs. injection Hs as <-. reflexivity. }
  assert (Hidle : idle (fresh_world Undefined 0)) by (split; reflexivity).
  assert (Hne : trigger_times
                  [(1000, Pm2Event); (1100, Pm2Event); (1200, Pm2Event);
                   (1700, ThrottleTimeout 2)] ≠ []) by discriminate.
  assert (Hb : burst (trigger_times
                  [(1000, Pm2Event); (1100, Pm2Event); (1200, Pm2Event);
                   (1700, ThrottleTimeout 2)])) by (cbn; lia).
  split; [exact He|].
  exact (proj1 (T w' Hidle eq_refl Hne Hb) He).
Defined.
(** ** The heartbeat *)

Section Heartbeat.

Variable ansiHTML : string → string.
Variable totalmem : Z.






Lemma stat_pending_remove (r : request) (l : list request) :
  is_stat_request r = false →
  List.filter is_stat_request (remove_first r l) = List.filter is_stat_request l.
Proof.
  intros Hr. induction l as [|r' l IH]; [done|]. cbn.
  destruct (decide (r = r')) as [<-|Hne].
  - by rewrite Hr.
  - cbn. by rewrite IH.
Qed.

Lemma stat_pending_elem (r : request) (l : list request) :
  r ∈ l → is_stat_request r = true → List.filter is_stat_request l ≠ [].
Proof.
  intros Hin Hr. induction Hin as [r l|r r' l Hin IH]; cbn.
  - by rewrite Hr.
  - destruct (is_stat_request r'); [done | by apply IH].
Qed.

Local Ltac unfold_quiet_handlers :=
  unfold sys_disconnect, sendProcs, sys_action, startTailProcess,
    _killTailProcess, killTail, killObserver, runObserver, throttle_fired, runTimer,
    usage_done, list_done, version_done, action_done, tail_opened,
    tail_lines, emitError_log, emitError_proc, _refreshProcs, _pm2Ver,
    _throttleRefresh, _broadcast, set_prop, setInterval_usage,
    clearInterval_usage, setTimeout_throttle, clearTimeout_throttle,
    fresh_handle, call, note.




Lemma same_options_refl (w : World) : same_options w w.
Proof. reflexivity. Qed.

Lemma same_options_trans (w1 w2 w3 : World) :
  same_options w1 w2 → same_options w2 w3 → same_options w1 w3.
Proof. unfold same_options. congruence. Qed.

Local Ltac options_leaf :=
  intros; unfold same_options; cbn; try reflexivity;
  repeat match goal with |- context [match ?x with _ => _ end] => destruct x end;
  reflexivity.

Local Ltac options := keeps_with same_options_refl same_options_trans options_leaf fail.

(** No turn changes the options. *)
Lemma step_options (t : Z) (ev : event) (w w' : World) :
  step ansiHTML totalmem t ev w = Some w' → opt_refresh w' = opt_refresh w.
Proof.
  unfold step. destruct (clock w <=? t); [|done].
  destruct (dispatch _ _ t ev (set_clock t w)) as [[w1 h]|] eqn:Hd; [|done].
  intros [= <-].
  assert (Hframe : ∀ w1 h, same_options w w1 → keeps same_options h →
                           same_options w (complete h w1)).
  { intros w2 h2 Hw2 Hh. eapply same_options_trans; [exact Hw2|].
    apply (keeps_complete same_options same_options_trans h2 w2 Hh).
    intros e. unfold note. options. }
  destruct ev; cbn [dispatch] in Hd; unfold answered in Hd;
    repeat match type of Hd with
           | context [match ?x with _ => _ end] => destruct x eqn:?; try discriminate Hd
           end;
    injection Hd as <- <-;
    (apply Hframe;
     [ by (unfold same_options; cbn; repeat case_match)
     | unfold_quiet_handlers;
       unfold _connectSysSock, systemStat_done, nextTick_cb, _nextTick, _systemStat,
         _pm2Ver, sendProcs, _broadcast, setTimeout_tick, fresh_handle, call, note;
       options ]).
Qed.

Lemma steps_options (trace : list (Z * event)) (w w' : World) :
  steps ansiHTML totalmem trace w = Some w' → opt_refresh w' = opt_refresh w.
Proof.
  revert w. induction trace as [|[t ev] trace IH]; intros w; simpl.
  - by intros [= <-].
  - destruct (step ansiHTML totalmem t ev w) as [w1|] eqn:Hs; [|done].
    intros H. rewrite (IH _ H). by eapply step_options.
Qed.




(** A timer of the heartbeat that fires makes the next tick, with the
    interval it was armed with. *)
Lemma tick_timeout_ticks (t : Z) (h : nat) (w w' : World) :
  step ansiHTML totalmem t (TickTimeout h) w = Some w' →
  ∃ due tick, timeouts_tick w !! h = Some (due, tick) ∧ due ≤ t ∧
              _status w' = Str "R" ∧
              ticks w' = ticks w ++ [(t, Call (ReqStat tick))].
Proof.
  unfold step. destruct (clock w <=? t); [|done].
  cbn [dispatch]. cbn [timeouts_tick set_clock].
  destruct (timeouts_tick w !! h) as [[due tick]|] eqn:Hl; [|done].
  destruct (Z.leb_spec due t); [|done].
  intros [= <-]. exists due, tick. split_and!; try done.
  - unfold complete, _nextTick, _systemStat, call, note, bind, get, modify, ret.
    cbn -[bool_decide]. rewrite andb_false_r. reflexivity.
  - unfold complete, _nextTick, _systemStat, call, note, bind, get, modify, ret.
    cbn -[bool_decide]. rewrite andb_false_r. cbn.
    unfold ticks. cbn. rewrite List.filter_app. reflexivity.
Qed.

End Heartbeat.
(** ** The usage timers *)

(** C6.  The code where it departs from the claim.  The callback of a
    sample that failed reads the variable [ctx], which no scope
    declares: it throws a [ReferenceError] before it clears the timer,
    and the world is as it was.  In the scenario, the timer of process
    4242 is still registered and still armed after the failed sample,
    nothing was emitted, and the exception was caught by nobody. *)
Theorem usage_done_failure_throws :
  (∀ (totalmem : Z) (pid : value) (message : string) (w : World),
     usage_done totalmem pid (inl message) w = Throw (ReferenceError "ctx") w) ∧
  match world_after (usage_requested ++ [(35, UsageDone (Num 4242) (inl "gone"))]) with
  | Some w =>
      _usages w !! "4242" = Some 1%nat ∧
      intervals_usage w !! 1%nat = Some (3030, Num 4242) ∧
      emissions w = [] ∧
      uncaught w = [ReferenceError "ctx"]
  | None => False
  end.
Proof.
  split.
  - reflexivity.
  - vm_compute. by split_and!.
Qed.

(** Whenever the callback of a failed sample runs, the registry, the
    timers and what was emitted are as before, and a [ReferenceError]
    went uncaught. *)
Lemma sample_failure_step
    (ansiHTML : string → string) (totalmem : Z)
    (t : Z) (pid : value) (message : string) (w w' : World) :
  step ansiHTML totalmem t (UsageDone pid (inl message)) w = Some w' →
  _usages w' = _usages w ∧
  intervals_usage w' = intervals_usage w ∧
  emissions w' = emissions w ∧
  done_log w' = done_log w ++ [(t, Uncaught (ReferenceError "ctx"))].
Proof.
  unfold step. destruct (clock w <=? t); [|done].
  cbn [dispatch]. unfold answered. destruct (bool_decide _); [|done].
  intros [= <-]. unfold complete. cbn. split_and!; try done.
  unfold emissions. cbn. rewrite List.filter_app. cbn. by rewrite app_nil_r.
Qed.

(** [killObserver] throws as soon as a socket is left in the process
    namespace: it reads [sock.pid], which nothing sets, where
    [runObserver] wrote [socket._pid]. *)
Lemma killObserver_throws (w : World) (sock : Socket) (socks : list Socket) :
  proc_sockets w = sock :: socks →
  props sock !! "pid" = None →
  killObserver w = Throw (TypeError "Cannot read property 'toString' of undefined") w.
Proof.
  intros Hs Hp. unfold killObserver, bind, get. cbn [sockets]. rewrite Hs.
  cbn. unfold bind, prop, field. rewrite Hp. reflexivity.
Qed.

Section NoPid.

Variable ansiHTML : string → string.
Variable totalmem : Z.

Lemma pid_free_refl (w : World) : pid_free w w.
Proof. by intros ?. Qed.

Lemma pid_free_trans (w1 w2 w3 : World) :
  pid_free w1 w2 → pid_free w2 w3 → pid_free w1 w3.
Proof. unfold pid_free. auto. Qed.

Local Ltac pid_leaf :=
  intros; intros ?; unfold no_pid in *; cbn;
  repeat match goal with |- context [match ?x with _ => _ end] => destruct x end;
  assumption.

(** The handlers write [_pm_id] and [_pid] on a socket, never [pid]. *)
Lemma set_prop_pid_free (nsp : Nsp) (sid : nat) (name : string) (v : value) :
  name ≠ "pid" → keeps pid_free (set_prop nsp sid name v).
Proof.
  intros Hname. unfold set_prop. apply keeps_modify. intros w Hw.
  destruct nsp; try exact Hw.
  unfold no_pid in *. cbn. intros sock [s [-> Hs]]%list_elem_of_fmap.
  destruct (decide _); [|by apply Hw].
  cbn. rewrite lookup_insert_ne by done. by apply Hw.
Qed.

Local Ltac pid_known :=
  first [ apply set_prop_pid_free; discriminate ].

Local Ltac pid := keeps_with pid_free_refl pid_free_trans pid_leaf pid_known.

(** No turn of the event loop gives a socket of the process namespace a
    property [pid]. *)
Lemma step_no_pid (t : Z) (ev : event) (w w' : World) :
  no_pid w → step ansiHTML totalmem t ev w = Some w' → no_pid w'.
Proof.
  unfold step. intros Hw. destruct (clock w <=? t); [|done].
  assert (Hc : no_pid (set_clock t w)) by exact Hw.
  revert Hc. generalize (set_clock t w). clear Hw w. intros w Hw.
  destruct (dispatch ansiHTML totalmem t ev w) as [[w1 h]|] eqn:Hd; [|done].
  intros [= <-].
  assert (Hframe : ∀ w1 h, no_pid w1 → keeps pid_free h → no_pid (complete h w1)).
  { intros w2 h2 Hw2 Hh.
    apply (keeps_complete pid_free pid_free_trans h2 w2 Hh); [|done].
    intros e. unfold note. pid. }
  destruct ev; cbn [dispatch] in Hd; unfold answered in Hd;
    repeat match type of Hd with
           | context [match ?x with _ => _ end] => destruct x eqn:?; try discriminate Hd
           end;
    injection Hd as <- <-;
    (apply Hframe;
     [ | unfold _connectSysSock, sys_disconnect, sendProcs, sys_action, startTailProcess,
           _killTailProcess, killTail, killObserver, runObserver, throttle_fired,
           runTimer, systemStat_done, usage_done, list_done, version_done, action_done,
           tail_opened, tail_lines, emitError_log, emitError_proc, nextTick_cb,
           _refreshProcs, _pm2Ver, _nextTick, _systemStat, _throttleRefresh, _broadcast,
           setInterval_usage, clearInterval_usage, setTimeout_tick, setTimeout_throttle,
           clearTimeout_throttle, fresh_handle, call, note;
         pid ]);
    try exact Hw.
  - (* a connection *)
    subst. unfold no_pid in *. cbn. intros sock [H | ->%list_elem_of_singleton]%elem_of_app.
    + by apply Hw.
    + reflexivity.
  - (* a disconnection *)
    subst. unfold no_pid in *. cbn. intros sock [_ H]%list_elem_of_filter. by apply Hw.
Qed.

Lemma steps_no_pid (trace : list (Z * event)) (w w' : World) :
  no_pid w → steps ansiHTML totalmem trace w = Some w' → no_pid w'.
Proof.
  revert w. induction trace as [|[t ev] trace IH]; intros w Hw; simpl.
  - by intros [= <-].
  - destruct (step ansiHTML totalmem t ev w) as [w1|] eqn:Hs; [|done].
    apply IH. by eapply step_no_pid.
Qed.

(** In every world the running monitor can be in: when a client leaves
    the process namespace and another one stays, the sweep throws, and
    the registry of usage timers and the timers are as before. *)
Lemma usage_sweep_always_throws
    (refresh : value) (t0 : Z) (trace : list (Z * event)) (w w' : World)
    (t : Z) (sid : nat) (reason : string) :
  steps ansiHTML totalmem trace (started refresh t0) = Some w →
  (∃ other, other ∈ proc_sockets w ∧ sock_id other ≠ sid) →
  step ansiHTML totalmem t (Disconnect PROC sid reason) w = Some w' →
  _usages w' = _usages w ∧
  intervals_usage w' = intervals_usage w ∧
  done_log w' =
    done_log w ++ [(t, Uncaught (TypeError "Cannot read property 'toString' of undefined"))].
Proof.
  intros Hsteps (other & Hin & Hne) Hstep.
  assert (Hnp : no_pid w).
  { eapply steps_no_pid; [|exact Hsteps]. intros sock H. by apply elem_of_nil in H. }
  unfold step in Hstep. destruct (clock w <=? t); [|done].
  cbn [dispatch] in Hstep. destruct (connected PROC sid _); [|done].
  injection Hstep as <-.
  match goal with |- context [complete killObserver ?x] => set (w1 := x) end.
  assert (Hrem : ∃ sock socks, proc_sockets w1 = sock :: socks ∧ props sock !! "pid" = None).
  { unfold w1. cbn.
    assert (Hf : other ∈ filter (fun sock => sock_id sock ≠ sid) (proc_sockets w)).
    { apply list_elem_of_filter. by split. }
    destruct (filter _ (proc_sockets w)) as [|sock socks] eqn:Hfl.
    - by apply elem_of_nil in Hf.
    - exists sock, socks. split; [done|]. apply Hnp.
      assert (Hs : sock ∈ filter (fun sock => sock_id sock ≠ sid) (proc_sockets w))
        by (rewrite Hfl; left).
      by apply list_elem_of_filter in Hs as [_ Hs]. }
  destruct Hrem as (sock & socks & Hps & Hpid).
  unfold complete. rewrite (killObserver_throws w1 sock socks Hps Hpid).
  cbn. by split_and!.
Qed.

End NoPid.

(** *** The sweep of the log namespace, for comparison *)

(** One round of the loop of [_killTailProcess]: it returns; a key that
    is not marked is gone from the registry afterwards and its tail was
    killed; nothing else changes in the registry. *)
Lemma sweep_round (marks : gset string) (k : string) (w : World) :
  ∃ w', (if negb (marked marks k) then killTail k else ret tt) w = Ok tt w' ∧
        _tails w' = (if marked marks k then _tails w else delete k (_tails w)) ∧
        clock w' = clock w ∧
        (∀ e, e ∈ done_log w → e ∈ done_log w') ∧
        (∀ tail, marked marks k = false → _tails w !! k = Some tail →
                 (clock w, Kill tail) ∈ done_log w').
Proof.
  destruct (marked marks k) eqn:Hm; cbn [negb].
  - exists w. split_and!; try done.
  - unfold killTail, bind, get, read.
    destruct (_tails w !! k) as [tail|] eqn:Hk.
    + eexists. split; [reflexivity|]. cbn. split_and!; try done.
      * intros e He. apply elem_of_app. by left.
      * intros tail' _ [= <-]. apply elem_of_app. right. by left.
    + destruct (bool_decide (k ∈ object_prototype_keys)).
      * eexists. split; [reflexivity|]. cbn. split_and!; try done.
      * exists w. split_and!; try done. by rewrite delete_id.
Qed.

(** The loop of [_killTailProcess] over a list of keys. *)
Lemma sweep_loop (marks : gset string) (l : list string) (w : World) :
  ∃ w', for_each l (fun k => if negb (marked marks k) then killTail k else ret tt) w
          = Ok tt w' ∧
        clock w' = clock w ∧
        (∀ e, e ∈ done_log w → e ∈ done_log w') ∧
        (∀ k, _tails w' !! k =
              if bool_decide (k ∈ l) && negb (marked marks k) then None
              else _tails w !! k) ∧
        (∀ k tail, k ∈ l → marked marks k = false → _tails w !! k = Some tail →
                   (clock w, Kill tail) ∈ done_log w').
Proof.
  revert w. induction l as [|k0 l IH]; intros w.
  - exists w. cbn. split_and!; try done. intros k tail H. by apply elem_of_nil in H.
  - destruct (sweep_round marks k0 w) as (w1 & Hr & Ht & Hc & Hlog & Hkill).
    destruct (IH w1) as (w2 & Hr2 & Hc2 & Hlog2 & Ht2 & Hkill2).
    exists w2. cbn [for_each]. unfold bind at 1. rewrite Hr.
    split_and!; [exact Hr2 | congruence | by auto | |].
    + intros k. rewrite Ht2, Ht.
      destruct (decide (k = k0)) as [->|Hne].
      * rewrite (bool_decide_eq_true_2 (k0 ∈ k0 :: l)) by left.
        destruct (marked marks k0); cbn; [by rewrite andb_false_r|].
        rewrite lookup_delete_eq. by destruct (bool_decide _).
      * assert (Hb : bool_decide (k ∈ k0 :: l) = bool_decide (k ∈ l)).
        { apply bool_decide_ext. rewrite elem_of_cons. split; [intros [?|?]; done | by right]. }
        rewrite Hb. destruct (bool_decide (k ∈ l) && negb (marked marks k)); [done|].
        destruct (marked marks k0); [done | by rewrite lookup_delete_ne].
    + intros k tail Hin Hm Hk. apply elem_of_cons in Hin as [-> | Hin].
      * apply Hlog2. by apply Hkill.
      * destruct (decide (k = k0)) as [->|Hne].
        -- apply Hlog2. by apply Hkill.
        -- rewrite <- Hc. apply (Hkill2 k); try done.
           rewrite Ht. destruct (marked marks k0); [done | by rewrite lookup_delete_ne].
Qed.

(** The sweep of [_killTailProcess]: afterwards the registry holds the
    tails whose key is the [_pm_id] of a connected socket of the log
    namespace (or a key of [Object.prototype]) and no other, and the
    tails that went were killed. *)
Lemma sweep_tails (reason : value) (w : World) :
  isNaN reason = true →
  let marks : gset string :=
    list_to_set ((fun sock => to_string (prop sock "_pm_id")) <$> log_sockets w) in
  ∃ w', _killTailProcess reason w = Ok tt w' ∧
        (∀ k, _tails w' !! k = if marked marks k then _tails w !! k else None) ∧
        (∀ k tail, _tails w !! k = Some tail → marked marks k = false →
                   (clock w, Kill tail) ∈ done_log w').
Proof.
  intros Hn marks. unfold _killTailProcess. rewrite Hn. cbn [negb].
  unfold bind at 1. unfold get at 1. cbn [sockets]. unfold bind at 1. unfold get at 1.
  assert (Hmarks : (if 0 <? Z.of_nat (length (log_sockets w))
                    then list_to_set ((fun sock => to_string (prop sock "_pm_id"))
                                        <$> log_sockets w)
                    else ∅) = marks).
  { unfold marks. destruct (log_sockets w); [reflexivity|].
    cbn [length]. destruct (Z.ltb_spec 0 (Z.of_nat (S (length l)))); [done | lia]. }
  rewrite Hmarks.
  destruct (sweep_loop marks (keys (_tails w)) w) as (w' & Hr & Hc & Hlog & Ht & Hkill).
  exists w'. split; [exact Hr|]. split.
  - intros k. rewrite Ht.
    destruct (_tails w !! k) as [tail|] eqn:Hk.
    + rewrite bool_decide_eq_true_2.
      * by destruct (marked marks k).
      * unfold keys. apply list_elem_of_fmap. exists (k, tail).
        split; [done | by apply elem_of_map_to_list].
    + by destruct (_ && _), (marked marks k).
  - intros k tail Hk Hm. apply (Hkill k); try done.
    unfold keys. apply list_elem_of_fmap. exists (k, tail).
    split; [done | by apply elem_of_map_to_list].
Qed.

(** C5.  The code where it departs from the claim.  Two clients of the
    process namespace watch the processes 11 and 22, and the first
    one leaves: the sweep throws a [TypeError] on the socket that is
    left, so the timer of process 11, which no connected socket claims,
    stays registered and armed.  The same scenario in the log namespace
    ends as the claim says: the tail of process 11 is killed and
    removed, the tail of process 22 stays. *)
Theorem usage_sweep_throws :
  match world_after one_of_two_leaves with
  | Some w =>
      (sock_id <$> proc_sockets w) = [2%nat] ∧
      (∀ sock, sock ∈ proc_sockets w → prop sock "_pid" = Num 22) ∧
      _usages w !! "11" = Some 1%nat ∧
      intervals_usage w !! 1%nat = Some (3030, Num 11) ∧
      uncaught w = [TypeError "Cannot read property 'toString' of undefined"]
  | None => False
  end ∧
  match world_after one_of_two_tails_leaves with
  | Some w =>
      (sock_id <$> log_sockets w) = [2%nat] ∧
      _tails w = {[ "22" := 200%nat ]} ∧
      (70, Kill 100) ∈ done_log w ∧
      uncaught w = []
  | None => False
  end.
Proof.
  split.
  - vm_compute. split_and!; try reflexivity.
    intros sock ->%list_elem_of_singleton. reflexivity.
  - vm_compute. split_and!; try reflexivity.
    do 2 apply list_elem_of_further. apply list_elem_of_here.
Qed.
(** ** The registry of tails *)

(** A decimal numeral starts with a digit or a minus sign. *)
Lemma string_of_Z_head (n : Z) :
  ∃ c rest, string_of_Z n = String c rest ∧ (is_digit c = true ∨ c = "-"%char).
Proof.
  unfold string_of_Z. destruct (Z.to_int n) as [d|d]; cbn.
  - destruct d; cbn; eexists _, _; (split; [reflexivity | by left]).
  - eexists _, _. split; [reflexivity | by right].
Qed.

(** The key of a numeric process id is no key of [Object.prototype]. *)
Lemma numeric_key_not_inherited (n : Z) : string_of_Z n ∉ object_prototype_keys.
Proof.
  destruct (string_of_Z_head n) as (c & rest & -> & Hc).
  unfold object_prototype_keys. intros H.
  repeat (apply elem_of_cons in H as [H|H];
          [injection H as -> _; destruct Hc as [Hc|Hc]; discriminate Hc|]).
  by apply elem_of_nil in H.
Qed.

Lemma read_numeric_key {A} (object : gmap string A) (n : Z) :
  read object (string_of_Z n) =
  match object !! string_of_Z n with
  | Some a => Own a
  | None => Absent
  end.
Proof.
  unfold read. destruct (object !! string_of_Z n); [done|].
  rewrite bool_decide_eq_false_2; [done | apply numeric_key_not_inherited].
Qed.

(** A call of [startTailProcess] for a process whose tail is registered
    tags the socket and does nothing else. *)
Lemma startTailProcess_registered
    (sid : nat) (pm_id : value) (keepANSI : bool) (tail : nat) (w : World) :
  _tails w !! to_string pm_id = Some tail →
  startTailProcess sid pm_id keepANSI w = set_prop LOG sid "_pm_id" pm_id w.
Proof.
  intros Ht. unfold startTailProcess, bind, get, set_prop, modify. cbn.
  unfold read. by rewrite Ht.
Qed.

(** Two calls for a process id of any kind whose key is no key of
    [Object.prototype], with the tail opening in between. *)
Lemma two_calls_one_tail
    (w : World) (sid sid' : nat) (pm_id : value) (keepANSI keepANSI' : bool) (tail : nat) :
  to_string pm_id ∉ object_prototype_keys →
  _tails w !! to_string pm_id = None →
  ∃ w1 w2 w3,
    startTailProcess sid pm_id keepANSI w = Ok tt w1 ∧
    done_log w1 = done_log w ++ [(clock w, Call (ReqTail pm_id keepANSI))] ∧
    tail_opened pm_id keepANSI (inr (Some tail)) w1 = Ok tt w2 ∧
    _tails w2 = <[to_string pm_id := tail]> (_tails w) ∧
    startTailProcess sid' pm_id keepANSI' w2 = Ok tt w3 ∧
    w3 = world_of (set_prop LOG sid' "_pm_id" pm_id w2) ∧
    _tails w3 = <[to_string pm_id := tail]> (_tails w) ∧
    done_log w3 = done_log w1 ∧
    pending w3 = pending w1.
Proof.
  intros Hkey Hnone.
  eexists _, _, _. split_and!.
  - unfold startTailProcess, bind, get, set_prop, modify. cbn [_tails set_sockets].
    unfold read. cbn. rewrite Hnone, bool_decide_eq_false_2 by done. reflexivity.
  - reflexivity.
  - reflexivity.
  - reflexivity.
  - rewrite (startTailProcess_registered sid' pm_id keepANSI' tail).
    + reflexivity.
    + cbn. by rewrite lookup_insert_eq.
  - reflexivity.
  - reflexivity.
  - reflexivity.
  - reflexivity.
Qed.

(** Two calls before the first tail has opened both ask [pm.tail] for a
    tail; the registry still holds one handle for the process, the one
    that opened last. *)
Lemma startTailProcess_back_to_back
    (w : World) (sid sid' : nat) (pid : Z) (keepANSI : bool) (tail tail' : nat) :
  _tails w !! string_of_Z pid = None →
  ∃ w',
    (startTailProcess sid (Num pid) keepANSI;;
     startTailProcess sid' (Num pid) keepANSI;;
     tail_opened (Num pid) keepANSI (inr (Some tail));;
     tail_opened (Num pid) keepANSI (inr (Some tail'))) w = Ok tt w' ∧
    _tails w' = <[string_of_Z pid := tail']> (_tails w) ∧
    done_log w' = done_log w ++ [(clock w, Call (ReqTail (Num pid) keepANSI));
                                 (clock w, Call (ReqTail (Num pid) keepANSI))].
Proof.
  intros Hnone. eexists. split.
  - unfold startTailProcess, bind, get, set_prop, modify. cbn [_tails set_sockets].
    change (to_string (Num pid)) with (string_of_Z pid).
    repeat (rewrite ?read_numeric_key; cbn; rewrite ?Hnone). reflexivity.
  - cbn. split.
    + by rewrite insert_insert_eq.
    + by rewrite <- app_assoc.
Qed.

(** A call for a process id that is the name of a property every object
    inherits finds that property where it looks for a tail: it tags the
    socket and asks for no tail. *)
Lemma startTailProcess_inherited
    (sid : nat) (pm_id : value) (keepANSI : bool) (w : World) :
  to_string pm_id ∈ object_prototype_keys →
  startTailProcess sid pm_id keepANSI w = set_prop LOG sid "_pm_id" pm_id w.
Proof.
  intros Hk. unfold startTailProcess, bind, get, set_prop, modify. cbn.
  unfold read. destruct (_tails w !! to_string pm_id); [done|].
  by rewrite bool_decide_eq_true_2.
Qed.

(** C9.  The code where it departs from the claim.  The second call is a
    no-op whenever a handle is registered for the process, whatever the
    process id (first part).  But the handle is registered only when
    [pm.tail] answers: two calls for a process before the first tail has
    opened both ask [pm.tail] for a tail, and of the two tails that
    open the registry holds the one that opened last (second part).  In
    the scenario two clients ask for the tail of process 42 in this
    way: two tails are started, and when both clients have left only
    the second was killed; the first is in no registry and nothing
    kills it (third part).  And for a process id that is the name of a
    property every object inherits, such as [constructor], no tail is
    started at all (fourth part). *)
Theorem startTailProcess_twice :
  (∀ (w : World) (sid : nat) (pm_id : value) (keepANSI : bool) (tail : nat),
     _tails w !! to_string pm_id = Some tail →
     startTailProcess sid pm_id keepANSI w = set_prop LOG sid "_pm_id" pm_id w) ∧
  (∀ (w : World) (sid sid' : nat) (pid : Z) (keepANSI : bool) (tail tail' : nat),
     _tails w !! string_of_Z pid = None →
     ∃ w',
       (startTailProcess sid (Num pid) keepANSI;;
        startTailProcess sid' (Num pid) keepANSI;;
        tail_opened (Num pid) keepANSI (inr (Some tail));;
        tail_opened (Num pid) keepANSI (inr (Some tail'))) w = Ok tt w' ∧
       _tails w' = <[string_of_Z pid := tail']> (_tails w) ∧
       done_log w' = done_log w ++ [(clock w, Call (ReqTail (Num pid) keepANSI));
                                    (clock w, Call (ReqTail (Num pid) keepANSI))]) ∧
  match world_after (take 6 tails_started_twice), world_after tails_started_twice with
  | Some w, Some w' =>
      (sock_id <$> log_sockets w) = [1%nat; 2%nat] ∧
      tail_requests w = [Num 42; Num 42] ∧
      _tails w = {[ "42" := 200%nat ]} ∧
      log_sockets w' = [] ∧
      _tails w' = ∅ ∧
      kills w' = [200%nat] ∧
      uncaught w' = []
  | _, _ => False
  end ∧
  (∀ (w : World) (sid : nat) (pm_id : value) (keepANSI : bool),
     to_string pm_id ∈ object_prototype_keys →
     startTailProcess sid pm_id keepANSI w = set_prop LOG sid "_pm_id" pm_id w) ∧
  match world_after tail_of_constructor with
  | Some w =>
      ((fun sock => (sock_id sock, prop sock "_pm_id")) <$> log_sockets w)
        = [(1%nat, Str "constructor")] ∧
      tail_requests w = [] ∧
      pending w = []
  | None => False
  end.
Proof.
  split_and!.
  - intros w sid pm_id keepANSI tail. apply startTailProcess_registered.
  - intros w sid sid' pid keepANSI tail tail'. apply startTailProcess_back_to_back.
  - vm_compute. split_and!; reflexivity.
  - intros w sid pm_id keepANSI. apply startTailProcess_inherited.
  - vm_compute. split_and!; reflexivity.
Qed.

(** * Further properties of the codec *)

Section Decoding.

Lemma split_last_none_inv (c : ascii) (s : string) :
  split_last c s = None → all_chars (fun a => negb (Ascii.eqb a c)) s = true.
Proof.
  induction s as [|a s IH]; simpl; [done|].
  destruct (split_last c s) as [[l r]|]; [done|].
  destruct (Ascii.eqb a c); [done|]. intros _. by rewrite IH.
Qed.

(** [split_last] cuts at an occurrence after which there is no other. *)
Lemma split_last_spec (c : ascii) (s l r : string) :
  split_last c s = Some (l, r) →
  s = l +:+ String c r ∧ all_chars (fun a => negb (Ascii.eqb a c)) r = true.
Proof.
  revert l. induction s as [|a s IH]; intros l; simpl; [done|].
  destruct (split_last c s) as [[l' r']|] eqn:E.
  - intros [= <- <-]. destruct (IH l' eq_refl) as [-> Hr]. done.
  - destruct (Ascii.eqb a c) eqn:Hac; [|done].
    intros [= <- <-]. apply Ascii.eqb_eq in Hac as ->.
    split; [done|]. by apply split_last_none_inv.
Qed.

Lemma substring_prefix (l r : string) :
  String.substring 0 (String.length l) (l +:+ r) = l.
Proof.
  induction l as [|a l IH]; simpl; [by destruct r | by rewrite IH].
Qed.

Lemma substring_after (l r : string) (c : ascii) (n : nat) :
  String.substring (S (String.length l)) n (l +:+ String c r) = String.substring 0 n r.
Proof. induction l as [|a l IH]; simpl; [done | by rewrite IH]. Qed.

Lemma length_append (a b : string) :
  String.length (a +:+ b) = (String.length a + String.length b)%nat.
Proof. induction a as [|x a IH]; simpl; [done | by rewrite IH]. Qed.

(** The two slices [parseConnectionString] takes at the last at sign. *)
Lemma slices_at (l r : string) (c : ascii) :
  slice (l +:+ String c r) 0 (Z.of_nat (String.length l)) = l ∧
  slice_from (l +:+ String c r) (Z.of_nat (String.length l) + 1) = r.
Proof.
  unfold slice, slice_from. split.
  - rewrite Nat2Z.id. change (Z.to_nat 0) with 0%nat. rewrite Nat.sub_0_r.
    apply substring_prefix.
  - replace (Z.to_nat (Z.of_nat (String.length l) + 1)) with (S (String.length l)) by lia.
    rewrite substring_after, length_append. simpl String.length.
    replace (String.length l + S (String.length r) - S (String.length l))%nat
      with (String.length r) by lia.
    apply substring_full.
Qed.

(** The string handed to the parser is never empty. *)
Lemma with_scheme_truthy (s : string) : truthy (Str (with_scheme s)) = true.
Proof.
  unfold with_scheme. destruct (http_prefixed s) eqn:Hp; cbn [negb]; [|reflexivity].
  destruct s; [discriminate | reflexivity].
Qed.

(** [parseConnectionString] in one piece: the authorization is what
    precedes the last at sign, the other fields are read off the parsed
    address. *)
Lemma parse_form (s : string) :
  parseConnectionString s =
  let u := Url.parse (with_scheme (address s)) in
  {| protocol := Url.protocol u; hostname := Url.hostname u; port := Url.port u;
     path := Str (trimLeft (Url.path u) "/"); namespace := Undefined;
     authorization := Str (credentials s) |}.
Proof.
  unfold parseConnectionString, lastIndexOf, address, credentials.
  destruct (split_last "@" s) as [[l r]|] eqn:E.
  - apply split_last_spec in E as [-> _].
    destruct (slices_at l r "@") as [-> ->].
    destruct (Z.leb_spec 0 (Z.of_nat (String.length l))); [|lia].
    fold (with_scheme r). rewrite with_scheme_truthy. reflexivity.
  - change (0 <=? -1) with false. cbv iota.
    fold (with_scheme s). rewrite with_scheme_truthy. reflexivity.
Qed.

Lemma address_at (auth rest : string) :
  no_at rest = true →
  address (auth +:+ String "@" rest) = rest ∧ credentials (auth +:+ String "@" rest) = auth.
Proof.
  intros H. unfold address, credentials. by rewrite (split_last_app "@" auth rest H).
Qed.

Lemma address_plain (rest : string) :
  no_at rest = true → address rest = rest ∧ credentials rest = "".
Proof.
  intros H. unfold address, credentials. by rewrite (split_last_none "@" rest H).
Qed.

(** An authorization in front changes no other field. *)
Lemma parse_at (auth rest : string) :
  no_at rest = true →
  parseConnectionString (auth +:+ "@" +:+ rest) =
  let d0 := parseConnectionString rest in
  {| protocol := protocol d0; hostname := hostname d0; port := port d0;
     path := path d0; namespace := namespace d0; authorization := Str auth |}.
Proof.
  intros H. cbv zeta. rewrite !parse_form. cbv zeta.
  change (auth +:+ "@" +:+ rest) with (auth +:+ String "@" rest).
  destruct (address_at auth rest H) as [-> ->].
  destruct (address_plain rest H) as [-> _].
  reflexivity.
Qed.

End Decoding.

(** X1.  [parseConnectionString] takes everything before the last at
    sign for the authorization, as it stands, and decodes what follows
    as it would without it: for [rest] without an at sign, the string
    [auth@rest] decodes to the fields of [rest] with the authorization
    [auth], whatever [auth] is made of. *)
Theorem parse_splits_at_last_at (auth rest : string) :
  no_at rest = true →
  let d := parseConnectionString (auth +:+ "@" +:+ rest) in
  let d0 := parseConnectionString rest in
  authorization d = Str auth ∧
  authorization d0 = Str "" ∧
  protocol d = protocol d0 ∧ hostname d = hostname d0 ∧ port d = port d0 ∧
  path d = path d0 ∧ namespace d = namespace d0.
Proof.
  intros H. cbv zeta. rewrite (parse_at auth rest H). cbv zeta.
  rewrite (parse_authorization_default rest H).
  cbn [authorization protocol hostname port path namespace]. done.
Qed.

Lemma parse_splits_at_last_at_witness :
  let d := parseConnectionString ("a@b:c" +:+ "@" +:+ "example.com:9000/gui") in
  authorization d = Str "a@b:c" ∧ hostname d = Str "example.com" ∧ port d = Str "9000".
Proof.
  destruct (parse_splits_at_last_at "a@b:c" "example.com:9000/gui" eq_refl)
    as (H1 & _ & _ & H4 & H5 & _).
  cbv zeta. rewrite H1, H4, H5. vm_compute. done.
Defined.

(** Facts about single characters, by running through the code units. *)
Local Ltac char_cases c :=
  destruct c as [[] [] [] [] [] [] [] []]; vm_compute; (done || (intros; discriminate)).

Lemma digit_host c : is_digit c = true → is_host_char c = true.
Proof. char_cases c. Qed.

Lemma starts_with_app (p s : string) :
  starts_with p s = true → ∃ r, s = p +:+ r.
Proof.
  revert s. induction p as [|a p IH]; intros s; simpl; [eauto|].
  destruct s as [|b s]; [done|].
  intros [->%Ascii.eqb_eq [r ->]%IH]%andb_true_iff. eauto.
Qed.

Section Canonical.

Variables host portS : string.
Hypothesis Hhost : all_chars is_host_char host = true.
Hypothesis Hne : host ≠ "".
Hypothesis Hlen : (String.length host ≤ 255)%nat.
Hypothesis Hport : all_chars is_digit portS = true.
Hypothesis Hpne : portS ≠ "".

Lemma host_port_no_at : no_at (host +:+ ":" +:+ portS) = true.
Proof.
  unfold no_at. rewrite !all_chars_app.
  rewrite (all_chars_impl _ _ _ host_char_not_at Hhost).
  rewrite (all_chars_impl _ _ _ (fun c H => plain_char_not_at c (digit_plain c H)) Hport).
  reflexivity.
Qed.

Lemma host_port_no_query :
  all_chars (fun c => negb (Ascii.eqb c "?")) ("http:" +:+ "//" +:+ host +:+ ":" +:+ portS +:+ "")
  = true.
Proof.
  rewrite !all_chars_app.
  rewrite (all_chars_impl _ _ _ host_char_not_query Hhost).
  rewrite (all_chars_impl _ _ _ digit_not_query Hport).
  reflexivity.
Qed.

(** A host and a port are never taken for an address with a scheme. *)
Lemma host_port_not_prefixed : http_prefixed (host +:+ ":" +:+ portS) = false.
Proof.
  set (s := host +:+ ":" +:+ portS).
  assert (Hlow : toLowerCase s = s).
  { apply toLowerCase_id. unfold s. rewrite !all_chars_app.
    rewrite (all_chars_impl _ _ _ host_char_no_upper Hhost).
    rewrite (all_chars_impl _ _ _
               (fun c H => host_char_no_upper c (digit_host c H)) Hport).
    reflexivity. }
  assert (Hspan : span is_host_char s = (host, ":" +:+ portS)).
  { unfold s. apply span_app_stop; [done|]. by intros c r' [= <- _]. }
  assert (Hd : ∀ r, portS = "//" +:+ r → False).
  { intros r ->. discriminate Hport. }
  unfold http_prefixed. rewrite Hlow.
  apply orb_false_iff. split; apply not_true_is_false; intros [r Hr]%starts_with_app;
    rewrite Hr in Hspan; simpl in Hspan; injection Hspan as _ Hp;
    exact (Hd r (eq_sym Hp)).
Qed.

Lemma decode_host_port :
  parseConnectionString (host +:+ ":" +:+ portS) =
  {| protocol := Str "http:"; hostname := Str host; port := Str portS;
     path := Str ""; namespace := Undefined; authorization := Str "" |}.
Proof.
  rewrite parse_form. cbv zeta.
  destruct (address_plain _ host_port_no_at) as [-> ->].
  unfold with_scheme. rewrite host_port_not_prefixed. cbn [negb].
  pose proof (parse_plain "http:" host portS "" (or_introl eq_refl)
                Hhost Hne Hlen Hport Hpne eq_refl (or_introl eq_refl)) as H.
  cbv zeta in H. rewrite append_empty_r in H.
  change ("http://" +:+ host +:+ ":" +:+ portS)
    with ("http:" +:+ "//" +:+ host +:+ ":" +:+ portS).
  destruct H as (-> & -> & -> & ->). reflexivity.
Qed.

Lemma encode_host_port (auth : string) :
  toConnectionString
    {| protocol := Str "http:"; hostname := Str host; port := Str portS;
       path := Str ""; namespace := Undefined; authorization := Str auth |} =
  "http://" +:+ host +:+ ":" +:+ portS +:+
  (if String.eqb auth "" then "" else "?auth=" +:+ auth).
Proof.
  unfold toConnectionString.
  cbn [protocol hostname port path namespace authorization].
  replace (or_else (Str host) (Str "127.0.0.1")) with (Str host)
    by (unfold or_else; simpl; by rewrite eqb_empty, bool_decide_eq_false_2).
  change (or_else (Str "http:") (Str "http:")) with (Str "http:").
  change (or_else (Str "") (Str "")) with (Str "").
  change (or_else Undefined (Str "")) with (Str "").
  cbn [to_string truthy]. change ("" +:+ "") with "".
  rewrite (indexOf_query_none _ host_port_no_query).
  change (0 <? -1) with false. cbv iota.
  destruct (String.eqb auth ""); cbn [negb].
  - rewrite !append_empty_r. reflexivity.
  - rewrite append_empty_r. rewrite !append_assoc. reflexivity.
Qed.

End Canonical.

(** X3.  Decoding [host:port], with or without [auth@] in front, and
    encoding the result gives the address in its canonical form: the
    scheme [http://] is put in front, and the authorization moves from
    the front into the query [?auth=]; an empty authorization leaves no
    trace.  The host is in lower-case letters, digits, dots and hyphens,
    the port in digits. *)
Theorem encode_decode_host_port (auth host portS : string) :
  all_chars is_host_char host = true →
  host ≠ "" →
  (String.length host ≤ 255)%nat →
  all_chars is_digit portS = true →
  portS ≠ "" →
  toConnectionString (parseConnectionString (host +:+ ":" +:+ portS)) =
    "http://" +:+ host +:+ ":" +:+ portS ∧
  toConnectionString (parseConnectionString (auth +:+ "@" +:+ host +:+ ":" +:+ portS)) =
    "http://" +:+ host +:+ ":" +:+ portS +:+
    (if String.eqb auth "" then "" else "?auth=" +:+ auth).
Proof.
  intros Hhost Hne Hlen Hport Hpne.
  pose proof (host_port_no_at host portS Hhost Hport) as Hat.
  pose proof (decode_host_port host portS Hhost Hne Hlen Hport Hpne) as Hd.
  split.
  - rewrite Hd, (encode_host_port host portS Hhost Hne Hport ""). cbn [String.eqb].
    by rewrite append_empty_r.
  - change (auth +:+ "@" +:+ host +:+ ":" +:+ portS)
      with (auth +:+ "@" +:+ (host +:+ ":" +:+ portS)).
    rewrite (parse_at auth _ Hat). cbv zeta. rewrite Hd. cbn [protocol hostname port path namespace].
    apply (encode_host_port host portS Hhost Hne Hport).
Qed.

Lemma encode_decode_host_port_witness :
  toConnectionString (parseConnectionString ("secret" +:+ "@" +:+ "example.com" +:+ ":" +:+ "8088"))
  = "http://example.com:8088?auth=secret".
Proof.
  apply (encode_decode_host_port "secret" "example.com" "8088"); (done || (simpl; lia)).
Defined.

(** * The list of monitors *)

Section Monitors.

Import Available.

Lemma remote_loop (l : list (string * value)) (acc : list Choice) (m : Z) :
  0 ≤ m →
  fold_left
    (fun '(choices, maxShortLength) '(remote, connectionString) =>
       (choices ++ [{| c_value := connectionString; short := remote; name := None |}],
        Z.max maxShortLength (length_of remote)))
    l (acc, m) =
  (acc ++ ((fun '(remote, connectionString) =>
              {| c_value := connectionString; short := remote; name := None |}) <$> l),
   Z.max m (Z.of_nat (foldr Nat.max 0%nat ((fun '(remote, _) => String.length remote) <$> l)))).
Proof.
  revert acc m. induction l as [|[k v] l IH]; intros acc m Hm;
    cbn [fold_left fmap list_fmap foldr].
  - rewrite app_nil_r. f_equal. lia.
  - rewrite IH by (unfold length_of; lia). rewrite <- app_assoc. cbn [app]. f_equal. unfold length_of. lia.
Qed.

Lemma widest_app (a b : list Choice) : widest (a ++ b) = Nat.max (widest a) (widest b).
Proof.
  unfold widest. induction a as [|c a IH]; cbn [app fmap list_fmap foldr]; [done|].
  rewrite IH. lia.
Qed.

Lemma widest_remotes (l : list (string * value)) :
  widest ((fun '(remote, connectionString) =>
             {| c_value := connectionString; short := remote; name := None |}) <$> l) =
  foldr Nat.max 0%nat ((fun '(remote, _) => String.length remote) <$> l).
Proof.
  unfold widest. induction l as [|[k v] l IH]; cbn [fmap list_fmap foldr short]; [done|].
  by rewrite IH.
Qed.

Lemma widest_with_name (m : Z) (b : value) (l : list Choice) :
  widest (with_name m b <$> l) = widest l.
Proof.
  unfold widest. induction l as [|c l IH]; cbn [fmap list_fmap foldr with_name short]; [done|].
  by rewrite IH.
Qed.

Lemma widest_bound (l : list Choice) (c : Choice) :
  c ∈ l → (String.length (short c) ≤ widest l)%nat.
Proof.
  unfold widest. induction l as [|d l IH]; [by intros ?%elem_of_nil|].
  cbn [fmap list_fmap foldr]. intros [-> | H]%elem_of_cons; [lia|].
  specialize (IH H). lia.
Qed.

Lemma Array_join_padding (n : nat) (sep : string) :
  Array_join (Z.of_nat n + 1) sep = padding n sep.
Proof.
  unfold Array_join. replace (Z.to_nat (Z.of_nat n + 1)) with (S n) by lia.
  induction n as [|n IH]; [done|].
  cbn [repeat join padding] in *. rewrite <- IH. reflexivity.
Qed.

Lemma padding_length (n : nat) (sep : string) :
  String.length (padding n sep) = (n * String.length sep)%nat.
Proof.
  induction n as [|n IH]; cbn [padding]; [done|]. rewrite length_append, IH. lia.
Qed.

(** [Monitor.available] in one piece: the remote monitors in their
    order, then the local one unless the agent is off line; the lines
    are set when there is more than one choice. *)
Lemma available_form (o : Options) :
  let plain :=
    ((fun '(remote, connectionString) =>
        {| c_value := connectionString; short := remote; name := None |}) <$> remotes_of o) ++
    (if truthy (offline (agent_of o)) then []
     else [wrapLocal (agent_of o) (or_else (port o) (Num 8088))]) in
  (available o).2 =
  if bool_decide (plain = []) then None
  else Some (question
               (if bool_decide (1 < length plain)%nat
                then with_name (Z.of_nat (widest plain)) (blank o) <$> plain
                else plain)).
Proof.
  cbv zeta. unfold available, remotes_of. fold (agent_of o).
  cbn [remotes port blank agent].
  destruct (remotes o) as [rl|] eqn:Hr; cbn [default from_option id].
  - destruct (Z.ltb_spec 0 (Z.of_nat (length rl))) as [Hlen | Hlen].
    + cbn [negb]. rewrite andb_false_r.
      rewrite remote_loop by done. cbn [app].
      set (rs := (fun '(remote, connectionString) =>
                    {| c_value := connectionString; short := remote; name := None |}) <$> rl).
      assert (Hw : Z.max 0 (Z.of_nat (foldr Nat.max 0%nat
                     ((fun '(remote, _) => String.length remote) <$> rl)))
                   = Z.of_nat (widest rs)).
      { unfold rs. rewrite widest_remotes. lia. }
      rewrite Hw. clear Hw.
      assert (Hrs : rs ≠ []).
      { unfold rs. destruct rl; [simpl in Hlen; lia | done]. }
      destruct (truthy (offline (agent_of o))); cbn [negb snd].
      * rewrite app_nil_r. rewrite bool_decide_eq_false_2 by done.
        destruct (Z.ltb_spec 1 (Z.of_nat (length rs))).
        -- rewrite bool_decide_eq_true_2 by lia. done.
        -- rewrite bool_decide_eq_false_2 by lia. done.
      * rewrite bool_decide_eq_false_2 by (by destruct rs).
        replace (Z.max (Z.of_nat (widest rs))
                   (length_of (short (wrapLocal (agent_of o) (or_else (port o) (Num 8088))))))
          with (Z.of_nat (widest (rs ++ [wrapLocal (agent_of o) (or_else (port o) (Num 8088))])))
          by (rewrite widest_app; unfold widest at 2, length_of; cbn [fmap list_fmap foldr]; lia).
        destruct (Z.ltb_spec 1 (Z.of_nat (length (rs ++ [wrapLocal (agent_of o)
                                                     (or_else (port o) (Num 8088))])))).
        -- rewrite bool_decide_eq_true_2 by lia. done.
        -- rewrite bool_decide_eq_false_2 by lia. done.
    + assert (rl = []) as -> by (destruct rl; [done | simpl in Hlen; lia]).
      cbn [negb andb fmap list_fmap app]. rewrite andb_true_r.
      destruct (truthy (offline (agent_of o))); cbn [snd]; done.
  - cbn [negb andb fmap list_fmap app]. rewrite andb_true_r.
    destruct (truthy (offline (agent_of o))); cbn [snd]; done.
Qed.

Lemma short_remotes (l : list (string * value)) :
  short <$> ((fun '(remote, connectionString) =>
                {| c_value := connectionString; short := remote; name := None |}) <$> l) = l.*1.
Proof. induction l as [|[k v] l IH]; cbn [fmap list_fmap short fst]; [done | by rewrite IH]. Qed.

Lemma value_remotes (l : list (string * value)) :
  c_value <$> ((fun '(remote, connectionString) =>
                  {| c_value := connectionString; short := remote; name := None |}) <$> l) = l.*2.
Proof. induction l as [|[k v] l IH]; cbn [fmap list_fmap c_value snd]; [done | by rewrite IH]. Qed.

Lemma name_remotes (l : list (string * value)) (c : Choice) :
  c ∈ (fun '(remote, connectionString) =>
         {| c_value := connectionString; short := remote; name := None |}) <$> l →
  name c = None.
Proof. intros ([k v] & -> & _)%list_elem_of_fmap. done. Qed.

Lemma short_with_name (m : Z) (b : value) (l : list Choice) :
  short <$> (with_name m b <$> l) = short <$> l.
Proof. induction l as [|c l IH]; cbn [fmap list_fmap with_name short]; [done | by rewrite IH]. Qed.

Lemma value_with_name (m : Z) (b : value) (l : list Choice) :
  c_value <$> (with_name m b <$> l) = c_value <$> l.
Proof. induction l as [|c l IH]; cbn [fmap list_fmap with_name c_value]; [done | by rewrite IH]. Qed.

(** The choices offered, before the lines are set. *)
Lemma offered_form (o : Options) :
  let plain :=
    ((fun '(remote, connectionString) =>
        {| c_value := connectionString; short := remote; name := None |}) <$> remotes_of o) ++
    (if truthy (offline (agent_of o)) then []
     else [wrapLocal (agent_of o) (or_else (port o) (Num 8088))]) in
  offered o =
  if bool_decide (1 < length plain)%nat
  then with_name (Z.of_nat (widest plain)) (blank o) <$> plain
  else plain.
Proof.
  cbv zeta. unfold offered. rewrite available_form. cbv zeta.
  match goal with |- context [bool_decide (?p = [])] =>
    destruct (decide (p = [])) as [E|E] end.
  - rewrite bool_decide_eq_true_2 by done. rewrite E. done.
  - rewrite bool_decide_eq_false_2 by done. done.
Qed.

End Monitors.

(** X4.  What [Monitor.available] offers: the remote monitors in the
    order of the options, each with its key for short name and its
    connection string for value, and after them the local monitor,
    [localhost], unless the agent is off line.  The answer is [null]
    exactly when that leaves nothing to offer, so a question always has
    a choice. *)
Theorem available_offers (o : Available.Options) :
  Available.short <$> Available.offered o =
    (Available.remotes_of o).*1 ++
    (if truthy (Available.offline (Available.agent_of o)) then [] else ["localhost"]) ∧
  Available.c_value <$> Available.offered o =
    (Available.remotes_of o).*2 ++
    (if truthy (Available.offline (Available.agent_of o)) then []
     else [Str (Available.local_address o)]) ∧
  ((Available.available o).2 = None ↔ Available.offered o = []).
Proof.
  assert (Hshape : ∀ T (f : Available.Choice → T) m b l,
            (∀ c, f (Available.with_name m b c) = f c) →
            f <$> (if bool_decide (1 < length l)%nat then Available.with_name m b <$> l else l)
            = f <$> l).
  { intros T f m b l Hf. destruct (bool_decide _); [|done].
    induction l as [|c l IH]; cbn [fmap list_fmap]; [done|].
    rewrite Hf. f_equal. exact IH. }
  split_and!.
  - rewrite offered_form. cbv zeta. rewrite Hshape by done.
    rewrite fmap_app, short_remotes. by destruct (truthy _).
  - rewrite offered_form. cbv zeta. rewrite Hshape by done.
    rewrite fmap_app, value_remotes. by destruct (truthy _).
  - unfold Available.offered. rewrite available_form. cbv zeta.
    match goal with |- context [bool_decide (?p = [])] =>
      destruct (decide (p = [])) as [E|E] end.
    + rewrite bool_decide_eq_true_2 by done. done.
    + rewrite bool_decide_eq_false_2 by done. cbn [from_option Available.choices].
      split; [done|]. intros H. exfalso. apply E.
      destruct (bool_decide (1 < _)%nat); [|done].
      by apply fmap_nil_inv in H.
Qed.

(** X5.  The lines of the list.  With more than one choice every choice
    gets the line [[short<padding>] value], where the padding brings the
    short name to the width of the widest one; with a padding text of
    one character (the default is one blank) the brackets of all lines
    are equally wide.  A single choice gets no line. *)
Theorem available_lines (o : Available.Options) (c : Available.Choice) :
  c ∈ Available.offered o →
  let width := Available.widest (Available.offered o) in
  Available.name c =
    (if bool_decide (1 < length (Available.offered o))%nat
     then Some ("[" +:+ Available.bracketed width (Available.blank_of o) c +:+ "] " +:+
                to_string (Available.c_value c))
     else None) ∧
  (String.length (Available.blank_of o) = 1%nat →
   String.length (Available.bracketed width (Available.blank_of o) c) = width).
Proof.
  intros Hc. cbv zeta. split.
  - revert Hc. rewrite offered_form. cbv zeta.
    match goal with |- context [bool_decide (1 < length ?p)%nat] => set (plain := p) end.
    destruct (decide (1 < length plain)%nat) as [Hl | Hl].
    + rewrite !bool_decide_eq_true_2 by (by rewrite ?length_fmap).
      rewrite widest_with_name.
      intros (c0 & -> & Hc0)%list_elem_of_fmap.
      cbn [Available.with_name Available.name Available.short Available.c_value].
      unfold Available.bracketed. cbn [Available.short].
      pose proof (widest_bound plain c0 Hc0) as Hb.
      replace (Z.of_nat (Available.widest plain) -
               Available.length_of (Available.short c0) + 1)
        with (Z.of_nat (Available.widest plain - String.length (Available.short c0)) + 1)
        by (unfold Available.length_of; lia).
      rewrite Array_join_padding. unfold Available.blank_of.
      by rewrite !append_assoc.
    + rewrite !bool_decide_eq_false_2 by done.
      unfold plain. intros [H | H]%elem_of_app.
      * by apply name_remotes in H.
      * destruct (truthy _); [by apply elem_of_nil in H|].
        by apply list_elem_of_singleton in H as ->.
  - intros Hb. unfold Available.bracketed.
    pose proof (widest_bound _ c Hc).
    rewrite length_append, padding_length, Hb. lia.
Qed.

Lemma available_lines_witness :
  let lab := {| Available.c_value := Str "10.0.0.12:9000"; Available.short := "lab";
                Available.name := Some "[lab      ] 10.0.0.12:9000" |} in
  lab ∈ Available.offered Available.options_sample ∧
  String.length (Available.bracketed 9 " " lab) = 9%nat.
Proof.
  cbv zeta.
  match goal with |- ?c ∈ _ ∧ _ =>
    assert (Hin : c ∈ Available.offered Available.options_sample)
      by (vm_compute; set_solver);
    split; [exact Hin|];
    destruct (available_lines Available.options_sample c Hin) as [_ H]
  end.
  apply H. reflexivity.
Defined.

(** X6.  The value offered for the local monitor is a connection string
    the codec reads back: unless the agent is off line, the last choice
    is [localhost], and [parseConnectionString] finds in its value the
    host [127.0.0.1], the port of the options ([8088] when none is set)
    and the authorization of the agent, whatever that is made of.  The
    port is taken to read as digits. *)
Theorem available_local_decodes (o : Available.Options) :
  truthy (Available.offline (Available.agent_of o)) = false →
  all_chars is_digit (to_string (or_else (Available.port o) (Num 8088))) = true →
  ∃ c, last (Available.offered o) = Some c ∧
       Available.short c = "localhost" ∧
       parseConnectionString (to_string (Available.c_value c)) =
       {| protocol := Str "http:"; hostname := Str "127.0.0.1";
          port := Str (to_string (or_else (Available.port o) (Num 8088)));
          path := Str ""; namespace := Undefined;
          authorization :=
            Str (if truthy (Available.authorization (Available.agent_of o))
                 then to_string (Available.authorization (Available.agent_of o))
                 else "") |}.
Proof.
  intros Hon Hport.
  set (portS := to_string (or_else (Available.port o) (Num 8088))) in *.
  assert (Hpne : portS ≠ "").
  { apply truthy_to_string, or_else_truthy. reflexivity. }
  pose proof (decode_host_port "127.0.0.1" portS eq_refl ltac:(done) ltac:(simpl; lia)
                Hport Hpne) as Hd.
  pose proof (host_port_no_at "127.0.0.1" portS eq_refl Hport) as Hat.
  exists (if bool_decide (1 < length (Available.offered o))%nat
          then Available.with_name (Z.of_nat (Available.widest (Available.offered o)))
                 (Available.blank o)
                 (Available.wrapLocal (Available.agent_of o) (or_else (Available.port o) (Num 8088)))
          else Available.wrapLocal (Available.agent_of o) (or_else (Available.port o) (Num 8088))).
  split_and!.
  - rewrite offered_form at 1. cbv zeta. rewrite Hon.
    destruct (decide (1 < length (Available.offered o))%nat) as [Hl | Hl].
    + rewrite (bool_decide_eq_true_2 _ Hl).
      revert Hl. rewrite offered_form. cbv zeta. rewrite Hon.
      match goal with |- context [bool_decide (1 < length ?p)%nat] => set (plain := p) end.
      destruct (decide (1 < length plain)%nat) as [Hp | Hp].
      * rewrite !bool_decide_eq_true_2 by done. intros _.
        rewrite widest_with_name. unfold plain.
        rewrite fmap_app. cbn [fmap list_fmap]. apply last_snoc.
      * rewrite !bool_decide_eq_false_2 by done. intros Hl. done.
    + rewrite (bool_decide_eq_false_2 _ Hl).
      revert Hl. rewrite offered_form. cbv zeta. rewrite Hon.
      match goal with |- context [bool_decide (1 < length ?p)%nat] => set (plain := p) end.
      destruct (decide (1 < length plain)%nat) as [Hp | Hp].
      * rewrite !bool_decide_eq_true_2 by done. rewrite length_fmap. intros Hl. done.
      * rewrite !bool_decide_eq_false_2 by done. intros _. apply last_snoc.
  - by destruct (bool_decide _).
  - assert (Hv : ∀ c, (c = Available.with_name (Z.of_nat (Available.widest (Available.offered o)))
                 (Available.blank o)
                 (Available.wrapLocal (Available.agent_of o) (or_else (Available.port o) (Num 8088)))
              ∨ c = Available.wrapLocal (Available.agent_of o) (or_else (Available.port o) (Num 8088))) →
              to_string (Available.c_value c) =
              (if truthy (Available.authorization (Available.agent_of o))
               then to_string (Available.authorization (Available.agent_of o)) +:+ "@" else "") +:+
              "127.0.0.1:" +:+ portS).
    { intros c [-> | ->]; reflexivity. }
    rewrite Hv by (destruct (bool_decide _); eauto).
    destruct (truthy (Available.authorization (Available.agent_of o))).
    + rewrite append_assoc.
      change ("@" +:+ "127.0.0.1:" +:+ portS) with ("@" +:+ ("127.0.0.1" +:+ ":" +:+ portS)).
      rewrite (parse_at _ _ Hat). cbv zeta. rewrite Hd. reflexivity.
    + exact Hd.
Qed.

Lemma available_local_decodes_witness :
  ∃ c, last (Available.offered Available.options_sample) = Some c ∧
       Available.short c = "localhost" ∧
       parseConnectionString (to_string (Available.c_value c)) =
       {| protocol := Str "http:"; hostname := Str "127.0.0.1"; port := Str "8088";
          path := Str ""; namespace := Undefined; authorization := Str "secret" |}.
Proof. apply (available_local_decodes Available.options_sample); reflexivity. Defined.

(** * The process list the clients see *)

Section Lists.

Variable ansiHTML : string → string.
Variable totalmem : Z.

Lemma filtered_has_user (env : gmap string value) : is_Some (filter_env env !! "user").
Proof.
  rewrite filter_env_lookup. destruct (_ && _) eqn:E.
  - apply andb_true_iff in E as [E _]. by apply bool_decide_eq_true in E.
  - rewrite lookup_singleton_eq. eauto.
Qed.

Lemma filtered_is_retained (env : gmap string value) (key : string) :
  is_Some (filter_env env !! key) → ignored key = false.
Proof.
  rewrite filter_env_lookup. destruct (_ && _) eqn:E.
  - apply andb_true_iff in E as [_ E]. by apply negb_true_iff in E.
  - intros [v [<- _]%lookup_singleton_Some]. reflexivity.
Qed.

Lemma wrap_presentable (p : Proc) : presentable (wrap_proc p).
Proof.
  eexists. split; [reflexivity|]. split.
  - apply filtered_has_user.
  - apply filtered_is_retained.
Qed.

Lemma wrapped_presentable (procs : list Proc) : Forall presentable (wrap_proc <$> procs).
Proof. apply Forall_fmap, Forall_forall. intros p _. apply wrap_presentable. Qed.

Lemma same_lists_refl (w : World) : same_lists w w.
Proof. by split. Qed.

Lemma same_lists_trans (w1 w2 w3 : World) :
  same_lists w1 w2 → same_lists w2 w3 → same_lists w1 w3.
Proof. intros [? ?] [? ?]. split; congruence. Qed.

Local Ltac lists_leaf :=
  intros; unfold same_lists, sent_lists; split; cbn;
  repeat match goal with |- context [match ?x with _ => _ end] => destruct x end;
  rewrite ?omap_app; cbn; rewrite ?app_nil_r; reflexivity.

Local Ltac lists := keeps_with same_lists_refl same_lists_trans lists_leaf fail.

Local Ltac unfold_silent_handlers :=
  unfold sys_disconnect, sys_action, startTailProcess,
    _killTailProcess, killTail, killObserver, runObserver, throttle_fired, runTimer,
    usage_done, version_done, action_done, tail_opened,
    tail_lines, emitError_log, emitError_proc, _refreshProcs, _pm2Ver,
    _throttleRefresh, systemStat_done, nextTick_cb, _nextTick, _systemStat,
    _broadcast, set_prop, setInterval_usage, setTimeout_tick,
    clearInterval_usage, setTimeout_throttle, clearTimeout_throttle,
    fresh_handle, call, note.

(** A turn whose handler neither sends nor replaces the process list
    leaves the cache and the lists sent as they are. *)
Lemma step_same_lists (t : Z) (ev : event) (w w' : World) :
  sends_lists ev = false →
  step ansiHTML totalmem t ev w = Some w' →
  same_lists w w'.
Proof.
  unfold step. intros Hev. destruct (clock w <=? t); [|done].
  assert (Hc : same_lists w (set_clock t w)) by (by split).
  revert Hc. generalize (set_clock t w). intros w0 Hw0.
  destruct (dispatch ansiHTML totalmem t ev w0) as [[w1 h]|] eqn:Hd; [|done].
  intros [= <-]. eapply same_lists_trans; [exact Hw0|]. clear Hw0 w.
  assert (Hframe : ∀ w1 h, same_lists w0 w1 → keeps same_lists h →
                           same_lists w0 (complete h w1)).
  { intros w2 h2 Hw2 Hh. eapply same_lists_trans; [exact Hw2|].
    apply (keeps_complete same_lists same_lists_trans h2 w2 Hh).
    intros e. unfold note. lists. }
  destruct ev; cbn [dispatch sends_lists] in Hd, Hev; unfold answered in Hd;
    repeat match type of Hd with
           | context [match ?x with _ => _ end] => destruct x eqn:?; try discriminate Hd
           end;
    try discriminate Hev;
    injection Hd as <- <-;
    (apply Hframe;
     [ by (unfold same_lists, sent_lists; split; cbn; repeat case_match)
     | unfold_silent_handlers; lists ]).
Qed.

Lemma same_lists_presentable (w w' : World) :
  same_lists w w' → lists_presentable w → lists_presentable w'.
Proof. unfold lists_presentable. intros [H1 H2]. by rewrite H1, H2. Qed.

(** What [sendProcs] sends is the cache. *)
Lemma sendProcs_lists (sid : nat) (w : World) :
  lists_presentable w → lists_presentable (complete (sendProcs sid) w).
Proof.
  intros Hw. pose proof Hw as [Hc Hs].
  unfold complete, sendProcs, note, bind, get, modify.
  destruct (_procs w) as [l|] eqn:Hl; cbn; [|exact Hw].
  split; cbn; [by rewrite Hl|].
  unfold sent_lists. cbn. rewrite omap_app. cbn.
  apply Forall_app. split; [exact Hs|]. apply Forall_singleton. by apply Hc.
Qed.

(** What [list_done] caches and sends is the filtered list. *)
Lemma list_done_lists (r : string + list Proc) (w : World) :
  lists_presentable w → lists_presentable (complete (list_done r) w).
Proof.
  intros Hw. pose proof Hw as [Hc Hs].
  unfold complete, list_done, _broadcast, note, bind, get, modify, ret.
  destruct r as [message|procs]; cbn; destruct (_noClient w); cbn.
  - exact Hw.
  - split; cbn; [exact Hc|].
    unfold sent_lists. cbn. rewrite omap_app. cbn. by rewrite app_nil_r.
  - split; cbn; [|exact Hs]. intros l [= <-]. apply wrapped_presentable.
  - split; cbn; [intros l [= <-]; apply wrapped_presentable|].
    unfold sent_lists. cbn. rewrite omap_app. cbn.
    apply Forall_app. split; [exact Hs|]. apply Forall_singleton, wrapped_presentable.
Qed.

(** A turn of the event loop keeps the cache and the lists sent
    presentable. *)
Lemma step_lists (t : Z) (ev : event) (w w' : World) :
  lists_presentable w →
  step ansiHTML totalmem t ev w = Some w' →
  lists_presentable w'.
Proof.
  intros Hw Hs.
  destruct (sends_lists ev) eqn:Hev.
  2: { eapply same_lists_presentable; [|exact Hw]. by eapply step_same_lists. }
  revert Hs. unfold step. destruct (clock w <=? t); [|done].
  assert (Hc : lists_presentable (set_clock t w)) by exact Hw.
  revert Hc. generalize (set_clock t w). clear Hw w. intros w Hw.
  destruct ev as [[] sid| |sid| | | | | | | | | | |r| | | |];
    try discriminate Hev; cbn [dispatch]; clear Hev.
  - (* a client connects to the system namespace *)
    destruct (connected SYS sid w); [done|]. intros [= <-].
    unfold _connectSysSock.
    match goal with |- lists_presentable (complete (bind (modify ?f) ?k) ?w0) =>
      change (complete (bind (modify f) k) w0) with (complete (k tt) (f w0));
      assert (Hf : lists_presentable (f w0)) by exact Hw;
      revert Hf; generalize (f w0); intros w1 Hw1
    end.
    cbv beta.
    match goal with |- lists_presentable (complete (bind (sendProcs sid) ?k) w1) =>
      assert (Hk : keeps same_lists (k tt))
        by (unfold _pm2Ver, _nextTick, _systemStat, _broadcast, call, note; lists);
      pose proof (sendProcs_lists sid w1 Hw1) as Hsend;
      assert (Hrun : ∃ w2, sendProcs sid w1 = Ok tt w2)
        by (unfold sendProcs, note, bind, get, modify; destruct (_procs w1); cbn; eauto);
      destruct Hrun as [w2 Hrun];
      unfold complete in Hsend |- *; unfold bind at 1; rewrite Hrun in Hsend |- *;
      eapply same_lists_presentable; [|exact Hsend];
      apply (keeps_complete same_lists same_lists_trans (k tt) w2 Hk);
      intros e; unfold note; lists
    end.
  - (* a client asks for the list *)
    destruct (connected SYS sid w); [|done]. intros [= <-].
    by apply sendProcs_lists.
  - (* the daemon answers with the list *)
    unfold answered. destruct (bool_decide _); [|done]. intros [= <-].
    by apply list_done_lists.
Qed.

Lemma steps_lists (trace : list (Z * event)) (w w' : World) :
  lists_presentable w →
  steps ansiHTML totalmem trace w = Some w' →
  lists_presentable w'.
Proof.
  revert w. induction trace as [|[t ev] trace IH]; intros w Hw; simpl.
  - by intros [= <-].
  - destruct (step ansiHTML totalmem t ev w) as [w1|] eqn:Hs; [|done].
    apply IH. by eapply step_lists.
Qed.

End Lists.

(** X9.  The clients never see a field of a process environment that
    the filter ignores: in every world the running monitor can be in,
    every process in the cache, and every process of every list it has
    sent, to all clients or to one, has an environment with a field
    [user] and with no field whose key the filter ignores. *)
Theorem lists_always_presentable
    (ansiHTML : string → string) (totalmem : Z)
    (refresh : value) (t0 : Z) (trace : list (Z * event)) (w : World) :
  steps ansiHTML totalmem trace (started refresh t0) = Some w →
  lists_presentable w.
Proof.
  intros Hs. eapply steps_lists; [|exact Hs].
  split; [done | constructor].
Qed.

(** A client connects, the daemon lists a process, the client asks
    again. *)
Lemma lists_always_presentable_witness :
  match steps (fun s => s) 1024
          [(10, Connect SYS 1); (600, ThrottleTimeout 0);
           (610, ListDone (inr [{| proc_info := Num 1; pm2_env := Some env_example |}]));
           (620, OnProcs 1)] (started Undefined 0) with
  | Some w => lists_presentable w ∧ length (sent_lists w) = 2%nat
  | None => False
  end.
Proof.
  destruct (steps _ _ _ _) as [w|] eqn:Hs; [|vm_compute in Hs; discriminate Hs].
  split; [exact (lists_always_presentable _ _ _ _ _ w Hs)|].
  vm_compute in Hs. injection Hs as <-. reflexivity.
Defined.

(** X10.  The filter of the environment is idempotent: filtering a
    filtered environment changes nothing. *)
Theorem filter_env_idempotent (env : gmap string value) :
  filter_env (filter_env env) = filter_env env.
Proof.
  apply map_eq. intros key. rewrite (filter_env_lookup (filter_env env)).
  destruct (filter_env env !! key) as [v|] eqn:E.
  - rewrite (filtered_is_retained env key) by eauto.
    rewrite bool_decide_eq_true_2 by eauto. done.
  - rewrite bool_decide_eq_false_2 by (by intros [? ?]). cbn [andb].
    apply lookup_singleton_None. intros <-.
    destruct (filtered_has_user env) as [v Hv]. congruence.
Qed.

(** * The heartbeat on any trace *)

Section Chain.

Variable ansiHTML : string → string.
Variable totalmem : Z.

Lemma same_beat_refl (w : World) : same_beat w w.
Proof. unfold same_beat, same_heartbeat, same_presence, same_options. by split_and!. Qed.

Lemma same_beat_trans (w1 w2 w3 : World) :
  same_beat w1 w2 → same_beat w2 w3 → same_beat w1 w3.
Proof.
  unfold same_beat, same_heartbeat, same_presence, same_options.
  intros ((? & ? & ? & ?) & (? & ?) & ?) ((? & ? & ? & ?) & (? & ?) & ?).
  split_and!; congruence.
Qed.

Local Ltac beat_leaf :=
  intros; unfold same_beat, same_heartbeat, same_presence, same_options;
  split_and!; unfold ticks, stat_pending; cbn;
  repeat match goal with |- context [match ?x with _ => _ end] => destruct x end;
  rewrite ?List.filter_app; cbn; rewrite ?app_nil_r; reflexivity.

Local Ltac beat := keeps_with same_beat_refl same_beat_trans beat_leaf fail.

Local Ltac unfold_other_handlers :=
  unfold sys_disconnect, sendProcs, sys_action, startTailProcess,
    _killTailProcess, killTail, killObserver, runObserver, throttle_fired, runTimer,
    usage_done, list_done, version_done, action_done, tail_opened,
    tail_lines, emitError_log, emitError_proc, _refreshProcs, _pm2Ver,
    _throttleRefresh, _broadcast, set_prop, setInterval_usage,
    clearInterval_usage, setTimeout_throttle, clearTimeout_throttle,
    fresh_handle, call, note.

Lemma note_beat (o : obs) : is_tick o = false → keeps same_beat (note o).
Proof.
  intros Ho. unfold note. apply keeps_modify. intros w.
  unfold same_beat, same_heartbeat, same_presence, same_options.
  split_and!; try done.
  unfold ticks. cbn. rewrite List.filter_app. cbn. rewrite Ho. by rewrite app_nil_r.
Qed.

(** A turn that does not drive the heartbeat leaves it, the clients of
    the system namespace and the options as they are. *)
Lemma step_same_beat (t : Z) (ev : event) (w w' : World) :
  drives_heartbeat ev = false →
  step ansiHTML totalmem t ev w = Some w' →
  same_beat w w'.
Proof.
  unfold step. intros Hev. destruct (clock w <=? t); [|done].
  assert (Hc : same_beat w (set_clock t w)) by (by repeat split).
  revert Hc. generalize (set_clock t w). intros w0 Hw0.
  destruct (dispatch ansiHTML totalmem t ev w0) as [[w1 h]|] eqn:Hd; [|done].
  intros [= <-]. eapply same_beat_trans; [exact Hw0|]. clear Hw0 w.
  assert (Hframe : ∀ w1 h, same_beat w0 w1 → keeps same_beat h →
                           same_beat w0 (complete h w1)).
  { intros w2 h2 Hw2 Hh. eapply same_beat_trans; [exact Hw2|].
    apply (keeps_complete same_beat same_beat_trans h2 w2 Hh).
    intros e. by apply note_beat. }
  destruct ev; cbn [dispatch drives_heartbeat] in Hd, Hev; unfold answered in Hd;
    repeat match type of Hd with
           | context [match ?x with _ => _ end] => destruct x eqn:?; try discriminate Hd
           end;
    try discriminate Hev;
    injection Hd as <- <-;
    (apply Hframe;
     [ unfold same_beat, same_heartbeat, same_presence, same_options;
       split_and!; cbn; repeat case_match; try reflexivity;
       unfold stat_pending; cbn; by rewrite ?stat_pending_remove
     | unfold_other_handlers; beat ]).
Qed.

Lemma same_beat_chain (w w' : World) :
  same_beat w w' → heartbeat_chain w → heartbeat_chain w'.
Proof.
  unfold same_beat, same_heartbeat, same_presence, same_options, heartbeat_chain,
    beat_stopped, beat_sampling, beat_waiting, interval_of.
  intros ((H1 & H2 & H3 & H4) & (H5 & H6) & H7). rewrite H1, H2, H4, H6, H7. done.
Qed.

Lemma stat_pending_answered (r : request) (l : list request) :
  is_stat_request r = true →
  r ∈ l → List.filter is_stat_request l = [r] →
  List.filter is_stat_request (remove_first r l) = [].
Proof.
  intros Hr Hin. induction l as [|r' l IH]; cbn; [done|].
  destruct (decide (r = r')) as [<-|Hne].
  - rewrite Hr. by intros [= ->].
  - apply elem_of_cons in Hin as [-> | Hin]; [done|].
    cbn. destruct (is_stat_request r').
    + intros [= -> _]. done.
    + by apply IH.
Qed.

Lemma stat_pending_only (r : request) (l : list request) (x : request) :
  is_stat_request r = true → r ∈ l → List.filter is_stat_request l = [x] → r = x.
Proof.
  intros Hr Hin Hl.
  assert (H : List.In r (List.filter is_stat_request l)).
  { apply List.filter_In. split; [by apply list_elem_of_In | done]. }
  rewrite Hl in H. destruct H as [-> | []]. done.
Qed.

(** A turn of the event loop keeps the heartbeat to one chain. *)
Lemma step_chain (t : Z) (ev : event) (w w' : World) :
  presence_tracked w →
  heartbeat_chain w →
  step ansiHTML totalmem t ev w = Some w' →
  heartbeat_chain w'.
Proof.
  intros Hp Hw Hs.
  destruct (drives_heartbeat ev) eqn:Hev.
  2: { eapply same_beat_chain; [|exact Hw]. by eapply step_same_beat. }
  revert Hs. unfold step. destruct (clock w <=? t); [|done].
  assert (Hc : heartbeat_chain (set_clock t w) ∧ presence_tracked (set_clock t w))
    by (by split).
  revert Hc. generalize (set_clock t w). clear Hw Hp w. intros w [Hw Hp].
  destruct Hw as [Hphase Hlive]. unfold presence_tracked in Hp.
  destruct ev as [[] sid|[] sid reason| | | | | | | |h| |tick r| | | | | |];
    try discriminate Hev; cbn [dispatch]; clear Hev.
  - (* a client connects to the system namespace *)
    destruct (connected SYS sid w); [done|]. intros [= <-].
    unfold heartbeat_chain, beat_stopped, beat_sampling, beat_waiting, interval_of.
    unfold complete, _connectSysSock, sendProcs, _pm2Ver, _broadcast, _nextTick,
      _systemStat, call, note, bind, get, modify, ret.
    cbn -[bool_decide].
    destruct (decide (_status w = Str "R")) as [Hst | Hst].
    + destruct (_procs w); cbn -[bool_decide]; destruct (_sysStat w); cbn -[bool_decide];
        repeat (rewrite (bool_decide_eq_true_2 _ Hst); cbn -[bool_decide]);
        (split; [|done]);
        unfold stat_pending; cbn; rewrite !List.filter_app; cbn; rewrite ?app_nil_r;
        destruct Hphase as [(H1 & _) | [H | H]]; [congruence | by right; left | by right; right
                                                 |congruence | by right; left | by right; right
                                                 |congruence | by right; left | by right; right
                                                 |congruence | by right; left | by right; right].
    + assert (Hst0 : beat_stopped w).
      { destruct Hphase as [H | [(H & _) | (H & _)]]; [done | done | done]. }
      destruct Hst0 as (_ & Hq & Htt).
      destruct (_procs w); cbn -[bool_decide]; destruct (_sysStat w); cbn -[bool_decide];
        repeat (rewrite (bool_decide_eq_false_2 _ Hst); cbn -[bool_decide]);
        (split; [|done]); right; left;
        (split_and!; [done | | done]);
        unfold stat_pending in *; cbn; rewrite !List.filter_app; cbn;
        by rewrite ?app_nil_r, Hq.
  - (* a client of the system namespace leaves *)
    destruct (connected SYS sid w); [|done]. intros [= <-].
    unfold complete, sys_disconnect, modify. cbn.
    split; [exact Hphase|]. cbn. intros Hne. apply Hlive. intros E.
    rewrite E in Hne. done.
  - (* the timer of the heartbeat fires *)
    destruct (timeouts_tick w !! h) as [[due tick]|] eqn:Hl; [|done].
    destruct (due <=? t); [|done]. intros [= <-].
    assert (Hwait : beat_waiting w).
    { destruct Hphase as [(_ & _ & H) | [(_ & _ & H) | H]]; [| |done];
        rewrite H, lookup_empty in Hl; done. }
    destruct Hwait as (Hst & Hq & h0 & due0 & Htt).
    rewrite Htt in Hl. apply lookup_singleton_Some in Hl as [<- [= <- <-]].
    unfold heartbeat_chain, beat_stopped, beat_sampling, beat_waiting, interval_of.
    unfold complete, _nextTick, _systemStat, call, note, bind, get, modify, ret.
    cbn -[bool_decide]. rewrite andb_false_r. cbn.
    split; [|done]. right; left. split_and!; [done | |].
    + unfold stat_pending in *. cbn. rewrite List.filter_app, Hq. reflexivity.
    + rewrite Htt. apply delete_singleton_eq.
  - (* the statistics of a tick arrive *)
    unfold answered. destruct (bool_decide_reflect (ReqStat tick ∈ pending w)) as [Hin|]; [|done].
    intros [= <-].
    assert (Hsam : beat_sampling w).
    { destruct Hphase as [(_ & H & _) | [H | (_ & H & _)]]; [|done|];
        destruct (stat_pending_elem _ _ Hin eq_refl H). }
    destruct Hsam as (Hst & Hq & Htt).
    pose proof (stat_pending_only (ReqStat tick) _ _ eq_refl Hin Hq) as [= Htick].
    subst tick.
    pose proof (stat_pending_answered (ReqStat (interval_of w)) _ eq_refl Hin Hq) as Hq'.
    unfold heartbeat_chain, beat_stopped, beat_sampling, beat_waiting, interval_of.
    unfold complete, systemStat_done, nextTick_cb, _broadcast, setTimeout_tick,
      fresh_handle, note, bind, get, modify, ret.
    destruct (_noClient w) eqn:Hn.
    + destruct r as [message|[fields usage]]; cbn; repeat (rewrite Hn; cbn);
        (split; [by left | ]);
        intros Hne; symmetry in Hp; apply bool_decide_eq_true in Hp; done.
    + destruct r as [message|[fields usage]]; cbn; repeat (rewrite Hn; cbn);
        (split; [right; right | done]);
        (split_and!; [done | exact Hq' | ]);
        eexists _, _; rewrite Htt; apply insert_empty.
Qed.

Lemma started_chain (refresh : value) (t0 : Z) : heartbeat_chain (started refresh t0).
Proof. split; [left; by split_and! | done]. Qed.

Lemma steps_chain (trace : list (Z * event)) (w w' : World) :
  presence_tracked w →
  heartbeat_chain w →
  steps ansiHTML totalmem trace w = Some w' →
  heartbeat_chain w'.
Proof.
  revert w. induction trace as [|[t ev] trace IH]; intros w Hp Hw; simpl.
  - by intros [= <-].
  - destruct (step ansiHTML totalmem t ev w) as [w1|] eqn:Hs; [|done].
    apply IH; [by eapply step_presence | by eapply step_chain].
Qed.

End Chain.

(** X7.  The heartbeat is one chain in every world the running monitor
    can be in: it is stopped with nothing of it under way, or it awaits
    the statistics of exactly one tick, or it waits for exactly one
    timer; tick and timer carry the interval of the option [refresh]
    (5000ms when the option is not set).  And it is running whenever a
    client is connected to the system namespace. *)
Theorem heartbeat_single_chain
    (ansiHTML : string → string) (totalmem : Z)
    (refresh : value) (t0 : Z) (trace : list (Z * event)) (w : World) :
  steps ansiHTML totalmem trace (started refresh t0) = Some w →
  heartbeat_chain w ∧ interval_of w = or_else refresh (Num 5000).
Proof.
  intros Hs. split.
  - eapply steps_chain; [apply started_presence | apply started_chain | exact Hs].
  - unfold interval_of. by rewrite (steps_options ansiHTML totalmem trace _ w Hs).
Qed.

(** A client connects, the statistics arrive, the timer fires. *)
Lemma heartbeat_single_chain_witness :
  match steps (fun s => s) 1024
          [(10, Connect SYS 1); (20, StatDone (Num 5000) (inr (Null, 7)));
           (5020, TickTimeout 1)] (started Undefined 0) with
  | Some w => heartbeat_chain w ∧ interval_of w = Num 5000
  | None => False
  end.
Proof.
  destruct (steps _ _ _ _) as [w|] eqn:Hs; [|vm_compute in Hs; discriminate Hs].
  exact (heartbeat_single_chain _ _ _ _ _ w Hs).
Defined.

(** * The heartbeat and the clients of the system namespace *)

Section Drain.

Variable ansiHTML : string → string.
Variable totalmem : Z.





End Drain.




(** * The throttle on any trace *)

Section Bounded.

Variable ansiHTML : string → string.
Variable totalmem : Z.

Lemma trigger_times_cons (t : Z) (ev : event) (trace : list (Z * event)) :
  trigger_times ((t, ev) :: trace) =
  if is_trigger ev then t :: trigger_times trace else trigger_times trace.
Proof. unfold trigger_times. cbn. by destruct (is_trigger ev). Qed.

Lemma step_bounded (t : Z) (ev : event) (w w' : World) (last : Z) (k : nat) :
  throttle_bounded w last k →
  step ansiHTML totalmem t ev w = Some w' →
  if is_trigger ev then throttle_bounded w' t (S k) else throttle_bounded w' last k.
Proof.
  intros Hw Hs.
  destruct (step_throttle_cases ansiHTML totalmem t ev w w' Hs)
    as [(Hn & h & due & Hl & Hdue & H1 & H2 & H3)
       | [(Hy & h' & H1 & H2 & H3) | (Hn & H1 & H2 & H3)]].
  - rewrite Hn. destruct Hw as [[[_ Htt] _] | [(h0 & Hth & Htt) Hr]].
    + rewrite Htt, lookup_empty in Hl. done.
    + rewrite Htt in Hl. apply lookup_singleton_Some in Hl as [<- _].
      left. split.
      * split; [done|]. rewrite H2, Htt. apply delete_singleton_eq.
      * rewrite H3, length_app. simpl. lia.
  - rewrite Hy. right. split.
    + exists h'. split; [done|]. rewrite H2.
      destruct Hw as [[[Hth Htt] _] | [(h0 & Hth & Htt) _]]; rewrite Hth, Htt.
      * apply insert_empty.
      * rewrite delete_singleton_eq. apply insert_empty.
    + rewrite H3. destruct Hw as [[_ Hr] | [_ Hr]]; lia.
  - rewrite Hn. destruct Hw as [[[Hth Htt] Hr] | [(h0 & Hth & Htt) Hr]].
    + left. split; [split; congruence | by rewrite H3].
    + right. split; [exists h0; split; congruence | by rewrite H3].
Qed.

Lemma steps_bounded (trace : list (Z * event)) (w w' : World) (last : Z) (k : nat) :
  throttle_bounded w last k →
  steps ansiHTML totalmem trace w = Some w' →
  throttle_bounded w' (last_of (trigger_times trace) last)
    (k + length (trigger_times trace)).
Proof.
  revert w last k. induction trace as [|[t ev] trace IH]; intros w last k Hw; simpl.
  - intros [= <-]. by rewrite Nat.add_0_r.
  - destruct (step ansiHTML totalmem t ev w) as [w1|] eqn:Hs; [|done].
    intros Hsteps. pose proof (step_bounded t ev w w1 last k Hw Hs) as H1.
    rewrite trigger_times_cons. destruct (is_trigger ev).
    + cbn [last_of length]. rewrite Nat.add_succ_r. by apply (IH w1 t (S k)).
    + by apply (IH w1 last k).
Qed.

End Bounded.

(** X8.  The throttle on any trace, whatever the times of the calls: in
    every world the running monitor can be in, the throttle is idle or
    has exactly one timer, and that timer is due 500ms after the most
    recent call of [_throttleRefresh] (the call of [run] when no event
    made one); the refreshes invoked so far are at most one more than
    the calls the events made, and no more than those calls while the
    timer is pending. *)
Theorem throttle_on_any_trace
    (ansiHTML : string → string) (totalmem : Z)
    (refresh : value) (t0 : Z) (trace : list (Z * event)) (w : World) :
  steps ansiHTML totalmem trace (started refresh t0) = Some w →
  throttle_bounded w (last_of (trigger_times trace) t0) (length (trigger_times trace)).
Proof.
  intros Hs.
  apply (steps_bounded ansiHTML totalmem trace (started refresh t0) w t0 0%nat); [|done].
  right. split; [|done]. exists 0%nat. by split.
Qed.

(** An event of the daemon after [run], then the timer. *)
Lemma throttle_on_any_trace_witness :
  match steps (fun s => s) 1024
          [(100, Pm2Event); (700, ThrottleTimeout 1)] (started Undefined 0) with
  | Some w => throttle_bounded w 100 1
  | None => False
  end.
Proof.
  destruct (steps _ _ _ _) as [w|] eqn:Hs; [|vm_compute in Hs; discriminate Hs].
  exact (throttle_on_any_trace _ _ _ _ _ w Hs).
Defined.

(** * The sweeps of the registries *)

Section Sweeps.

Variable ansiHTML : string → string.
Variable totalmem : Z.

(** [killTail] on one key: the key is gone from the registry, and the
    tail it held was killed. *)
Lemma killTail_effect (id : string) (w : World) :
  ∃ w', killTail id w = Ok tt w' ∧
        _tails w' = delete id (_tails w) ∧
        log_sockets w' = log_sockets w ∧
        (∀ tail, _tails w !! id = Some tail → (clock w, Kill tail) ∈ done_log w').
Proof.
  unfold killTail, bind, get, read.
  destruct (_tails w !! id) as [tail|] eqn:Hk.
  - eexists. split; [reflexivity|]. cbn. split_and!; try done.
    intros tail' [= <-]. apply elem_of_app. right. by left.
  - destruct (bool_decide (id ∈ object_prototype_keys)).
    + eexists. split; [reflexivity|]. cbn. split_and!; done.
    + exists w. split_and!; try done. by rewrite delete_id.
Qed.

Lemma only_kills_refl (w : World) : only_kills w w.
Proof. exists []. by rewrite app_nil_r. Qed.

Lemma only_kills_trans (w1 w2 w3 : World) :
  only_kills w1 w2 → only_kills w2 w3 → only_kills w1 w3.
Proof.
  intros (l1 & H1 & F1) (l2 & H2 & F2). exists (l1 ++ l2). split.
  - by rewrite H2, H1, app_assoc.
  - by apply Forall_app.
Qed.

Local Ltac kills_leaf :=
  intros;
  first [ exists []; cbn; split; [by rewrite app_nil_r | constructor]
        | eexists [_]; cbn; split; [reflexivity | by repeat constructor] ].

(** [_killTailProcess] records kills of tails and nothing else. *)
Lemma killTailProcess_only_kills (pm_id : value) : keeps only_kills (_killTailProcess pm_id).
Proof.
  unfold _killTailProcess, killTail, note.
  keeps_with only_kills_refl only_kills_trans kills_leaf fail.
Qed.

Lemma only_kills_uncaught (w w' : World) : only_kills w w' → uncaught w' = uncaught w.
Proof.
  intros (l & H & F). unfold uncaught. rewrite H, omap_app.
  assert (E : omap (fun e : Z * obs =>
                      match e.2 with Uncaught x => Some x | _ => None end) l = []).
  { clear H. induction F as [|[t o] l Ho F IH]; [done|].
    destruct o; cbn in Ho; try discriminate Ho. cbn. exact IH. }
  by rewrite E, app_nil_r.
Qed.

End Sweeps.

(** X11.  When a client leaves the log namespace, the sweep returns:
    nothing is thrown, and all the turn records are kills of tails.
    Afterwards the registry of tails holds exactly the tails it held
    before whose key a socket that stays claims with its [_pm_id] (or
    whose key is a key of [Object.prototype]); every other tail was
    killed.  The reason of the disconnection is taken to be a text that
    [isNaN] does not read as a number, as the transport's reasons
    are. *)
Theorem log_disconnect_sweeps
    (ansiHTML : string → string) (totalmem : Z)
    (t : Z) (sid : nat) (reason : string) (w w' : World) :
  isNaN (Str reason) = true →
  step ansiHTML totalmem t (Disconnect LOG sid reason) w = Some w' →
  let marks := claimed_tails (others sid (log_sockets w)) in
  uncaught w' = uncaught w ∧
  only_kills w w' ∧
  (∀ k, _tails w' !! k = if marked marks k then _tails w !! k else None) ∧
  (∀ k tail, _tails w !! k = Some tail → marked marks k = false →
             (t, Kill tail) ∈ done_log w').
Proof.
  intros Hn. unfold step. destruct (clock w <=? t); [|done].
  cbn [dispatch]. destruct (connected LOG sid _); [|done].
  intros [= <-]. cbv zeta.
  match goal with |- context [complete _ ?x] => set (w1 := x) end.
  destruct (sweep_tails (Str reason) w1 Hn) as (w2 & Hr & Ht & Hk).
  pose proof (killTailProcess_only_kills (Str reason) w1) as Hlog.
  unfold complete. rewrite Hr in Hlog |- *. cbn [world_of] in Hlog.
  assert (Hlog' : only_kills w w2) by exact Hlog.
  split_and!; [by apply only_kills_uncaught | done | exact Ht | exact Hk].
Qed.

(** Two clients tail the processes 11 and 22; the first one leaves. *)
Lemma log_disconnect_sweeps_witness :
  match steps (fun s => s) 1024 (take 6 one_of_two_tails_leaves) (started Undefined 0) with
  | Some w =>
      match step (fun s => s) 1024 70 (Disconnect LOG 1 "transport close") w with
      | Some w' => _tails w' !! "11" = None ∧ _tails w' !! "22" = Some 200%nat
      | None => False
      end
  | None => False
  end.
Proof.
  destruct (steps _ _ _ _) as [w|] eqn:Hs; [|vm_compute in Hs; discriminate Hs].
  destruct (step _ _ 70 _ w) as [w'|] eqn:Hstep.
  - destruct (log_disconnect_sweeps _ _ 70 1 "transport close" w w' eq_refl Hstep)
      as (_ & _ & H & _).
    rewrite !H. clear H Hstep. vm_compute in Hs. injection Hs as <-.
    vm_compute. split; reflexivity.
  - vm_compute in Hs. injection Hs as <-. vm_compute in Hstep. discriminate Hstep.
Defined.

(** X12.  The message [tail_kill]; the handler returns in every case:
    nothing is thrown, and all the turn records are kills of tails.
    With a process id that [isNaN] reads as a number (a number, [null],
    or a string that holds a numeric literal, white space around it or
    nothing else) the tail registered under that id is killed and
    removed, whichever sockets claim it; the sockets keep their
    [_pm_id].  With any other id, or none, the sweep runs over all
    connected sockets, the sender among them: every tail a connected
    socket claims stays, every other tail is killed. *)
Theorem tail_kill_effect
    (ansiHTML : string → string) (totalmem : Z)
    (t : Z) (sid : nat) (pm_id : value) (w w' : World) :
  step ansiHTML totalmem t (OnTailKill sid pm_id) w = Some w' →
  uncaught w' = uncaught w ∧
  only_kills w w' ∧
  (if isNaN pm_id
   then ∀ k, _tails w' !! k =
             if marked (claimed_tails (log_sockets w)) k then _tails w !! k else None
   else _tails w' = delete (to_string pm_id) (_tails w) ∧
        log_sockets w' = log_sockets w) ∧
  (∀ k tail, _tails w !! k = Some tail → _tails w' !! k = None →
             (t, Kill tail) ∈ done_log w').
Proof.
  unfold step. destruct (clock w <=? t); [|done].
  cbn [dispatch]. destruct (connected LOG sid _); [|done].
  intros [= <-].
  pose proof (killTailProcess_only_kills pm_id (set_clock t w)) as Hlog.
  assert (Hret : ∃ w2, _killTailProcess pm_id (set_clock t w) = Ok tt w2).
  { destruct (isNaN pm_id) eqn:Hn.
    - destruct (sweep_tails pm_id (set_clock t w) Hn) as (w2 & Hr & _). eauto.
    - unfold _killTailProcess. rewrite Hn. cbn [negb].
      destruct (killTail_effect (to_string pm_id) (set_clock t w)) as (w2 & Hr & _). eauto. }
  destruct Hret as [w0 Hret].
  assert (Hlog' : only_kills w (complete (_killTailProcess pm_id) (set_clock t w))).
  { unfold complete. rewrite Hret in Hlog |- *. exact Hlog. }
  split; [by apply only_kills_uncaught|]. split; [exact Hlog'|]. clear Hlog Hlog' Hret w0.
  destruct (isNaN pm_id) eqn:Hn.
  - destruct (sweep_tails pm_id (set_clock t w) Hn) as (w2 & Hr & Ht & Hk).
    unfold complete. rewrite Hr. split; [exact Ht|].
    intros k tail Hk1 Hk2. apply (Hk k tail Hk1).
    specialize (Ht k). rewrite Hk2 in Ht. cbn in Ht, Hk1.
    destruct (marked _ k); [congruence | done].
  - unfold complete, _killTailProcess. rewrite Hn. cbn [negb].
    destruct (killTail_effect (to_string pm_id) (set_clock t w)) as (w2 & Hr & Ht & Hl & Hk).
    rewrite Hr. split; [by split|].
    intros k tail Hk1 Hk2. rewrite Ht in Hk2. cbn in Hk2.
    destruct (decide (k = to_string pm_id)) as [->|Hne].
    + by apply Hk.
    + rewrite lookup_delete_ne in Hk2 by done. congruence.
Qed.

(** A client tails process 11; another client, which tails nothing,
    sends [tail_kill] for it: the tail is gone, the first client is
    still tagged with the process. *)
Lemma tail_kill_effect_witness :
  match world_after (take 4 tail_killed_by_other) with
  | Some w =>
      match step (fun s => s) 1024 50 (OnTailKill 2 (Num 11)) w with
      | Some w' =>
          _tails w !! "11" = Some 100%nat ∧ _tails w' !! "11" = None ∧
          (prop <$> log_sockets w') = (prop <$> log_sockets w)
      | None => False
      end
  | None => False
  end.
Proof.
  unfold world_after.
  destruct (steps _ _ _ _) as [w|] eqn:Hs; [|vm_compute in Hs; discriminate Hs].
  destruct (step _ _ 50 _ w) as [w'|] eqn:Hstep.
  - destruct (tail_kill_effect _ _ 50 2 (Num 11) w w' Hstep) as (_ & _ & [H1 H2] & _).
    rewrite H1, H2. clear H1 H2 Hstep. vm_compute in Hs. injection Hs as <-.
    vm_compute. split_and!; reflexivity.
  - vm_compute in Hs. injection Hs as <-. vm_compute in Hstep. discriminate Hstep.
Defined.

(** * The usage timers when the sweep runs to its end *)

Section LastWatcher.

Variable ansiHTML : string → string.
Variable totalmem : Z.

(** One round of the loop of [killObserver] when no socket is left. *)
Lemma usage_round (k : string) (w : World) :
  ∃ w',
    (usages ← get _usages;
     if negb (marked ∅ k) then
       match read usages k with
       | Own timer =>
           clearInterval_usage timer;;
           modify (fun w => set_usages (delete k (_usages w)) w)
       | Inherited => modify (fun w => set_usages (delete k (_usages w)) w)
       | Absent => ret tt
       end
     else ret tt) w = Ok tt w' ∧
    done_log w' = done_log w ∧
    _usages w' =
      (if bool_decide (k ∈ object_prototype_keys) then _usages w else delete k (_usages w)) ∧
    intervals_usage w' =
      (if bool_decide (k ∈ object_prototype_keys) then intervals_usage w
       else match _usages w !! k with
            | Some h => delete h (intervals_usage w)
            | None => intervals_usage w
            end).
Proof.
  unfold marked, bind, get, read.
  rewrite (bool_decide_eq_false_2 (k ∈ (∅ : gset string))) by set_solver.
  cbn [orb]. destruct (bool_decide (k ∈ object_prototype_keys)); cbn [negb].
  - exists w. by split_and!.
  - destruct (_usages w !! k) as [h|] eqn:Hk.
    + eexists. split; [reflexivity|]. cbn. by split_and!.
    + exists w. split_and!; try done. by rewrite delete_id.
Qed.

(** The loop of [killObserver] over a list of keys when no socket is
    left. *)
Lemma usage_loop (l : list string) (w : World) :
  ∃ w',
    for_each l (fun k =>
      usages ← get _usages;
      if negb (marked ∅ k) then
        match read usages k with
        | Own timer =>
            clearInterval_usage timer;;
            modify (fun w => set_usages (delete k (_usages w)) w)
        | Inherited => modify (fun w => set_usages (delete k (_usages w)) w)
        | Absent => ret tt
        end
      else ret tt) w = Ok tt w' ∧
    done_log w' = done_log w ∧
    (∀ k, _usages w' !! k =
          if bool_decide (k ∈ l) && negb (bool_decide (k ∈ object_prototype_keys))
          then None else _usages w !! k) ∧
    (∀ h x, intervals_usage w' !! h = Some x → intervals_usage w !! h = Some x) ∧
    (∀ k h, k ∈ l → k ∉ object_prototype_keys → _usages w !! k = Some h →
            intervals_usage w' !! h = None).
Proof.
  revert w. induction l as [|k0 l IH]; intros w.
  - exists w. cbn. split_and!; try done. intros k h H. by apply elem_of_nil in H.
  - destruct (usage_round k0 w) as (w1 & Hr & Hlog & Hu & Hi).
    destruct (IH w1) as (w2 & Hr2 & Hlog2 & Hu2 & Hmono & Hclear).
    exists w2. cbn [for_each]. unfold bind at 1. rewrite Hr.
    assert (Hmono1 : ∀ h x, intervals_usage w1 !! h = Some x → intervals_usage w !! h = Some x).
    { intros h x. rewrite Hi. destruct (bool_decide (k0 ∈ object_prototype_keys)); [done|].
      destruct (_usages w !! k0) as [h0|]; [|done].
      destruct (decide (h = h0)) as [->|Hne];
        [by rewrite lookup_delete_eq | by rewrite lookup_delete_ne]. }
    split_and!; [exact Hr2 | congruence | | by eauto |].
    + intros k. rewrite Hu2, Hu.
      destruct (decide (k = k0)) as [->|Hne].
      * rewrite (bool_decide_eq_true_2 (k0 ∈ k0 :: l)) by left.
        destruct (bool_decide (k0 ∈ object_prototype_keys)); cbn; [by rewrite andb_false_r|].
        rewrite lookup_delete_eq. by destruct (bool_decide _).
      * assert (Hb : bool_decide (k ∈ k0 :: l) = bool_decide (k ∈ l)).
        { apply bool_decide_ext. rewrite elem_of_cons. split; [intros [?|?]; done | by right]. }
        rewrite Hb.
        destruct (bool_decide (k ∈ l) && negb (bool_decide (k ∈ object_prototype_keys)));
          [done|].
        destruct (bool_decide (k0 ∈ object_prototype_keys));
          [done | by rewrite lookup_delete_ne].
    + intros k h Hin Hproto Hk.
      assert (Hhead : k = k0 → intervals_usage w2 !! h = None).
      { intros ->. destruct (intervals_usage w2 !! h) as [x|] eqn:E; [|done].
        apply Hmono in E. rewrite Hi in E.
        rewrite bool_decide_eq_false_2 in E by done. rewrite Hk in E.
        by rewrite lookup_delete_eq in E. }
      apply elem_of_cons in Hin as [-> | Hin]; [by apply Hhead|].
      destruct (decide (k = k0)) as [E|Hne]; [by apply Hhead|].
      apply (Hclear k); try done.
      rewrite Hu. destruct (bool_decide (k0 ∈ object_prototype_keys));
        [done | by rewrite lookup_delete_ne].
Qed.

(** [killObserver] when no socket is left in the process namespace. *)
Lemma killObserver_last (w : World) :
  proc_sockets w = [] →
  ∃ w', killObserver w = Ok tt w' ∧
        done_log w' = done_log w ∧
        (∀ k, _usages w' !! k =
              if bool_decide (k ∈ object_prototype_keys) then _usages w !! k else None) ∧
        (∀ h x, intervals_usage w' !! h = Some x → intervals_usage w !! h = Some x) ∧
        (∀ k h, k ∉ object_prototype_keys → _usages w !! k = Some h →
                intervals_usage w' !! h = None).
Proof.
  intros Hs. unfold killObserver.
  unfold bind at 1. unfold get at 1. cbn [sockets]. rewrite Hs. cbn [length].
  change (0 <? Z.of_nat 0) with false. cbv iota.
  unfold bind at 1. unfold ret at 1. unfold bind at 1. unfold get at 1.
  destruct (usage_loop (keys (_usages w)) w) as (w' & Hr & Hlog & Hu & Hmono & Hclear).
  exists w'. split; [exact Hr|]. split_and!; try done.
  - intros k. rewrite Hu.
    destruct (_usages w !! k) as [h|] eqn:Hk.
    + rewrite bool_decide_eq_true_2.
      * by destruct (bool_decide (k ∈ object_prototype_keys)).
      * unfold keys. apply list_elem_of_fmap. exists (k, h).
        split; [done | by apply elem_of_map_to_list].
    + by destruct (_ && _), (bool_decide (k ∈ object_prototype_keys)).
  - intros k h Hproto Hk. apply (Hclear k); try done.
    unfold keys. apply list_elem_of_fmap. exists (k, h).
    split; [done | by apply elem_of_map_to_list].
Qed.

End LastWatcher.

(** X13.  When the last client leaves the process namespace, the sweep
    of the usage timers runs to its end: nothing is thrown, every entry
    of the registry is removed (but for entries under a key of
    [Object.prototype]), the timers of the removed entries are cleared,
    and no timer is armed. *)
Theorem usage_sweep_when_last_leaves
    (ansiHTML : string → string) (totalmem : Z)
    (t : Z) (sid : nat) (reason : string) (w w' : World) :
  others sid (proc_sockets w) = [] →
  step ansiHTML totalmem t (Disconnect PROC sid reason) w = Some w' →
  done_log w' = done_log w ∧
  (∀ k, _usages w' !! k =
        if bool_decide (k ∈ object_prototype_keys) then _usages w !! k else None) ∧
  (∀ k h, k ∉ object_prototype_keys → _usages w !! k = Some h →
          intervals_usage w' !! h = None) ∧
  (∀ h x, intervals_usage w' !! h = Some x → intervals_usage w !! h = Some x).
Proof.
  intros Hlast. unfold step. destruct (clock w <=? t); [|done].
  cbn [dispatch]. destruct (connected PROC sid _); [|done].
  intros [= <-].
  match goal with |- context [complete killObserver ?x] => set (w1 := x) end.
  destruct (killObserver_last w1 Hlast) as (w2 & Hr & Hlog & Hu & Hmono & Hclear).
  unfold complete. rewrite Hr. by split_and!.
Qed.

(** The only client of the process namespace watches process 4242 and
    leaves. *)
Lemma usage_sweep_when_last_leaves_witness :
  match world_after one_watcher with
  | Some w =>
      match step (fun s => s) 1024 40 (Disconnect PROC 2 "transport close") w with
      | Some w' =>
          _usages w !! "4242" = Some 1%nat ∧
          _usages w' !! "4242" = None ∧ intervals_usage w' !! 1%nat = None
      | None => False
      end
  | None => False
  end.
Proof.
  unfold world_after.
  destruct (steps _ _ _ _) as [w|] eqn:Hs; [|vm_compute in Hs; discriminate Hs].
  destruct (step _ _ 40 _ w) as [w'|] eqn:Hstep.
  - assert (Hw : others 2 (proc_sockets w) = [] ∧ _usages w !! "4242" = Some 1%nat).
    { vm_compute in Hs. injection Hs as <-. split; vm_compute; reflexivity. }
    destruct Hw as [Hlast Hk].
    destruct (usage_sweep_when_last_leaves _ _ 40 2 "transport close" w w' Hlast Hstep)
      as (_ & Hu & Hclear & _).
    assert (Hproto : "4242" ∉ object_prototype_keys).
    { apply (numeric_key_not_inherited 4242). }
    split; [exact Hk|]. split.
    + rewrite Hu. by rewrite bool_decide_eq_false_2.
    + by apply (Hclear "4242").
  - vm_compute in Hs. injection Hs as <-. vm_compute in Hstep. discriminate Hstep.
Defined.

(** X14.  Two requests for the usage of the same process arm one timer.
    The first request, for a process id that is a number and has no
    entry in the registry, tags the socket, arms an interval of 3000ms,
    registers it and samples at once; a later request for the same
    process, from any socket, tags that socket and does nothing else.
    A request without a process id tags the socket and throws. *)
Theorem runObserver_twice (w : World) (sid sid' : nat) (pid : Z) :
  _usages w !! string_of_Z pid = None →
  ∃ w1 w2,
    runObserver sid (Num pid) w = Ok tt w1 ∧
    _usages w1 = <[string_of_Z pid := next_handle w]> (_usages w) ∧
    intervals_usage w1 =
      <[next_handle w := (clock w + 3000, Num pid)]> (intervals_usage w) ∧
    done_log w1 = done_log w ++ [(clock w, Call (ReqUsage (Num pid)))] ∧
    runObserver sid' (Num pid) w1 = Ok tt w2 ∧
    w2 = world_of (set_prop PROC sid' "_pid" (Num pid) w1) ∧
    runObserver sid Undefined w =
      Throw (TypeError "Cannot read property 'toString' of undefined")
        (world_of (set_prop PROC sid "_pid" Undefined w)).
Proof.
  intros Hnone. eexists _, _. split; [|split_and!].
  - unfold runObserver, toString, runTimer, setInterval_usage, fresh_handle, call, note,
      bind, get, set_prop, modify, ret.
    cbn [_usages set_sockets set_proc_sockets to_string].
    rewrite read_numeric_key, Hnone.
    reflexivity.
  - reflexivity.
  - reflexivity.
  - reflexivity.
  - unfold runObserver, toString, bind, get, set_prop, modify, ret.
    cbn [_usages set_sockets set_proc_sockets set_pending set_done_log set_usages
         to_string world_of].
    rewrite read_numeric_key, lookup_insert_eq. reflexivity.
  - reflexivity.
  - reflexivity.
Qed.

Lemma runObserver_twice_witness :
  ∃ w1 w2,
    runObserver 1 (Num 4242) (fresh_world Undefined 0) = Ok tt w1 ∧
    _usages w1 = {[ "4242" := 0%nat ]} ∧
    runObserver 2 (Num 4242) w1 = Ok tt w2 ∧
    intervals_usage w2 = {[ 0%nat := (3000, Num 4242) ]}.
Proof.
  destruct (runObserver_twice (fresh_world Undefined 0) 1 2 4242 eq_refl)
    as (w1 & w2 & H1 & H2 & H3 & _ & H5 & H6 & _).
  exists w1, w2. split_and!; [exact H1 | exact H2 | exact H5 |].
  rewrite H6. cbn. exact H3.
Defined.

(** * The registry of usage timers on any trace *)

Section Registry.

Variable ansiHTML : string → string.
Variable totalmem : Z.

Lemma same_usage_refl (w : World) : same_usage w w.
Proof. by split_and!. Qed.

Lemma same_usage_trans (w1 w2 w3 : World) :
  same_usage w1 w2 → same_usage w2 w3 → same_usage w1 w3.
Proof. intros (? & ? & ?) (? & ? & ?). split_and!; [congruence | congruence | lia]. Qed.

Local Ltac usage_leaf :=
  intros; unfold same_usage; cbn;
  repeat match goal with |- context [match ?x with _ => _ end] => destruct x end;
  split_and!; first [reflexivity | lia].

Local Ltac usage := keeps_with same_usage_refl same_usage_trans usage_leaf fail.

Local Ltac unfold_usage_free_handlers :=
  unfold _connectSysSock, sys_disconnect, sendProcs, sys_action, startTailProcess,
    _killTailProcess, killTail, throttle_fired, runTimer,
    systemStat_done, usage_done, list_done, version_done, action_done,
    tail_opened, tail_lines, emitError_log, emitError_proc, nextTick_cb,
    _refreshProcs, _pm2Ver, _nextTick, _systemStat, _throttleRefresh, _broadcast,
    set_prop, setTimeout_tick, setTimeout_throttle,
    clearTimeout_throttle, fresh_handle, call, note.

(** A turn that is none of the process namespace's leaves the registry
    and the timers as they are. *)
Lemma step_same_usage (t : Z) (ev : event) (w w' : World) :
  moves_usage ev = false →
  step ansiHTML totalmem t ev w = Some w' →
  same_usage w w'.
Proof.
  unfold step. intros Hev. destruct (clock w <=? t); [|done].
  assert (Hc : same_usage w (set_clock t w)) by (by split_and!).
  revert Hc. generalize (set_clock t w). intros w0 Hw0.
  destruct (dispatch ansiHTML totalmem t ev w0) as [[w1 h]|] eqn:Hd; [|done].
  intros [= <-]. eapply same_usage_trans; [exact Hw0|]. clear Hw0 w.
  assert (Hframe : ∀ w1 h, same_usage w0 w1 → keeps same_usage h →
                           same_usage w0 (complete h w1)).
  { intros w2 h2 Hw2 Hh. eapply same_usage_trans; [exact Hw2|].
    apply (keeps_complete same_usage same_usage_trans h2 w2 Hh).
    intros e. unfold note. usage. }
  destruct ev; cbn [dispatch moves_usage] in Hd, Hev; unfold answered in Hd;
    repeat match type of Hd with
           | context [match ?x with _ => _ end] => destruct x eqn:?; try discriminate Hd
           end;
    try discriminate Hev;
    injection Hd as <- <-;
    (apply Hframe;
     [ by (unfold same_usage; split_and!; cbn; repeat case_match)
     | unfold_usage_free_handlers; usage ]).
Qed.

Lemma same_usage_consistent (w w' : World) :
  same_usage w w' → usage_consistent w → usage_consistent w'.
Proof.
  intros (H1 & H2 & H3) (C1 & C2 & C3). unfold usage_consistent.
  rewrite H1, H2. split_and!; [done | done |].
  intros h Hh. specialize (C3 h Hh). lia.
Qed.

(** What a request for a usage does to the registry and the timers:
    nothing, or it registers a timer of its own for the process. *)
Lemma runObserver_usage (sid : nat) (pid : value) (w : World) :
  let w' := complete (runObserver sid pid) w in
  same_usage w w' ∨
  ((to_string pid ∉ object_prototype_keys) ∧
   _usages w !! to_string pid = None ∧
   _usages w' = <[to_string pid := next_handle w]> (_usages w) ∧
   intervals_usage w' = <[next_handle w := (clock w + 3000, pid)]> (intervals_usage w) ∧
   next_handle w' = S (next_handle w)).
Proof.
  cbv zeta.
  unfold complete, runObserver, toString, runTimer, setInterval_usage, fresh_handle,
    call, note, bind, get, set_prop, modify, ret, throw.
  destruct pid as [| |n|s];
    cbn [_usages set_sockets set_proc_sockets to_string world_of];
    try (left; by split_and!).
  - unfold read. destruct (_usages w !! string_of_Z n) eqn:Hk; [left; by split_and!|].
    destruct (bool_decide_reflect (string_of_Z n ∈ object_prototype_keys));
      [left; by split_and! | right; by split_and!].
  - unfold read. destruct (_usages w !! s) eqn:Hk; [left; by split_and!|].
    destruct (bool_decide_reflect (s ∈ object_prototype_keys));
      [left; by split_and! | right; by split_and!].
Qed.

(** A turn of the event loop keeps the registry and the timers in
    agreement. *)
Lemma step_usage (t : Z) (ev : event) (w w' : World) :
  no_pid w →
  usage_consistent w →
  step ansiHTML totalmem t ev w = Some w' →
  usage_consistent w'.
Proof.
  intros Hnp Hw Hs.
  destruct (moves_usage ev) eqn:Hev.
  2: { eapply same_usage_consistent; [|exact Hw]. by eapply step_same_usage. }
  revert Hs. unfold step. destruct (clock w <=? t); [|done].
  assert (Hc : usage_consistent (set_clock t w) ∧ no_pid (set_clock t w)) by (by split).
  revert Hc. generalize (set_clock t w). clear Hw Hnp w. intros w [Hw Hnp].
  destruct ev as [|[] sid reason| | | | |sid pid| | | |h| | | | | | |];
    try discriminate Hev; cbn [dispatch]; clear Hev.
  - (* a client leaves the process namespace *)
    destruct (connected PROC sid w); [|done]. intros [= <-].
    match goal with |- context [complete killObserver ?x] => set (w1 := x) end.
    assert (Hw1 : usage_consistent w1) by exact Hw.
    destruct (proc_sockets w1) as [|sock socks] eqn:Hsocks.
    + destruct (killObserver_last w1 Hsocks) as (w2 & Hr & _ & Hu & Hmono & Hclear).
      unfold complete. rewrite Hr.
      destruct Hw1 as (C1 & C2 & C3).
      assert (Hnone : ∀ k, _usages w2 !! k = None).
      { intros k. rewrite Hu. destruct (bool_decide_reflect (k ∈ object_prototype_keys)); [|done].
        destruct (_usages w1 !! k) as [h|] eqn:Hk; [|done].
        by destruct (C1 k h Hk). }
      assert (Hgone : ∀ h, intervals_usage w2 !! h = None).
      { intros h. destruct (intervals_usage w2 !! h) as [[due pid]|] eqn:Hh; [|done].
        pose proof (Hmono _ _ Hh) as Hold. pose proof (C2 _ _ _ Hold) as Hreg.
        destruct (C1 _ _ Hreg) as [Hproto _].
        rewrite (Hclear _ _ Hproto Hreg) in Hh. done. }
      split_and!.
      * intros k h. by rewrite Hnone.
      * intros h due pid. by rewrite Hgone.
      * intros h [x Hx]. by rewrite Hgone in Hx.
    + assert (Hpid : props sock !! "pid" = None).
      { apply Hnp. unfold w1 in Hsocks. cbn in Hsocks.
        assert (Hin : sock ∈ filter (fun sock => sock_id sock ≠ sid) (proc_sockets w))
          by (rewrite Hsocks; left).
        by apply list_elem_of_filter in Hin as [_ Hin]. }
      unfold complete. rewrite (killObserver_throws w1 sock socks Hsocks Hpid).
      exact Hw1.
  - (* a client asks for the usage of a process *)
    destruct (connected PROC sid w); [|done]. intros [= <-].
    destruct (runObserver_usage sid pid w) as [Hsame | (Hproto & Hnone & Hu & Hi & Hn)].
    + by eapply same_usage_consistent.
    + destruct Hw as (C1 & C2 & C3). unfold usage_consistent. rewrite Hu, Hi, Hn.
      split_and!.
      * intros k h. destruct (decide (k = to_string pid)) as [->|Hne].
        -- rewrite lookup_insert_eq. intros [= <-]. split; [done|].
           eexists _, _. by rewrite lookup_insert_eq.
        -- rewrite lookup_insert_ne by done. intros Hk.
           destruct (C1 k h Hk) as (Hp & due & pid' & Hh & Hkey).
           split; [done|]. exists due, pid'. split; [|done].
           rewrite lookup_insert_ne; [done|].
           assert (h < next_handle w)%nat by (apply C3; eauto). lia.
      * intros h due pid'. destruct (decide (h = next_handle w)) as [->|Hne].
        -- rewrite lookup_insert_eq. intros [= _ <-]. by rewrite lookup_insert_eq.
        -- rewrite lookup_insert_ne by done. intros Hh.
           pose proof (C2 _ _ _ Hh) as Hreg.
           rewrite lookup_insert_ne; [done|]. intros E. rewrite E in Hnone. congruence.
      * intros h. destruct (decide (h = next_handle w)) as [->|Hne]; [lia|].
        rewrite lookup_insert_ne by done. intros Hh. specialize (C3 h Hh). lia.
  - (* the timer of a process fires *)
    destruct (intervals_usage w !! h) as [[due pid]|] eqn:Hh; [|done].
    destruct (due <=? t); [|done]. intros [= <-].
    destruct Hw as (C1 & C2 & C3).
    unfold complete, runTimer, call, note, bind, modify. cbn.
    split_and!; cbn.
    + intros k h' Hk. destruct (C1 k h' Hk) as (Hp & due' & pid' & Hh' & Hkey).
      split; [done|]. destruct (decide (h' = h)) as [->|Hne].
      * rewrite lookup_insert_eq. rewrite Hh in Hh'. injection Hh' as <- <-. eauto.
      * rewrite lookup_insert_ne by done. eauto.
    + intros h' due' pid'. destruct (decide (h' = h)) as [->|Hne].
      * rewrite lookup_insert_eq. intros [= _ <-]. by eapply C2.
      * rewrite lookup_insert_ne by done. apply C2.
    + intros h'. destruct (decide (h' = h)) as [->|Hne].
      * intros _. apply C3. eauto.
      * rewrite lookup_insert_ne by done. apply C3.
Qed.

Lemma steps_usage (trace : list (Z * event)) (w w' : World) :
  no_pid w →
  usage_consistent w →
  steps ansiHTML totalmem trace w = Some w' →
  usage_consistent w'.
Proof.
  revert w. induction trace as [|[t ev] trace IH]; intros w Hnp Hw; simpl.
  - by intros [= <-].
  - destruct (step ansiHTML totalmem t ev w) as [w1|] eqn:Hs; [|done].
    apply IH; [by eapply step_no_pid | by eapply step_usage].
Qed.

End Registry.

(** X15.  The registry of usage timers and the timers agree in every
    world the running monitor can be in: every process in the registry
    has one armed timer that samples it, and no timer is armed that the
    registry does not hold, so no process is sampled twice and no
    timer is lost from the registry. *)
Theorem usage_registry_consistent
    (ansiHTML : string → string) (totalmem : Z)
    (refresh : value) (t0 : Z) (trace : list (Z * event)) (w : World) :
  steps ansiHTML totalmem trace (started refresh t0) = Some w →
  usage_consistent w.
Proof.
  intros Hs. eapply steps_usage; [| |exact Hs].
  - intros sock H. by apply elem_of_nil in H.
  - assert (Hu : _usages (started refresh t0) = ∅) by reflexivity.
    assert (Hi : intervals_usage (started refresh t0) = ∅) by reflexivity.
    unfold usage_consistent. rewrite Hu, Hi. split_and!.
    + intros k h H. by rewrite lookup_empty in H.
    + intros h due pid H. by rewrite lookup_empty in H.
    + intros h [x H]. by rewrite lookup_empty in H.
Qed.

(** Two clients watch the same process, the timer fires, one client
    leaves. *)
Lemma usage_registry_consistent_witness :
  match steps (fun s => s) 1024
          [(10, Connect PROC 1); (20, Connect PROC 2);
           (30, OnProc 1 (Num 11)); (40, OnProc 2 (Num 11));
           (3030, UsageInterval 1); (3040, Disconnect PROC 1 "transport close")]
          (started Undefined 0) with
  | Some w => usage_consistent w ∧ _usages w !! "11" = Some 1%nat
  | None => False
  end.
Proof.
  destruct (steps _ _ _ _) as [w|] eqn:Hs; [|vm_compute in Hs; discriminate Hs].
  split; [exact (usage_registry_consistent _ _ _ _ _ w Hs)|].
  vm_compute in Hs. injection Hs as <-. reflexivity.
Defined.
